(** * TripVault: the client-side photo pipeline, embedded and verified

    The development follows the TypeScript sources of the web client:

    - the local folder scan of the single-page app ([makePhotoPreviewBlob],
      [readDirHandle], [scanLocalFolderPhotosOnly]);
    - the album page's upload loop ([onPickFolder]) with its calls to the
      backend;
    - the profile page's "Shared with me" list.

    JavaScript numbers that count bytes, files and pixels are integers far
    below 2^53 and are modelled by [Z]; the progress percentage is computed
    on IEEE doubles, which are Rocq's primitive floats. Promises are run to
    completion in program order: every [await] is a call whose outcome is
    either a value or a thrown error. *)

From Stdlib Require Import ZArith List String Ascii Bool Lia.
From Stdlib.Strings Require Import Byte.
From Stdlib Require Import PrimFloat Uint63.
From Stdlib Require SpecFloat FloatOps FloatAxioms.
From Stdlib Require QArith Qround HexadecimalString DecimalString Permutation Sorted.
Import ListNotations.

Set Warnings "-inexact-float,-register-all".
Local Open Scope Z_scope.

(** ** Errors and results *)

(** A thrown JavaScript value, as far as the code looks at it: [e.name] and
    [e.message]. *)
Record JsError := mkError { e_name : string; e_message : string }.

(** The outcome of an awaited call. *)
Inductive result (A : Type) : Type :=
| Ok (a : A)
| Throw (e : JsError).
Arguments Ok {A} a.
Arguments Throw {A} e.

(** [new Error(msg)] *)
Definition Error (msg : string) : JsError := mkError "Error" msg.

(** ** Files *)

(** A DOM [File]: name, declared MIME type, modification time and content.
    [size] is the byte length of the content. *)
Record File := mkFile {
  name : string;
  type : string;
  lastModified : Z;
  bytes : list byte
}.

Definition size (f : File) : Z := Z.of_nat (List.length (bytes f)).

(** ** Numbers *)

(** The double that holds a non-negative integer below 2^53. *)
Definition num (z : Z) : float := PrimFloat.of_uint63 (Uint63.of_Z z).

Definition two52 : float := 4503599627370496%float.

(** [Math.floor] on doubles of magnitude below 2^52 (larger doubles are
    integers already): adding and subtracting 2^52 rounds to an integer. *)
Definition Math_floor (x : float) : float :=
  if PrimFloat.leb two52 (PrimFloat.abs x) then x
  else if PrimFloat.ltb x 0%float then
    let y := PrimFloat.opp x in
    let c := PrimFloat.sub (PrimFloat.add y two52) two52 in
    PrimFloat.opp (if PrimFloat.ltb c y then PrimFloat.add c 1%float else c)
  else
    let r := PrimFloat.sub (PrimFloat.add x two52) two52 in
    if PrimFloat.ltb x r then PrimFloat.sub r 1%float else r.

(** [Math.round]: the nearest integer, a tie going up. *)
Definition Math_round (x : float) : float :=
  let f := Math_floor x in
  if PrimFloat.leb 0.5%float (PrimFloat.sub x f) then PrimFloat.add f 1%float else f.

(** [Math.round(p / q)] for whole numbers [0 <= p] and [0 < q]: the exact
    quotient rounded to the nearest integer, a tie going up. The double
    quotient rounds the same way as long as [p < 2^52] and the quotient times
    [q] stays below [2^52], which image sides (below [2^32]) scaled to a
    bound below [2^20] satisfy: the exact quotient then differs from a half
    by at least [1 / (2 q)], more than half a unit in the last place. *)
Definition round_div (p q : Z) : Z := (2 * p + q) / (2 * q).

(** The same rounding carried out on doubles, as the browser does it. *)
Definition round_div_double (p q : Z) : float :=
  Math_round (PrimFloat.div (num p) (num q)).

(** ** The rendition renderer of the local scan *)

(** A [Blob] as the scan uses it: its byte size. *)
Record Blob := mkBlob { blob_size : Z }.

(** The browser primitives that [makePhotoPreviewBlob] calls. Decoding reads
    the content of the file and nothing else. *)
Record Canvas := mkCanvas {
  (** [createImageBitmap]: the bitmap's [width] and [height], or a throw *)
  decode : list byte -> result (Z * Z);
  (** [canvas.getContext("2d")] is not null *)
  getContext : bool;
  (** the argument that [canvas.toBlob(cb, "image/jpeg", quality)] hands to
      its callback for a canvas of the given size on which the image was
      drawn: a blob, or [None] for null *)
  toBlob : list byte -> Z -> Z -> float -> option Blob
}.

Definition createImageBitmap (C : Canvas) (file : File) : result (Z * Z) :=
  decode C (bytes file).

(** Lines 71-80 of [makePhotoPreviewBlob]: the canvas size for a bitmap of
    [width] x [height]. *)
Definition scaledSize (maxSide width height : Z) : Z * Z :=
  if (height <? width) && (maxSide <? width) then
    (maxSide, round_div (height * maxSide) width)
  else if (width <=? height) && (maxSide <? height) then
    (round_div (width * maxSide) height, maxSide)
  else (width, height).

(** The size of the canvas on which [makePhotoPreviewBlob] draws [file]. *)
Definition canvasSize (C : Canvas) (maxSide : Z) (file : File) : result (Z * Z) :=
  match createImageBitmap C file with
  | Throw e => Throw e
  | Ok (width, height) => Ok (scaledSize maxSide width height)
  end.

(** The body of [makePhotoPreviewBlob] for a given side bound and JPEG
    quality. *)
Definition renderPreview (C : Canvas) (maxSide : Z) (quality : float)
  (file : File) : result Blob :=
  match canvasSize C maxSide file with
  | Throw e => Throw e
  | Ok (width, height) =>
    if negb (getContext C) then Throw (Error "Canvas 2D context not available")
    else match toBlob C (bytes file) width height quality with
         | Some b => Ok b
         | None => Throw (Error "toBlob failed")
         end
  end.

Definition makePhotoPreviewBlob (C : Canvas) (file : File) : result Blob :=
  renderPreview C 1280 0.7%float file.

(** ** The progress percentage *)

(** Line 331: [totalBytes ? Math.round((doneBytes / totalBytes) * 100) : 0]. *)
Definition scanPct (doneBytes totalBytes : Z) : float :=
  if totalBytes =? 0 then 0%float
  else Math_round (PrimFloat.mul (PrimFloat.div (num doneBytes) (num totalBytes)) 100%float).

(** ** Directory enumeration *)

(** A [FileSystemHandle]. [getFile] of a file handle yields the file or
    throws; iterating [values()] of a directory handle yields its entries in
    order and may throw after the last one it managed to yield. *)
Inductive Handle : Type :=
| FileHandle (entryName : string) (getFile : result File)
| DirectoryHandle (entryName : string) (values : list Handle) (broken : option JsError).

(** The inner [walk] of [readDirHandle], threading the array [out]. *)
Fixpoint walk (handle : Handle) (prefix : string) (out : list (File * string))
  : result (list (File * string)) :=
  match handle with
  | FileHandle _ _ => Ok out
  | DirectoryHandle _ entries broken =>
    (fix each (es : list Handle) (out : list (File * string)) :=
       match es with
       | [] => match broken with
               | None => Ok out
               | Some e => Throw e
               end
       | FileHandle n getFile :: es' =>
         match getFile with
         | Ok file => each es' (out ++ [(file, (prefix ++ n)%string)])
         | Throw e => Throw e
         end
       | (DirectoryHandle n _ _ as entry) :: es' =>
         match walk entry (prefix ++ n ++ "/")%string out with
         | Ok out' => each es' out'
         | Throw e => Throw e
         end
       end) entries out
  end.

Definition readDirHandle (dirHandle : Handle) : result (list (File * string)) :=
  walk dirHandle EmptyString [].

(** ** The photo filter *)

Definition lowerAscii (c : ascii) : ascii :=
  let n := nat_of_ascii c in
  if (Nat.leb 65 n && Nat.leb n 90)%bool then ascii_of_nat (n + 32) else c.

Fixpoint lowercase (s : string) : string :=
  match s with
  | EmptyString => EmptyString
  | String c s' => String (lowerAscii c) (lowercase s')
  end.

Definition startsWith (s pre : string) : bool := String.prefix pre s.

Definition endsWith (s suf : string) : bool :=
  let n := String.length s in
  let k := String.length suf in
  (Nat.leb k n && String.eqb (String.substring (n - k) k s) suf)%bool.

(** [/\.(jpg|jpeg|png|webp)$/i.test(s)] *)
Definition photoExtension (s : string) : bool :=
  existsb (endsWith (lowercase s)) [".jpg"; ".jpeg"; ".png"; ".webp"]%string.

(** The predicate of the [filter] at lines 289-293. *)
Definition isPhoto (item : File * string) : bool :=
  let file := fst item in
  (startsWith (type file) "image/" || photoExtension (name file))%bool.

(** ** State of the single-page app *)

Record PreviewUrl := mkPreviewUrl {
  p_name : string;
  url : string;
  p_size : Z
}.

Record LocalAlbum := mkAlbum {
  id : string;
  title : string;
  createdAt : string;
  a_originalBytes : Z;
  a_previewBytes : Z;
  itemsScanned : Z;
  previewUrls : list PreviewUrl
}.

Record ScanStats := mkStats {
  totalFiles : Z;
  doneFiles : Z;
  totalBytes : Z;
  doneBytes : Z;
  originalBytes : Z;
  previewBytes : Z
}.

(** What [window.alert] was called with. *)
Inductive Alert : Type :=
| NoPickerAlert
| QuotaExceededAlert (selected quota : Z)
| MessageAlert (text : string).

(** The React state that the scan reads and writes, followed by what the
    scan does to the browser: alerts shown, errors logged, object URLs
    created and revoked, and what the progress bar shows (percentage and
    counters) after each call of [setScanStats], oldest first. *)
#[projections(primitive)]
Record App := mkApp {
  albums : list LocalAlbum;
  scanProgress : float;
  scanRunning : bool;
  quotaBytes : Z;
  scanStats : ScanStats;
  alerts : list Alert;
  consoleErrors : list JsError;
  revoked : list string;
  created : list string;
  renders : list (float * ScanStats)
}.

Definition setAlbums (f : list LocalAlbum -> list LocalAlbum) (s : App) : App :=
  mkApp (f (albums s)) (scanProgress s) (scanRunning s) (quotaBytes s) (scanStats s)
        (alerts s) (consoleErrors s) (revoked s) (created s) (renders s).

Definition setScanProgress (pct : float) (s : App) : App :=
  mkApp (albums s) pct (scanRunning s) (quotaBytes s) (scanStats s)
        (alerts s) (consoleErrors s) (revoked s) (created s) (renders s).

Definition setScanRunning (b : bool) (s : App) : App :=
  mkApp (albums s) (scanProgress s) b (quotaBytes s) (scanStats s)
        (alerts s) (consoleErrors s) (revoked s) (created s) (renders s).

Definition setScanStats (f : ScanStats -> ScanStats) (s : App) : App :=
  mkApp (albums s) (scanProgress s) (scanRunning s) (quotaBytes s) (f (scanStats s))
        (alerts s) (consoleErrors s) (revoked s) (created s)
        (renders s ++ [(scanProgress s, f (scanStats s))]).

Definition alert (a : Alert) (s : App) : App :=
  mkApp (albums s) (scanProgress s) (scanRunning s) (quotaBytes s) (scanStats s)
        (alerts s ++ [a]) (consoleErrors s) (revoked s) (created s) (renders s).

Definition console_error (e : JsError) (s : App) : App :=
  mkApp (albums s) (scanProgress s) (scanRunning s) (quotaBytes s) (scanStats s)
        (alerts s) (consoleErrors s ++ [e]) (revoked s) (created s) (renders s).

Definition revokeObjectURLs (us : list string) (s : App) : App :=
  mkApp (albums s) (scanProgress s) (scanRunning s) (quotaBytes s) (scanStats s)
        (alerts s) (consoleErrors s) (revoked s ++ us) (created s) (renders s).

(** The browser during one scan: whether [window.showDirectoryPicker]
    exists, what the picker resolves to (a cancelled picker rejects with an
    error named ["AbortError"]), the canvas primitives, and the URL that the
    n-th call of [URL.createObjectURL] returns. *)
Record Browser := mkBrowser {
  hasDirectoryPicker : bool;
  showDirectoryPicker : result Handle;
  canvas : Canvas;
  objectURL : nat -> string
}.

Definition createObjectURL (B : Browser) (s : App) : string * App :=
  let u := objectURL B (List.length (created s)) in
  (u, mkApp (albums s) (scanProgress s) (scanRunning s) (quotaBytes s) (scanStats s)
            (alerts s) (consoleErrors s) (revoked s) (created s ++ [u]) (renders s)).

(** ** The local folder scan *)

(** The [let] variables of the loop at lines 312-317. *)
Record Locals := mkLocals {
  l_doneBytes : Z;
  l_doneFiles : Z;
  l_originalBytes : Z;
  l_previewBytes : Z;
  l_previewUrls : list PreviewUrl
}.

(** One turn of the loop at lines 319-342. A throw leaves the state as the
    last [set...] call made it. *)
Definition scanPhoto (B : Browser) (nPhotos total : Z) (file : File)
  (v : Locals) (s : App) : result Locals * App :=
  let originalBytes := l_originalBytes v + size file in
  match makePhotoPreviewBlob (canvas B) file with
  | Throw e => (Throw e, s)
  | Ok previewBlob =>
    let previewBytes := l_previewBytes v + blob_size previewBlob in
    let '(u, s) := createObjectURL B s in
    let previewUrls := l_previewUrls v ++ [mkPreviewUrl (name file) u (blob_size previewBlob)] in
    let doneBytes := l_doneBytes v + size file in
    let doneFiles := l_doneFiles v + 1 in
    let pct := scanPct doneBytes total in
    let s := setScanProgress pct s in
    let s := setScanStats (fun _ =>
               mkStats nPhotos doneFiles total doneBytes originalBytes previewBytes) s in
    (Ok (mkLocals doneBytes doneFiles originalBytes previewBytes previewUrls), s)
  end.

Fixpoint scanPhotos (B : Browser) (nPhotos total : Z) (photos : list (File * string))
  (v : Locals) (s : App) : result Locals * App :=
  match photos with
  | [] => (Ok v, s)
  | (file, _) :: rest =>
    match scanPhoto B nPhotos total file v s with
    | (Ok v', s') => scanPhotos B nPhotos total rest v' s'
    | (Throw e, s') => (Throw e, s')
    end
  end.

(** [photos.reduce((s, x) => s + x.file.size, 0)] *)
Definition sumSizes (photos : list (File * string)) : Z :=
  fold_left (fun s x => s + size (fst x)) photos 0.

Definition zeroStats : ScanStats := mkStats 0 0 0 0 0 0.

(** Lines 259-277: the resets made before the [try]. *)
Definition scanProlog (albumId : string) (s : App) : App :=
  let s := setScanRunning true s in
  let s := setScanProgress 0%float s in
  let s := setScanStats (fun _ => zeroStats) s in
  let s := revokeObjectURLs
             (flat_map (fun a => if String.eqb (id a) albumId then map url (previewUrls a) else [])
                       (albums s)) s in
  setAlbums (map (fun a =>
      if negb (String.eqb (id a) albumId) then a
      else mkAlbum (id a) (title a) (createdAt a) (a_originalBytes a) (a_previewBytes a)
                   (itemsScanned a) [])) s.

(** The [try] block, lines 280-350. [Ok tt] is normal completion or one of
    the two early [return]s. *)
Definition scanTry (B : Browser) (albumId : string) (s : App) : result unit * App :=
  if negb (hasDirectoryPicker B) then (Ok tt, alert NoPickerAlert s)
  else
    match showDirectoryPicker B with
    | Throw e => (Throw e, s)
    | Ok dirHandle =>
      match readDirHandle dirHandle with
      | Throw e => (Throw e, s)
      | Ok items =>
        let photos := filter isPhoto items in
        let total := sumSizes photos in
        if quotaBytes s <? total then (Ok tt, alert (QuotaExceededAlert total (quotaBytes s)) s)
        else
          let nPhotos := Z.of_nat (List.length photos) in
          let s := setScanStats (fun st =>
                     mkStats nPhotos (doneFiles st) total (doneBytes st)
                             (originalBytes st) (previewBytes st)) s in
          match scanPhotos B nPhotos total photos (mkLocals 0 0 0 0 []) s with
          | (Throw e, s) => (Throw e, s)
          | (Ok v, s) =>
            (Ok tt,
             setAlbums (map (fun a =>
               if String.eqb (id a) albumId then
                 mkAlbum (id a) (title a) (createdAt a) (l_originalBytes v) (l_previewBytes v)
                         nPhotos (l_previewUrls v)
               else a)) s)
          end
      end
    end.

(** The [catch] block, lines 351-353: [e.message || "Scan failed"] is shown
    unless the error is named ["AbortError"]. *)
Definition scanCatch (e : JsError) (s : App) : App :=
  let s := console_error e s in
  if negb (String.eqb (e_name e) "AbortError") then
    alert (MessageAlert (if String.eqb (e_message e) EmptyString then "Scan failed" else e_message e)) s
  else s.

Definition scanLocalFolderPhotosOnly (B : Browser) (albumId : string) (s : App) : App :=
  let s := scanProlog albumId s in
  let '(r, s) := scanTry B albumId s in
  let s := match r with
           | Ok _ => s
           | Throw e => scanCatch e s
           end in
  setScanRunning false s.

(** ** The album page: scan and upload *)

Module Upload.

(** [domain.ts]: [Role] and [MediaItem]. *)
Inductive Role : Type := read | write.

Record MediaItem := mkMediaItem {
  id : string;
  album_id : string;
  owner_id : string;
  sha256 : string;
  file_name : string;
  size_bytes : Z;
  last_modified_ms : option Z;
  captured_at : option string;
  width : option Z;
  height : option Z;
  preview_path : string;
  created_at : string
}.

(** The object given to [insert] at lines 519-530. *)
Record Row := mkRow {
  r_album_id : string;
  r_owner_id : string;
  r_sha256 : string;
  r_file_name : string;
  r_size_bytes : Z;
  r_last_modified_ms : Z;
  r_captured_at : option string;
  r_width : Z;
  r_height : Z;
  r_preview_path : string
}.

Record Prog := mkProg {
  totalFiles : Z;
  doneFiles : Z;
  totalBytes : Z;
  doneBytes : Z
}.

(** A request sent to the backend, tagged with the position in [images] of
    the file it is made for. *)
Inductive Call : Type :=
| SelectItem (i : nat) (albumId sha : string)
| ReserveQuota (i : nat) (delta_bytes : Z)
| UploadPreview (i : nat) (path : string) (blob : Blob)
| GetUser (i : nat)
| InsertItem (i : nat) (row : Row).

(** What the browser and the backend answer while the loop works on the
    file at position [i]: reading and hashing the file, the duplicate
    lookup ([exists.data?.id] is truthy), decoding, the EXIF date that
    survives the best-effort [try], the preview, and the error field of the
    three write requests. *)
Record World := mkWorld {
  arrayBuffer : nat -> File -> result (list byte);
  sha256Hex : list byte -> string;
  itemExists : nat -> string -> string -> bool;
  imageDims : nat -> File -> result (Z * Z);
  exifDate : nat -> File -> option string;
  makePreviewBlob : nat -> File -> Z -> float -> result Blob;
  rpc_reserve_quota : nat -> Z -> option JsError;
  storage_upload : nat -> string -> Blob -> option JsError;
  auth_getUser : nat -> option string;
  insert_media_item : nat -> Row -> result MediaItem
}.

(** The page state that [onPickFolder] touches, then the requests it sent
    and the values it gave to [setProg], oldest first. *)
#[projections(primitive)]
Record Page := mkPage {
  albumId : string;
  myRole : Role;
  items : list MediaItem;
  msg : option string;
  busy : bool;
  prog : Prog;
  calls : list Call;
  progLog : list Prog
}.

Definition setMsg (m : option string) (s : Page) : Page :=
  mkPage (albumId s) (myRole s) (items s) m (busy s) (prog s) (calls s) (progLog s).

Definition setBusy (b : bool) (s : Page) : Page :=
  mkPage (albumId s) (myRole s) (items s) (msg s) b (prog s) (calls s) (progLog s).

Definition setItems (f : list MediaItem -> list MediaItem) (s : Page) : Page :=
  mkPage (albumId s) (myRole s) (f (items s)) (msg s) (busy s) (prog s) (calls s) (progLog s).

Definition setProg (f : Prog -> Prog) (s : Page) : Page :=
  mkPage (albumId s) (myRole s) (items s) (msg s) (busy s) (f (prog s)) (calls s)
         (progLog s ++ [f (prog s)]).

Definition send (c : Call) (s : Page) : Page :=
  mkPage (albumId s) (myRole s) (items s) (msg s) (busy s) (prog s) (calls s ++ [c]) (progLog s).

(** [/\.(jpg|jpeg|png|webp|tif|tiff|heic|heif)$/i.test(f.name)] after the
    test of the lower-cased type. *)
Definition isImageFile (f : File) : bool :=
  (startsWith (lowercase (type f)) "image/"
   || existsb (endsWith (lowercase (name f)))
        [".jpg"; ".jpeg"; ".png"; ".webp"; ".tif"; ".tiff"; ".heic"; ".heif"]%string)%bool.

(** One turn of the loop at lines 464-541 for the file at position [i];
    [done] holds the variables [doneBytes] and [doneFiles]. *)
Definition uploadFile (W : World) (i : nat) (file : File) (done : Z * Z) (s : Page)
  : result (Z * Z) * Page :=
  let '(doneBytes, doneFiles) := done in
  match arrayBuffer W i file with
  | Throw e => (Throw e, s)
  | Ok buf =>
    let sha := sha256Hex W buf in
    let s := send (SelectItem i (albumId s) sha) s in
    if itemExists W i (albumId s) sha then
      let doneBytes := doneBytes + size file in
      let doneFiles := doneFiles + 1 in
      let s := setProg (fun p => mkProg (totalFiles p) doneFiles (totalBytes p) doneBytes) s in
      (Ok (doneBytes, doneFiles), s)
    else
      match imageDims W i file with
      | Throw e => (Throw e, s)
      | Ok (w, h) =>
        let captured_at := exifDate W i file in
        match makePreviewBlob W i file 640 0.8%float with
        | Throw e => (Throw e, s)
        | Ok previewBlob =>
          let s := send (ReserveQuota i (blob_size previewBlob)) s in
          match rpc_reserve_quota W i (blob_size previewBlob) with
          | Some qerr => (Throw qerr, s)
          | None =>
            let previewPath := (albumId s ++ "/" ++ sha ++ ".jpg")%string in
            let s := send (UploadPreview i previewPath previewBlob) s in
            match storage_upload W i previewPath previewBlob with
            | Some e => (Throw e, s)
            | None =>
              let s := send (GetUser i) s in
              match auth_getUser W i with
              | None => (Throw (Error "No user"), s)
              | Some uid =>
                let row := mkRow (albumId s) uid sha (name file) (size file)
                                 (lastModified file) captured_at w h previewPath in
                let s := send (InsertItem i row) s in
                match insert_media_item W i row with
                | Throw e => (Throw e, s)
                | Ok data =>
                  let s := setItems (fun prev => data :: prev) s in
                  let doneBytes := doneBytes + size file in
                  let doneFiles := doneFiles + 1 in
                  let s := setProg (fun p =>
                             mkProg (totalFiles p) doneFiles (totalBytes p) doneBytes) s in
                  (Ok (doneBytes, doneFiles), s)
                end
              end
            end
          end
        end
      end
  end.

Fixpoint uploadFiles (W : World) (i : nat) (images : list File) (done : Z * Z) (s : Page)
  : result (Z * Z) * Page :=
  match images with
  | [] => (Ok done, s)
  | file :: rest =>
    match uploadFile W i file done s with
    | (Ok done', s') => uploadFiles W (S i) rest done' s'
    | (Throw e, s') => (Throw e, s')
    end
  end.

Definition sumSizes (images : list File) : Z :=
  fold_left (fun s f => s + size f) images 0.

(** [onPickFolder] for the files of the input element's change event. *)
Definition onPickFolder (W : World) (files : list File) (s : Page) : Page :=
  let s := setMsg None s in
  match files with
  | [] => s
  | _ =>
    match myRole s with
    | read => setMsg (Some "You only have read access."%string) s
    | write =>
      let images := filter isImageFile files in
      match images with
      | [] => setMsg (Some "No images found in selected folder."%string) s
      | _ =>
        let totalBytes := sumSizes images in
        let s := setProg (fun _ => mkProg (Z.of_nat (List.length images)) 0 totalBytes 0) s in
        let s := setBusy true s in
        let '(r, s) := uploadFiles W 0 images (0, 0) s in
        let s := match r with
                 | Ok _ => s
                 | Throw err => setMsg (Some (e_message err)) s
                 end in
        setBusy false s
      end
    end
  end.

End Upload.

(** ** The profile page: albums shared with the user *)

Module Profile.

(** [domain.ts]: [Album]. *)
Record Album := mkAlbum {
  id : string;
  owner_id : string;
  title : string;
  created_at : string
}.

(** [Album & { my_role?: string }] *)
Record SharedAlbum := mkShared {
  album : Album;
  my_role : option string
}.

(** A row of [album_members] joined with its album, which may be null. *)
Record MemberRow := mkMemberRow {
  album_id : string;
  role : string;
  albums : option Album
}.

(** A JavaScript [Map] with string keys: the entries in the order in which
    their keys were first set. *)
Definition JsMap (V : Type) : Type := list (string * V).

Fixpoint map_set {V : Type} (k : string) (v : V) (m : JsMap V) : JsMap V :=
  match m with
  | [] => [(k, v)]
  | (k', v') :: m' =>
    if String.eqb k' k then (k, v) :: m' else (k', v') :: map_set k v m'
  end.

Definition map_values {V : Type} (m : JsMap V) : list V := map snd m.

(** Lines 67-69: the rows that carry an album, each with the row's role. *)
Definition sharedAlbums (data : list MemberRow) : list SharedAlbum :=
  flat_map (fun row =>
    match albums row with
    | Some a => [mkShared a (Some (role row))]
    | None => []
    end) data.

(** Lines 72-73. *)
Definition uniq (l : list SharedAlbum) : JsMap SharedAlbum :=
  fold_left (fun m a => map_set (id (album a)) a m) l [].

(** The argument of [setShared] at line 75. *)
Definition shared (data : list MemberRow) : list SharedAlbum :=
  map_values (uniq (sharedAlbums data)).

End Profile.

(** ** The quota account *)

Module Quota.

(** Modelled from the spec: the backend's [reserve_quota] is not part of the
    client sources. Section 4.6 describes it as one indivisible step that
    reads the usage, verifies [used + delta <= limit], and if so increments
    [used] and succeeds; otherwise it fails and changes nothing. *)
Record QuotaAccount := mkAccount {
  used_bytes : Z;
  limit_bytes : Z
}.

Definition reserve (delta : Z) (q : QuotaAccount) : option QuotaAccount :=
  if used_bytes q + delta <=? limit_bytes q
  then Some (mkAccount (used_bytes q + delta) (limit_bytes q))
  else None.

(** The accounts seen after each of a sequence of reservation attempts; a
    failed attempt leaves the account as it was. *)
Fixpoint reservations (deltas : list Z) (q : QuotaAccount) : list QuotaAccount :=
  match deltas with
  | [] => []
  | d :: rest =>
    let q' := match reserve d q with
              | Some q' => q'
              | None => q
              end in
    q' :: reservations rest q'
  end.

End Quota.

(** ** Vocabulary of the statements *)

(** The photos that the picker hands to the loop of the local scan: [None]
    when the picker is missing, is cancelled or fails, or the walk fails. *)
Definition picked (B : Browser) : option (list (File * string)) :=
  if hasDirectoryPicker B then
    match showDirectoryPicker B with
    | Ok dirHandle =>
      match readDirHandle dirHandle with
      | Ok items => Some (filter isPhoto items)
      | Throw _ => None
      end
    | Throw _ => None
    end
  else None.

(** The leading photos whose previews render, with their previews. *)
Fixpoint rendered (C : Canvas) (photos : list (File * string)) : list (File * Blob) :=
  match photos with
  | [] => []
  | (file, _) :: rest =>
    match makePhotoPreviewBlob C file with
    | Ok b => (file, b) :: rendered C rest
    | Throw _ => []
    end
  end.

(** The error of the first photo whose preview does not render. *)
Fixpoint firstThrow (C : Canvas) (photos : list (File * string)) : option JsError :=
  match photos with
  | [] => None
  | (file, _) :: rest =>
    match makePhotoPreviewBlob C file with
    | Ok _ => firstThrow C rest
    | Throw e => Some e
    end
  end.

(** The counters after one more rendered photo, and after each of a list of
    them. *)
Definition turnStats (st : ScanStats) (fb : File * Blob) : ScanStats :=
  mkStats (totalFiles st) (doneFiles st + 1) (totalBytes st)
          (doneBytes st + size (fst fb))
          (originalBytes st + size (fst fb))
          (previewBytes st + blob_size (snd fb)).

Fixpoint loopStats (st : ScanStats) (ok : list (File * Blob)) : list ScanStats :=
  match ok with
  | [] => []
  | fb :: rest => turnStats st fb :: loopStats (turnStats st fb) rest
  end.

(** The total size of a list of files. *)
Definition sizesOf (files : list File) : Z :=
  fold_right (fun f acc => size f + acc) 0 files.

(** What one run of the scan adds to the log of renders. *)
Definition runRenders (B : Browser) (albumId : string) (s : App) : list (float * ScanStats) :=
  skipn (List.length (renders s)) (renders (scanLocalFolderPhotosOnly B albumId s)).

(** Counters never go down along a list of snapshots. *)
Definition nondecreasing (l : list ScanStats) : Prop :=
  forall i j a b, (i <= j)%nat -> nth_error l i = Some a -> nth_error l j = Some b ->
    doneFiles a <= doneFiles b /\ doneBytes a <= doneBytes b.

(** The bytes that the albums hold: originals and previews. *)
Definition heldOriginalBytes (s : App) : Z :=
  fold_right (fun a acc => a_originalBytes a + acc) 0 (albums s).

Definition heldPreviewBytes (s : App) : Z :=
  fold_right (fun a acc => a_previewBytes a + acc) 0 (albums s).

(** ** Vocabulary of the proofs *)

(** The counters that a turn of the loop publishes from its variables. *)
Definition statsOf (n total : Z) (v : Locals) : ScanStats :=
  mkStats n (l_doneFiles v) total (l_doneBytes v) (l_originalBytes v) (l_previewBytes v).

(** What the progress bar shows with the counters of a turn. *)
Definition shown (st : ScanStats) : float * ScanStats :=
  (scanPct (doneBytes st) (totalBytes st), st).

(** The variables and the state after the turn of a photo whose preview [b]
    got the object URL [u]. *)
Definition turn (v : Locals) (file : File) (b : Blob) (u : string) : Locals :=
  mkLocals (l_doneBytes v + size file) (l_doneFiles v + 1)
           (l_originalBytes v + size file) (l_previewBytes v + blob_size b)
           (l_previewUrls v ++ [mkPreviewUrl (name file) u (blob_size b)]).

Definition afterTurn (B : Browser) (n total : Z) (v : Locals) (file : File) (b : Blob)
  (s : App) : App :=
  let u := objectURL B (List.length (created s)) in
  let st := statsOf n total (turn v file b u) in
  mkApp (albums s) (fst (shown st)) (scanRunning s) (quotaBytes s) st
        (alerts s) (consoleErrors s) (revoked s) (created s ++ [u])
        (renders s ++ [shown st]).

(** The previews that the loop builds for rendered photos, the first of them
    getting the [k]-th object URL. *)
Fixpoint previewsOf (B : Browser) (k : nat) (ok : list (File * Blob)) : list PreviewUrl :=
  match ok with
  | [] => []
  | (f, b) :: rest => mkPreviewUrl (name f) (objectURL B k) (blob_size b) :: previewsOf B (S k) rest
  end.

(** The state when the loop starts: the resets are done and the totals of
    the batch are published. *)
Definition gated (albumId : string) (s : App) (photos : list (File * string)) : App :=
  setScanStats (fun st => mkStats (Z.of_nat (List.length photos)) (doneFiles st)
                                  (sumSizes photos) (doneBytes st)
                                  (originalBytes st) (previewBytes st))
               (scanProlog albumId s).

(** The counters published when the loop starts. *)
Definition startStats (photos : list (File * string)) : ScanStats :=
  mkStats (Z.of_nat (List.length photos)) 0 (sumSizes photos) 0 0 0.

(** The message that the [catch] block shows for an error. *)
Definition shownFor (e : JsError) : list Alert :=
  if String.eqb (e_name e) "AbortError" then []
  else [MessageAlert (if String.eqb (e_message e) EmptyString then "Scan failed"%string else e_message e)].

(** Projections of a state built by the setters, reduced by need. *)
Ltac setters :=
  lazy beta iota zeta delta
    [albums scanProgress scanRunning quotaBytes scanStats alerts consoleErrors
     revoked created renders
     scanCatch setScanRunning setScanProgress setScanStats
     setAlbums alert console_error revokeObjectURLs] in *.

(** The same, through the resets made before the [try]. *)
Ltac prolog :=
  lazy beta iota zeta delta
    [albums scanProgress scanRunning quotaBytes scanStats alerts consoleErrors
     revoked created renders
     gated scanProlog scanCatch setScanRunning setScanProgress setScanStats
     setAlbums alert console_error revokeObjectURLs] in *.

(** What the album of the scan becomes when the loop completes. *)
Definition stored (B : Browser) (A : string) (s : App) (photos : list (File * string))
  (a : LocalAlbum) : LocalAlbum :=
  let ok := rendered (canvas B) photos in
  let fin := last (loopStats (startStats photos) ok) (startStats photos) in
  if String.eqb (id a) A then
    mkAlbum (id a) (title a) (createdAt a) (originalBytes fin) (previewBytes fin)
            (Z.of_nat (List.length photos)) (previewsOf B (List.length (created s)) ok)
  else a.

(** A scan that never reaches the loop ends in one of two ways: with an
    alert (no picker, or over quota) or in the [catch] block. *)
Inductive idle_end (A : string) (s : App) : App -> Prop :=
| idle_alert (a : Alert) :
    idle_end A s (setScanRunning false (alert a (scanProlog A s)))
| idle_catch (e : JsError) :
    idle_end A s (setScanRunning false (scanCatch e (scanProlog A s))).

(** The picker followed by the walk. *)
Definition enumerate (B : Browser) : result (list (File * string)) :=
  match showDirectoryPicker B with
  | Throw e => Throw e
  | Ok dirHandle => readDirHandle dirHandle
  end.

(** Files and bytes done. *)
Definition counters (st : ScanStats) : Z * Z := (doneFiles st, doneBytes st).

(** ** The claims as stated, on the local scan *)

(** An item failure leaves the other items alone: every photo of the batch
    that renders has its preview in the scanned album after the run. *)
Definition failures_isolated (B : Browser) (A : string) (s : App) : Prop :=
  forall photos, picked B = Some photos -> sumSizes photos <= quotaBytes s ->
  forall file rel b,
    In (file, rel) photos -> makePhotoPreviewBlob (canvas B) file = Ok b ->
    exists a p, In a (albums (scanLocalFolderPhotosOnly B A s)) /\ id a = A /\
                In p (previewUrls a) /\ p_name p = name file.

(** The total size of the previews of a batch that renders entirely. *)
Definition previewsSize (C : Canvas) (photos : list (File * string)) : Z :=
  fold_right (fun fb acc => blob_size (snd fb) + acc) 0 (rendered C photos).

(** Quota is charged with rendition sizes: a batch that renders entirely
    and whose previews fit in the quota is not refused. *)
Definition charged_by_rendition (B : Browser) (A : string) (s : App) : Prop :=
  forall photos, picked B = Some photos -> firstThrow (canvas B) photos = None ->
  previewsSize (canvas B) photos <= quotaBytes s ->
  alerts (scanLocalFolderPhotosOnly B A s) = alerts s.

(** The counters reach the totals when the run ends. *)
Definition counters_complete (B : Browser) (A : string) (s : App) : Prop :=
  let fin := scanStats (scanLocalFolderPhotosOnly B A s) in
  doneFiles fin = totalFiles fin /\ doneBytes fin = totalBytes fin.

(** The percentage is the exact ratio rounded: every render shows
    [100 * doneBytes / totalBytes] rounded to the nearest whole number, a
    tie going up, and 0 when [totalBytes] is 0. *)
Definition percentage_rounded (B : Browser) (A : string) (s : App) : Prop :=
  forall p st, In (p, st) (runRenders B A s) ->
    p = num (if totalBytes st =? 0 then 0
             else round_div (100 * doneBytes st) (totalBytes st)).

(** What the albums hold stays within the quota. *)
Definition within_quota (s : App) : Prop :=
  heldOriginalBytes s <= quotaBytes s /\ heldPreviewBytes s <= quotaBytes s.

(** ** Sample inputs *)

Module Sample.

(** A file whose content decodes (it starts with a byte other than zero)
    and one whose content does not. *)
Definition photo (n : string) (len : nat) : File :=
  mkFile n "image/jpeg" 1700000000000 (repeat x01 len).

Definition broken (n : string) (len : nat) : File :=
  mkFile n "image/jpeg" 1700000000000 (repeat x00 len).

Definition notes : File := mkFile "notes.txt" "text/plain" 1700000000000 (repeat x01 7).

Definition undecodable : JsError :=
  mkError "InvalidStateError" "The source image could not be decoded.".

(** A browser canvas: every decodable file is a 3000 x 2001 image, and the
    JPEG of a drawing is five bytes shorter than its source. *)
Definition sampleCanvas : Canvas :=
  mkCanvas
    (fun data => match data with
                 | x00 :: _ => Throw undecodable
                 | [] => Throw undecodable
                 | _ => Ok (3000, 2001)
                 end)
    true
    (fun data w h q => Some (mkBlob (Z.of_nat (List.length data) - 5))).

Definition blobUrl (n : nat) : string :=
  ("blob:" ++ String (ascii_of_nat (48 + n)) EmptyString)%string.

Definition browserWith (dir : result Handle) : Browser :=
  mkBrowser true dir sampleCanvas blobUrl.

(** A folder with one photo at the top and one in a sub-folder, next to a
    text file. *)
Definition twoPhotos : Handle :=
  DirectoryHandle "trip"
    [FileHandle "a.jpg" (Ok (photo "a.jpg" 30));
     FileHandle "notes.txt" (Ok notes);
     DirectoryHandle "day2" [FileHandle "b.jpg" (Ok (photo "b.jpg" 30))] None]
    None.

(** A folder whose second photo cannot be decoded. *)
Definition brokenSecond : Handle :=
  DirectoryHandle "trip"
    [FileHandle "a.jpg" (Ok (photo "a.jpg" 30));
     FileHandle "b.jpg" (Ok (broken "b.jpg" 30));
     FileHandle "c.jpg" (Ok (photo "c.jpg" 30))]
    None.

(** A folder of two photos of 23 and 17 bytes. *)
Definition uneven : Handle :=
  DirectoryHandle "trip"
    [FileHandle "a.jpg" (Ok (photo "a.jpg" 23));
     FileHandle "b.jpg" (Ok (photo "b.jpg" 17))]
    None.

Definition cancelled : JsError := mkError "AbortError" "The user aborted a request.".

Definition denied : JsError := mkError "NotAllowedError" "Permission denied.".

Definition emptyAlbum (i : string) : LocalAlbum :=
  mkAlbum i i "2026-01-01T00:00:00.000Z" 0 0 0 [].

(** Two albums and nothing scanned yet. *)
Definition start (quota : Z) : App :=
  mkApp [emptyAlbum "goa"; emptyAlbum "rome"] 0%float false quota zeroStats [] [] [] [] [].

(** A backend that refuses the reservation of the file at position 1 and
    accepts everything else; no file is in the album yet. *)
Definition quotaExceeded : JsError := mkError "PostgrestError" "quota exceeded".

Definition inserted (row : Upload.Row) : Upload.MediaItem :=
  Upload.mkMediaItem "m1" (Upload.r_album_id row) (Upload.r_owner_id row)
    (Upload.r_sha256 row) (Upload.r_file_name row) (Upload.r_size_bytes row)
    (Some (Upload.r_last_modified_ms row)) (Upload.r_captured_at row)
    (Some (Upload.r_width row)) (Some (Upload.r_height row))
    (Upload.r_preview_path row) "2026-01-02T00:00:00.000Z".

Definition world : Upload.World :=
  Upload.mkWorld
    (fun _ f => Ok (bytes f))
    (fun data => ("sha-" ++ String (ascii_of_nat (65 + List.length data)) EmptyString)%string)
    (fun _ _ _ => false)
    (fun _ _ => Ok (3000, 2001))
    (fun _ _ => None)
    (fun _ f _ _ => Ok (mkBlob (size f - 5)))
    (fun i _ => if Nat.eqb i 1 then Some quotaExceeded else None)
    (fun _ _ _ => None)
    (fun _ => Some "user-1"%string)
    (fun _ row => Ok (inserted row)).

Definition page : Upload.Page :=
  Upload.mkPage "goa" Upload.write [] None false (Upload.mkProg 0 0 0 0) [] [].

Definition threeFiles : list File :=
  [photo "a.jpg" 30; notes; photo "b.jpg" 31; photo "c.jpg" 32].

End Sample.

(** The photos that the picker yields for the two sample folders. *)
Definition samplePhotos : list (File * string) :=
  [(Sample.photo "a.jpg" 30, "a.jpg"%string); (Sample.photo "b.jpg" 30, "day2/b.jpg"%string)].

Definition brokenPhotos : list (File * string) :=
  [(Sample.photo "a.jpg" 30, "a.jpg"%string); (Sample.broken "b.jpg" 30, "b.jpg"%string);
   (Sample.photo "c.jpg" 30, "c.jpg"%string)].

(** ** Vocabulary of insertion-ordered maps *)

(** [a] occurs in [l] and no later element of [l] has its key. *)
Definition lastOf {V : Type} (key : V -> string) (a : V) (l : list V) : Prop :=
  exists before after,
    l = before ++ a :: after /\ forall b, In b after -> key b <> key a.

(** No key occurs twice in [m] and every value sits under its own key. *)
Definition keyed {V : Type} (key : V -> string) (m : Profile.JsMap V) : Prop :=
  NoDup (map fst m) /\ forall k v, In (k, v) m -> key v = k.

(** ** Vocabulary of the upload loop *)

Module UploadRun.
Import Upload.

(** A page of album [aid] on which nothing has happened yet. *)
Definition blank (aid : string) : Page :=
  mkPage aid write [] None false (mkProg 0 0 0 0) [] [].

(** The requests that the loop sends for the file at position [i], and the
    error that ends its turn, if any. *)
Definition itemCalls (W : World) (aid : string) (i : nat) (file : File) : list Call :=
  calls (snd (uploadFile W i file (0, 0) (blank aid))).

Definition itemError (W : World) (aid : string) (i : nat) (file : File) : option JsError :=
  match fst (uploadFile W i file (0, 0) (blank aid)) with
  | Ok _ => None
  | Throw e => Some e
  end.

(** The leading files whose turns end without an error, the first error, and
    the requests of a run over [images] whose first file has position [i]. *)
Fixpoint settled (W : World) (aid : string) (i : nat) (images : list File) : list File :=
  match images with
  | [] => []
  | f :: rest =>
    match itemError W aid i f with
    | None => f :: settled W aid (S i) rest
    | Some _ => []
    end
  end.

Fixpoint firstError (W : World) (aid : string) (i : nat) (images : list File)
  : option JsError :=
  match images with
  | [] => None
  | f :: rest =>
    match itemError W aid i f with
    | None => firstError W aid (S i) rest
    | Some e => Some e
    end
  end.

Fixpoint runCalls (W : World) (aid : string) (i : nat) (images : list File) : list Call :=
  match images with
  | [] => []
  | f :: rest =>
    itemCalls W aid i f ++
    match itemError W aid i f with
    | None => runCalls W aid (S i) rest
    | Some _ => []
    end
  end.

(** The values given to [setProg] after each of a list of settled files. *)
Fixpoint progSteps (tF tB dB dF : Z) (done : list File) : list Prog :=
  match done with
  | [] => []
  | f :: rest => mkProg tF (dF + 1) tB (dB + size f) :: progSteps tF tB (dB + size f) (dF + 1) rest
  end.

(** The position of the file that a request is made for. *)
Definition callIndex (c : Call) : nat :=
  match c with
  | SelectItem i _ _ => i
  | ReserveQuota i _ => i
  | UploadPreview i _ _ => i
  | GetUser i => i
  | InsertItem i _ => i
  end.

(** What one run of [onPickFolder] adds to the requests and to the progress
    log. *)
Definition newCalls (W : World) (files : list File) (s : Page) : list Call :=
  skipn (List.length (calls s)) (calls (onPickFolder W files s)).

Definition newProgs (W : World) (files : list File) (s : Page) : list Prog :=
  skipn (List.length (progLog s)) (progLog (onPickFolder W files s)).

(** Projections of a page built by the setters; the case analysis of one
    turn of the loop, answer by answer. *)
Ltac page_fields :=
  cbn [albumId myRole items msg busy prog calls progLog
       setMsg setBusy setItems setProg send blank fst snd app] in *.

Ltac split_item W i file aid :=
  page_fields;
  destruct (arrayBuffer W i file) as [buf|?] eqn:Hbuf; page_fields;
  [destruct (itemExists W i aid (sha256Hex W buf)) eqn:Hex; page_fields;
   [|destruct (imageDims W i file) as [[w h]|?] eqn:Hdims; page_fields;
     [destruct (makePreviewBlob W i file 640 0.8%float) as [pb|?] eqn:Hpb; page_fields;
      [destruct (rpc_reserve_quota W i (blob_size pb)) as [?|] eqn:Hq; page_fields;
       [|destruct (storage_upload W i (aid ++ "/" ++ sha256Hex W buf ++ ".jpg")%string pb)
           as [?|] eqn:Hup; page_fields;
         [|destruct (auth_getUser W i) as [uid|] eqn:Huid; page_fields;
           [destruct (insert_media_item W i
                        (mkRow aid uid (sha256Hex W buf) (name file) (size file)
                               (lastModified file) (exifDate W i file) w h
                               (aid ++ "/" ++ sha256Hex W buf ++ ".jpg")%string))
              as [data|?] eqn:Hins; page_fields|]]]|]|]]|].

(** The request is a call of [reserve_quota]. *)
Definition isReserve (c : Call) : bool :=
  match c with
  | ReserveQuota _ _ => true
  | _ => false
  end.

(** The images of a change event. *)
Definition imagesOf (files : list File) : list File := filter isImageFile files.

(** The first value given to [setProg] in a run. *)
Definition startProg (images : list File) : Prog :=
  mkProg (Z.of_nat (List.length images)) 0 (sumSizes images) 0.

(** The reservations requested for the file at position [j]. *)
Definition reservedFor (j : nat) (l : list Call) : list Call :=
  filter (fun c => (isReserve c && Nat.eqb (callIndex c) j)%bool) l.

(** Files and bytes done, and lists of snapshots along which they never go
    down. *)
Definition progCounters (p : Prog) : Z * Z := (doneFiles p, doneBytes p).

Definition nondecreasingProg (l : list Prog) : Prop :=
  forall i j a b, (i <= j)%nat -> nth_error l i = Some a -> nth_error l j = Some b ->
    doneFiles a <= doneFiles b /\ doneBytes a <= doneBytes b.

End UploadRun.

(** ** Text helpers of the pages *)

(** [s.slice(n)] for [0 <= n]. *)
Fixpoint drop (n : nat) (s : string) : string :=
  match n, s with
  | O, _ => s
  | S n', String _ s' => drop n' s'
  | S _, EmptyString => EmptyString
  end.

(** [s.slice(0, n)] for [0 <= n]. *)
Definition slice0 (n : nat) (s : string) : string := String.substring 0 n s.

(** [s.replace(pat, rep)] for a pattern that is a string and a replacement
    without [$]: the first occurrence of [pat] is replaced. *)
Fixpoint replace (pat rep s : string) : string :=
  if String.prefix pat s then (rep ++ drop (String.length pat) s)%string
  else match s with
       | EmptyString => EmptyString
       | String c s' => String c (replace pat rep s')
       end.

(** [fmtDate] of the gallery: an absent or empty string gives the empty
    string. *)
Definition fmtDate (s : option string) : string :=
  match s with
  | None => EmptyString
  | Some s =>
    if String.eqb s EmptyString then EmptyString
    else slice0 19 (replace "T" " " s)
  end.

(** The date line of the album page's detail view:
    [captured_at ? captured_at.slice(0, 19).replace("T", " ") : ""]. *)
Definition albumDate (captured_at : option string) : string :=
  match captured_at with
  | None => EmptyString
  | Some s =>
    if String.eqb s EmptyString then EmptyString
    else replace "T" " " (slice0 19 s)
  end.

(** [s] written [k] times. *)
Fixpoint repeatString (k : nat) (s : string) : string :=
  match k with
  | O => EmptyString
  | S k' => (s ++ repeatString k' s)%string
  end.

(** [s.padStart(targetLength, padString)] *)
Definition padStart (targetLength : nat) (padString s : string) : string :=
  let fillLen := (targetLength - String.length s)%nat in
  (slice0 fillLen (repeatString fillLen padString) ++ s)%string.

(** [b.toString(16)] for an element of a [Uint8Array]. *)
Definition toString16 (b : byte) : string :=
  HexadecimalString.NilZero.string_of_uint (N.to_hex_uint (Byte.to_N b)).

(** Line 289 of [sha256Hex]: the digest written in hexadecimal. *)
Definition hexOf (hash : list byte) : string :=
  String.concat EmptyString (map (fun b => padStart 2 "0" (toString16 b)) hash).

(** Reading the digits back, for the statements. *)
Definition hexValue (c : ascii) : option N :=
  let n := N_of_ascii c in
  if (48 <=? n)%N && (n <=? 57)%N then Some (n - 48)%N
  else if (97 <=? n)%N && (n <=? 102)%N then Some (n - 87)%N
  else None.

Definition unhexByte (c1 c2 : ascii) : option byte :=
  match hexValue c1, hexValue c2 with
  | Some h, Some l => Byte.of_N (16 * h + l)
  | _, _ => None
  end.

Fixpoint unhex (s : string) : option (list byte) :=
  match s with
  | EmptyString => Some []
  | String c1 (String c2 s') =>
    match unhexByte c1 c2, unhex s' with
    | Some b, Some l => Some (b :: l)
    | _, _ => None
    end
  | String _ EmptyString => None
  end.

(** ** The tree that a directory walk reads *)

(** The error that a walk of [h] meets first, if any: a file that cannot be
    read, or a directory whose iteration breaks off. *)
Fixpoint failure (h : Handle) : option JsError :=
  match h with
  | FileHandle _ _ => None
  | DirectoryHandle _ entries broken =>
    (fix each (es : list Handle) : option JsError :=
       match es with
       | [] => broken
       | FileHandle _ (Ok _) :: es' => each es'
       | FileHandle _ (Throw e) :: _ => Some e
       | (DirectoryHandle _ _ _ as d) :: es' =>
         match failure d with
         | Some e => Some e
         | None => each es'
         end
       end) entries
  end.

(** The files below [h], depth first, each with the names of the directories
    that lead to it from [h] and its own name, joined by slashes after
    [prefix]. *)
Fixpoint listing (prefix : string) (h : Handle) : list (File * string) :=
  match h with
  | FileHandle _ _ => []
  | DirectoryHandle _ entries _ =>
    flat_map (fun entry =>
      match entry with
      | FileHandle n (Ok file) => [(file, (prefix ++ n)%string)]
      | FileHandle _ (Throw _) => []
      | DirectoryHandle n _ _ => listing (prefix ++ n ++ "/")%string entry
      end) entries
  end.

(** ** Byte counts as shown to the user *)

Module Format.
Import QArith Qround.
Local Open Scope Q_scope.

Definition units : list string := ["B"; "KB"; "MB"; "GB"]%string.

(** A whole number in decimal. *)
Definition decimal (z : Z) : string :=
  DecimalString.NilZero.string_of_int (Z.to_int z).

(** [x.toFixed(d)] for [0 <= x < 10^21]: the closest number with [d]
    decimals, the larger one when two are as close. *)
Definition toFixed (x : Q) (d : nat) : string :=
  let m := Qfloor (x * inject_Z (10 ^ Z.of_nat d) + (1 # 2)) in
  let whole := decimal (m / 10 ^ Z.of_nat d)%Z in
  if Nat.eqb d 0 then whole
  else (whole ++ "." ++ padStart d "0" (decimal (m mod 10 ^ Z.of_nat d)%Z))%string.

(** The loop [while (x >= 1024 && i < units.length - 1) { x /= 1024; i++; }].
    A byte count is a whole number below 2^53, which a double divides by
    1024 without rounding, so [x] is a rational number here. The loop ends
    within [units.length] turns. *)
Fixpoint scale (turns : nat) (x : Q) (i : nat) : Q * nat :=
  match turns with
  | O => (x, i)
  | S turns' =>
    if (Qle_bool 1024 x && Nat.ltb i (List.length units - 1))%bool
    then scale turns' (x / 1024) (S i)
    else (x, i)
  end.

(** [fmtBytes(n)]; [None] is an argument that is [null] or [undefined]. *)
Definition fmtBytes (n : option Z) : string :=
  match n with
  | None => EmptyString
  | Some n =>
    let '(x, i) := scale (List.length units) (inject_Z n) 0 in
    (toFixed x (if Nat.eqb i 0 then 0 else 1) ++ " " ++ nth i units EmptyString)%string
  end.

End Format.

(** ** Doubles that hold whole numbers *)

Module Binary64.

(** The mantissa of 53 digits that stands for [p] and its exponent. *)
Definition mantissa (p : positive) : positive :=
  match (53 - Zpos (SpecFloat.digits2_pos p))%Z with
  | Zpos k => Pos.iter xO p k
  | _ => p
  end.

Definition exponent (p : positive) : Z := (Zpos (SpecFloat.digits2_pos p) - 53)%Z.

(** A mantissa on its way to 53 digits: the exact value is [N / P]; the
    record holds its integer part and, in its two bits, the place of the
    remainder with respect to the half of [P]. *)
Definition located (N P : Z) (mrs : SpecFloat.shr_record) : Prop :=
  exists rho, 0 <= rho < P /\ N = SpecFloat.shr_m mrs * P + rho /\
    SpecFloat.shr_r mrs = (P <=? 2 * rho) /\
    SpecFloat.shr_s mrs = (negb (rho =? 0) && negb (2 * rho =? P))%bool.

End Binary64.

(** ** The rendition of the album page *)

(** [Math.max] and [Math.min] of two doubles: [NaN] if either is, and the
    negative zero below the positive one. *)
Definition Math_max (x y : float) : float :=
  if (PrimFloat.is_nan x || PrimFloat.is_nan y)%bool then PrimFloat.nan
  else if PrimFloat.ltb x y then y
  else if PrimFloat.ltb y x then x
  else if PrimFloat.get_sign x then y else x.

Definition Math_min (x y : float) : float :=
  if (PrimFloat.is_nan x || PrimFloat.is_nan y)%bool then PrimFloat.nan
  else if PrimFloat.ltb x y then x
  else if PrimFloat.ltb y x then y
  else if PrimFloat.get_sign x then x else y.

(** Lines 301-304 of [makePreviewBlob]: the canvas size for a bitmap of
    [width] x [height], computed on doubles. *)
Definition previewSize (maxSide width height : float) : float * float :=
  let scale := Math_min 1%float (PrimFloat.div maxSide (Math_max width height)) in
  let w := Math_max 1%float (Math_round (PrimFloat.mul width scale)) in
  let h := Math_max 1%float (Math_round (PrimFloat.mul height scale)) in
  (w, h).

(** The percentage of the album page's progress bar, lines 368-371. *)
Definition pct (p : Upload.Prog) : float :=
  if Upload.totalBytes p =? 0 then 0%float
  else Math_min 100%float
         (Math_round (PrimFloat.mul (PrimFloat.div (num (Upload.doneBytes p))
                                                   (num (Upload.totalBytes p))) 100%float)).

(** Equality of the values of two doubles, decided. *)
Definition same_double (x y : float) : bool :=
  match FloatOps.Prim2SF x, FloatOps.Prim2SF y with
  | SpecFloat.S754_zero s1, SpecFloat.S754_zero s2 => Bool.eqb s1 s2
  | SpecFloat.S754_infinity s1, SpecFloat.S754_infinity s2 => Bool.eqb s1 s2
  | SpecFloat.S754_nan, SpecFloat.S754_nan => true
  | SpecFloat.S754_finite s1 m1 e1, SpecFloat.S754_finite s2 m2 e2 =>
    (Bool.eqb s1 s2 && Pos.eqb m1 m2 && Z.eqb e1 e2)%bool
  | _, _ => false
  end.

(** The whole numbers from [lo] to [hi]. *)
Fixpoint wholesFrom (n : nat) (lo : Z) : list Z :=
  match n with
  | O => []
  | S n' => lo :: wholesFrom n' (lo + 1)
  end.

Definition wholes (lo hi : Z) : list Z := wholesFrom (Z.to_nat (hi - lo + 1)) lo.

(** ** Creating a local album *)

(** What the handlers take from the JavaScript runtime: [String.prototype.trim]
    (it strips white space and line terminators from both ends),
    [String.prototype.toLowerCase], [String.prototype.localeCompare] (a
    negative number, zero or a positive number), the value of
    [crypto.randomUUID()] and that of [new Date().toISOString()]. *)
Record Runtime := mkRuntime {
  trim : string -> string;
  toLowerCase : string -> string;
  localeCompare : string -> string -> Z;
  randomUUID : string;
  toISOString : string
}.

(** The state of the upload tab: the scan's state, the text of the album
    name field and the selected album. *)
Record UploadTab := mkTab {
  scanState : App;
  albumTitle : string;
  selectedAlbumId : string
}.

(** [albums.find((a) => a.id === selectedAlbumId) || null] *)
Definition selectedAlbum (t : UploadTab) : option LocalAlbum :=
  find (fun a => String.eqb (id a) (selectedAlbumId t)) (albums (scanState t)).

(** Lines 224-242; the result is the new id, or [None] for [null]. *)
Definition createLocalAlbum (R : Runtime) (title : string) (t : UploadTab)
  : option string * UploadTab :=
  let t' := trim R title in
  if String.eqb t' EmptyString then (None, t)
  else
    let id := randomUUID R in
    let alb := mkAlbum id t' (toISOString R) 0 0 0 [] in
    (Some id, mkTab (setAlbums (fun prev => alb :: prev) (scanState t)) (albumTitle t) id).

(** Lines 244-256. *)
Definition createAlbumThenPickFolder (R : Runtime) (B : Browser) (t : UploadTab) : UploadTab :=
  let name := trim R (albumTitle t) in
  if String.eqb name EmptyString then
    mkTab (alert (MessageAlert "Enter album name first.") (scanState t))
          (albumTitle t) (selectedAlbumId t)
  else
    match createLocalAlbum R name t with
    | (None, t) => t
    | (Some id, t) =>
      if String.eqb id EmptyString then t
      else mkTab (scanLocalFolderPhotosOnly B id (scanState t)) EmptyString (selectedAlbumId t)
    end.

(** An ASCII [trim] for the samples. *)
Fixpoint trimStart (s : string) : string :=
  match s with
  | String " " s' => trimStart s'
  | _ => s
  end.

Fixpoint reverse (s : string) : string :=
  match s with
  | EmptyString => EmptyString
  | String c s' => (reverse s' ++ String c EmptyString)%string
  end.

Definition trimSpaces (s : string) : string := reverse (trimStart (reverse (trimStart s))).

(** ** The album page: sharing *)

Module Share.

(** [domain.ts]: [AlbumMember]; [profiles] is absent or null ([None]) or
    carries an email that may be null. *)
Record AlbumMember := mkMember {
  album_id : string;
  user_id : string;
  role : Upload.Role;
  created_at : string;
  profiles : option (option string)
}.

(** What [setMsg] shows: "Only the owner can share.", "Max 3 shared users
    allowed for this album.", the text about an email that has not signed
    up yet, or the message of an error of the backend. *)
Inductive Notice : Type :=
| OnlyOwnerCanShare
| MaxSharedUsers
| ProfileNotFound
| ErrorMessage (text : string).

(** A request sent to the backend. *)
Inductive Call : Type :=
| LookupProfile (email : string)
| InsertMember (album_id user_id : string) (role : Upload.Role)
| SelectMembers (album_id : string)
| DeleteMember (album_id user_id : string).

(** The answers of the backend: the id of the profile with an email
    ([p.data?.id], [None] when it is missing or empty), the [error] of an
    insert and of a delete, and the [data] of the member list. *)
Record Backend := mkBackend {
  profile_id : string -> option string;
  insert_member : string -> string -> Upload.Role -> option JsError;
  select_members : string -> option (list AlbumMember);
  delete_member : string -> string -> option JsError
}.

(** The page state that sharing touches, then the requests sent, oldest
    first. *)
Record Panel := mkPanel {
  albumId : string;
  isOwner : bool;
  members : list AlbumMember;
  shareEmail : string;
  shareRole : Upload.Role;
  msg : option Notice;
  calls : list Call
}.

Definition setMsg (m : option Notice) (s : Panel) : Panel :=
  mkPanel (albumId s) (isOwner s) (members s) (shareEmail s) (shareRole s) m (calls s).

Definition setMembers (f : list AlbumMember -> list AlbumMember) (s : Panel) : Panel :=
  mkPanel (albumId s) (isOwner s) (f (members s)) (shareEmail s) (shareRole s) (msg s) (calls s).

Definition setShareEmail (e : string) (s : Panel) : Panel :=
  mkPanel (albumId s) (isOwner s) (members s) e (shareRole s) (msg s) (calls s).

Definition send (c : Call) (s : Panel) : Panel :=
  mkPanel (albumId s) (isOwner s) (members s) (shareEmail s) (shareRole s) (msg s)
          (calls s ++ [c]).

(** Lines 549-585. *)
Definition shareAdd (R : Runtime) (W : Backend) (s : Panel) : Panel :=
  let s := setMsg None s in
  let email := toLowerCase R (trim R (shareEmail s)) in
  if String.eqb email EmptyString then s
  else if negb (isOwner s) then setMsg (Some OnlyOwnerCanShare) s
  else if (3 <=? List.length (members s))%nat then setMsg (Some MaxSharedUsers) s
  else
    let s := send (LookupProfile email) s in
    match profile_id W email with
    | None => setMsg (Some ProfileNotFound) s
    | Some uid =>
      let s := send (InsertMember (albumId s) uid (shareRole s)) s in
      match insert_member W (albumId s) uid (shareRole s) with
      | Some e => setMsg (Some (ErrorMessage (e_message e))) s
      | None =>
        let s := send (SelectMembers (albumId s)) s in
        let data := match select_members W (albumId s) with
                    | Some l => l
                    | None => []
                    end in
        let s := setMembers (fun _ => data) s in
        setShareEmail EmptyString s
      end
    end.

(** Lines 587-595. *)
Definition revoke (W : Backend) (uid : string) (s : Panel) : Panel :=
  let s := setMsg None s in
  if negb (isOwner s) then s
  else
    let s := send (DeleteMember (albumId s) uid) s in
    match delete_member W (albumId s) uid with
    | Some e => setMsg (Some (ErrorMessage (e_message e))) s
    | None =>
      setMembers (filter (fun m => negb (String.eqb (user_id m) uid))) s
    end.

(** What one call of a handler adds to the requests. *)
Definition sent (s s' : Panel) : list Call := skipn (List.length (calls s)) (calls s').

End Share.

(** ** The gallery of the single-page app *)

Module Gallery.

(** [types.ts]: [PhotoItem]; an optional field that is absent is [None]. *)
Record PhotoItem := mkPhoto {
  sha256 : string;
  file_name : option string;
  relative_path : option string;
  parent_folder : option string;
  captured_at : option string;
  width : option Z;
  height : option Z;
  size_bytes : option Z;
  camera_make : option string;
  camera_model : option string;
  gps_lat : option float;
  gps_lon : option float;
  is_duplicate : option bool;
  duplicate_of : option string;
  preview_file : string
}.

Inductive DupFilter : Type := f_all | f_dup | f_nodup.

Inductive SortMode : Type := date_desc | date_asc | name_asc | name_desc.

(** [safeStr(x)], and [x || ""] for a string that may be absent. *)
Definition safeStr (x : option string) : string :=
  match x with
  | None => EmptyString
  | Some s => s
  end.

(** [x.is_duplicate] as a condition. *)
Definition truthy (b : option bool) : bool :=
  match b with
  | Some true => true
  | _ => false
  end.

(** [hay.includes(needle)] *)
Fixpoint includes (hay needle : string) : bool :=
  (String.prefix needle hay ||
   match hay with
   | EmptyString => false
   | String _ hay' => includes hay' needle
   end)%bool.

(** [array.sort(cmp)] for a comparator that orders the elements
    consistently: the sort is stable, so the result is the one that
    inserting the elements one after the other, each behind the elements
    that are not greater, gives. *)
Fixpoint insert {A : Type} (cmp : A -> A -> Z) (x : A) (l : list A) : list A :=
  match l with
  | [] => [x]
  | y :: l' => if cmp y x <=? 0 then y :: insert cmp x l' else x :: y :: l'
  end.

Definition sort {A : Type} (cmp : A -> A -> Z) (l : list A) : list A :=
  fold_left (fun acc x => insert cmp x acc) l [].

(** [new Set()] filled with [add]: the values in the order in which they
    were first added. *)
Definition set_add (x : string) (s : list string) : list string :=
  if existsb (String.eqb x) s then s else s ++ [x].

(** Lines 160-164. *)
Definition folders (R : Runtime) (all : list PhotoItem) : list string :=
  let s := fold_left (fun s it => set_add (safeStr (parent_folder it)) s) all [] in
  "(all)"%string :: sort (localeCompare R) s.

(** The predicate of the [filter] at lines 169-189, for the lower-cased
    query [qq]. *)
Definition shows (R : Runtime) (qq folder : string) (dup : DupFilter) (x : PhotoItem) : bool :=
  if (negb (String.eqb folder "(all)") &&
      negb (String.eqb (safeStr (parent_folder x)) folder))%bool then false
  else if (match dup with f_dup => true | _ => false end && negb (truthy (is_duplicate x)))%bool
  then false
  else if (match dup with f_nodup => true | _ => false end && truthy (is_duplicate x))%bool
  then false
  else if String.eqb qq EmptyString then true
  else
    let hay := toLowerCase R
      (String.concat " " (map safeStr [file_name x; relative_path x; parent_folder x;
                                       camera_make x; camera_model x])) in
    includes hay qq.

Definition byCaptured (R : Runtime) (a b : PhotoItem) : Z :=
  localeCompare R (safeStr (captured_at a)) (safeStr (captured_at b)).

Definition byName (R : Runtime) (a b : PhotoItem) : Z :=
  localeCompare R (safeStr (file_name a)) (safeStr (file_name b)).

(** [x || y] for numbers that are not [NaN]. *)
Definition orElse (x y : Z) : Z := if x =? 0 then y else x.

(** The comparator of each case of the [switch] at lines 200-213. *)
Definition comparator (R : Runtime) (mode : SortMode) (a b : PhotoItem) : Z :=
  match mode with
  | date_desc => orElse (byCaptured R b a) (byName R a b)
  | date_asc => orElse (byCaptured R a b) (byName R a b)
  | name_asc => byName R a b
  | name_desc => byName R b a
  end.

(** Lines 166-216. *)
Definition filtered (R : Runtime) (all : list PhotoItem) (q folder : string)
  (dup : DupFilter) (mode : SortMode) : list PhotoItem :=
  let qq := toLowerCase R (trim R q) in
  let items := filter (shows R qq folder dup) all in
  sort (comparator R mode) items.

End Gallery.

(** ** Comparators *)

(** A comparator that orders its arguments consistently: swapping the
    arguments swaps the sign, and "not greater" is transitive. *)
Definition consistent {A : Type} (cmp : A -> A -> Z) : Prop :=
  (forall a b, Z.sgn (cmp a b) = - Z.sgn (cmp b a)) /\
  (forall a b c, cmp a b <= 0 -> cmp b c <= 0 -> cmp a c <= 0).

(** Every element of [l] is not greater than the elements behind it. *)
Definition ordered {A : Type} (cmp : A -> A -> Z) (l : list A) : Prop :=
  Sorted.StronglySorted (fun a b => cmp a b <= 0) l.

(** ** The order of the requests of the upload loop *)

(** The place of a request in the turn of a file: look-up, reservation,
    upload, user, insert. *)
Definition step (c : Upload.Call) : nat :=
  match c with
  | Upload.SelectItem _ _ _ => 0
  | Upload.ReserveQuota _ _ => 1
  | Upload.UploadPreview _ _ _ => 2
  | Upload.GetUser _ => 3
  | Upload.InsertItem _ _ => 4
  end.

(** The requests made for the file at position [i]. *)
Definition callsFor (i : nat) (l : list Upload.Call) : list Upload.Call :=
  filter (fun c => Nat.eqb (UploadRun.callIndex c) i) l.

(** ** The rows that the backend returns *)

(** The media items that the backend returned for the inserts among the
    requests [l], in the order of the requests; a refused insert returns
    none. *)
Definition insertedItems (W : Upload.World) (l : list Upload.Call) : list Upload.MediaItem :=
  flat_map (fun c =>
    match c with
    | Upload.InsertItem i row =>
      match Upload.insert_media_item W i row with
      | Ok data => [data]
      | Throw _ => []
      end
    | _ => []
    end) l.

(** ** The album page: loading *)

Module AlbumLoad.

(** The answers to the queries of the effect at lines 373-417: the id of
    the signed-in user, the album ([error] or [data]), the role in the
    user's membership row ([None] when [m.data] is null), and the [data] of
    the item and member lists. *)
Record Backend := mkBackend {
  auth_getUser : option string;
  select_album : string -> JsError + Profile.Album;
  select_membership : string -> string -> option Upload.Role;
  select_items : string -> option (list Upload.MediaItem);
  select_members : string -> option (list Share.AlbumMember)
}.

(** The state of the album page: what the upload handler uses, and the
    album, the owner flag and the members. *)
Record View := mkView {
  page : Upload.Page;
  album : option Profile.Album;
  isOwner : bool;
  members : list Share.AlbumMember
}.

Definition onPage (f : Upload.Page -> Upload.Page) (v : View) : View :=
  mkView (f (page v)) (album v) (isOwner v) (members v).

Definition setMyRole (r : Upload.Role) (s : Upload.Page) : Upload.Page :=
  Upload.mkPage (Upload.albumId s) r (Upload.items s) (Upload.msg s) (Upload.busy s)
                (Upload.prog s) (Upload.calls s) (Upload.progLog s).

Definition orEmpty {A : Type} (data : option (list A)) : list A :=
  match data with
  | Some l => l
  | None => []
  end.

(** The body of the effect, for the album id of the page. *)
Definition load (W : Backend) (v : View) : View :=
  let albumId := Upload.albumId (page v) in
  let v := onPage (Upload.setMsg None) v in
  match auth_getUser W with
  | None => v
  | Some uid =>
    if String.eqb uid EmptyString then v
    else
      match select_album W albumId with
      | inl error => onPage (Upload.setMsg (Some (e_message error))) v
      | inr alb =>
        let owner := String.eqb (Profile.owner_id alb) uid in
        let v := mkView (page v) (Some alb) owner (members v) in
        let v :=
          if owner then onPage (setMyRole Upload.write) v
          else match select_membership W albumId uid with
               | Some r => onPage (setMyRole r) v
               | None => v
               end in
        let v := onPage (Upload.setItems (fun _ => orEmpty (select_items W albumId))) v in
        mkView (page v) (album v) (isOwner v) (orEmpty (select_members W albumId))
      end
  end.

End AlbumLoad.

(** ** More sample inputs *)

Module Sample2.

(** A runtime for ASCII text, whose [localeCompare] orders strings by
    length. *)
Definition runtime : Runtime :=
  mkRuntime trimSpaces lowercase
            (fun a b => Z.of_nat (String.length a) - Z.of_nat (String.length b))
            "7f9c2b1e-uuid" "2026-03-01T09:30:00.000Z".

(** The upload tab with a name typed and nothing selected. *)
Definition tab : UploadTab := mkTab (Sample.start 100) "  Goa 2026 " EmptyString.

(** A backend in which the file at position 0 is in the album already. *)
Definition knownFirst : Upload.World :=
  Upload.mkWorld
    (Upload.arrayBuffer Sample.world) (Upload.sha256Hex Sample.world)
    (fun i _ _ => Nat.eqb i 0)
    (Upload.imageDims Sample.world) (Upload.exifDate Sample.world)
    (Upload.makePreviewBlob Sample.world)
    (fun _ _ => None)
    (Upload.storage_upload Sample.world) (Upload.auth_getUser Sample.world)
    (Upload.insert_media_item Sample.world).

(** The row that the upload of the first sample file inserts. *)
Definition firstRow : Upload.Row :=
  Upload.mkRow "goa" "user-1" "sha-_" "a.jpg" 30 1700000000000 None 3000 2001 "goa/sha-_.jpg".

Definition member (u : string) : Share.AlbumMember :=
  Share.mkMember "goa" u Upload.read "2026-01-03T00:00:00.000Z" None.

(** The share panel of the owner of an album with three members, and a
    backend that knows one more profile. *)
Definition panel : Share.Panel :=
  Share.mkPanel "goa" true [member "u1"; member "u2"; member "u3"] EmptyString Upload.read
                None [].

Definition backend : Share.Backend :=
  Share.mkBackend
    (fun email => if String.eqb email "dee@example.org" then Some "u4"%string else None)
    (fun _ _ _ => None)
    (fun _ => Some [member "u1"; member "u2"; member "u4"])
    (fun _ _ => None).

Definition shot (n folder date : string) (d : bool) : Gallery.PhotoItem :=
  Gallery.mkPhoto n (Some n) None (Some folder) (Some date) None None None None None
                  None None (Some d) None (n ++ ".webp")%string.

Definition shots : list Gallery.PhotoItem :=
  [shot "beach.jpg" "goa" "2026-01-02T10:00:00" false;
   shot "fort.jpg" "goa" "2026-01-01" true;
   shot "forum.jpg" "rome" "2026-02-01T08:00:00Z" false].

(** The album page of a signed-in visitor who neither owns the album nor is
    a member of it. *)
Definition goa : Profile.Album := Profile.mkAlbum "goa" "user-1" "Goa" "2026-01-01T00:00:00.000Z".

Definition visitor : AlbumLoad.Backend :=
  AlbumLoad.mkBackend (Some "user-9"%string) (fun _ => inr goa) (fun _ _ => None)
                      (fun _ => Some []) (fun _ => None).

Definition view : AlbumLoad.View :=
  AlbumLoad.mkView
    (Upload.mkPage "goa" Upload.read [] None false (Upload.mkProg 0 0 0 0) [] [])
    None false [].

End Sample2.

(** * Properties *)

(** ** Arithmetic of the renderer *)








(** ** The renderer *)


(** C8. Two runs of the renderer with the same side bound on files of
    identical content, on browsers with the same decoder, draw on canvases of
    the same size, whatever the files are called and whatever the encoder
    and the quality are. *)
Theorem rendition_dims_deterministic (C1 C2 : Canvas) (M : Z) (f1 f2 : File) :
  (forall data, decode C1 data = decode C2 data) ->
  bytes f1 = bytes f2 ->
  canvasSize C1 M f1 = canvasSize C2 M f2.
Proof.
  intros Hdec Hbytes. unfold canvasSize, createImageBitmap.
  rewrite Hbytes, Hdec. reflexivity.
Qed.

(** ** The loop of the local scan *)

Lemma scanPhoto_ok B n total file v s b :
  makePhotoPreviewBlob (canvas B) file = Ok b ->
  scanPhoto B n total file v s =
  (Ok (turn v file b (objectURL B (List.length (created s)))), afterTurn B n total v file b s).
Proof.
  intros H. unfold scanPhoto. rewrite H. reflexivity.
Qed.

Lemma scanPhoto_throw B n total file v s e :
  makePhotoPreviewBlob (canvas B) file = Throw e ->
  scanPhoto B n total file v s = (Throw e, s).
Proof.
  intros H. unfold scanPhoto. rewrite H. reflexivity.
Qed.

Lemma statsOf_turn n total v file b u :
  statsOf n total (turn v file b u) = turnStats (statsOf n total v) (file, b).
Proof. reflexivity. Qed.

Lemma last_cons {A : Type} (a d : A) (l : list A) : last (a :: l) d = last l a.
Proof.
  revert a d. induction l as [|x l IH]; intros a d; [reflexivity|].
  change (last (a :: x :: l) d) with (last (x :: l) d).
  rewrite (IH x d), (IH x a). reflexivity.
Qed.

(** An induction principle that follows the loop. *)
Lemma scanPhotos_rect B n total
  (P : list (File * string) -> Locals -> App -> result Locals -> App -> Prop) :
  (forall v s, P [] v s (Ok v) s) ->
  (forall file rel rest v s e,
      makePhotoPreviewBlob (canvas B) file = Throw e ->
      P ((file, rel) :: rest) v s (Throw e) s) ->
  (forall file rel rest v s b r s',
      makePhotoPreviewBlob (canvas B) file = Ok b ->
      P rest (turn v file b (objectURL B (List.length (created s))))
        (afterTurn B n total v file b s) r s' ->
      P ((file, rel) :: rest) v s r s') ->
  forall photos v s r s',
    scanPhotos B n total photos v s = (r, s') -> P photos v s r s'.
Proof.
  intros Hnil Hthrow Hok photos.
  induction photos as [|[file rel] rest IH]; intros v s r s' Hrun; cbn [scanPhotos] in Hrun.
  - injection Hrun as <- <-. apply Hnil.
  - destruct (makePhotoPreviewBlob (canvas B) file) as [b|e] eqn:Hb.
    + rewrite (scanPhoto_ok _ _ _ _ _ _ _ Hb) in Hrun.
      eapply Hok; [exact Hb|]. apply IH. exact Hrun.
    + rewrite (scanPhoto_throw _ _ _ _ _ _ _ Hb) in Hrun.
      injection Hrun as <- <-. apply Hthrow. exact Hb.
Qed.

Lemma scanPhotos_frame B n total photos v s r s' :
  scanPhotos B n total photos v s = (r, s') ->
  albums s' = albums s /\ scanRunning s' = scanRunning s /\
  quotaBytes s' = quotaBytes s /\ alerts s' = alerts s /\
  consoleErrors s' = consoleErrors s /\ revoked s' = revoked s.
Proof.
  revert photos v s r s'. apply scanPhotos_rect.
  - intros; repeat split.
  - intros; repeat split.
  - intros file rel rest v s b r s' _ IH. exact IH.
Qed.

Lemma scanPhotos_created B n total photos v s r s' :
  scanPhotos B n total photos v s = (r, s') ->
  created s' = created s ++
    map (objectURL B) (seq (List.length (created s)) (List.length (rendered (canvas B) photos))).
Proof.
  revert photos v s r s'. apply scanPhotos_rect.
  - intros. cbn. now rewrite app_nil_r.
  - intros file rel rest v s e He. cbn [rendered]. rewrite He. cbn. now rewrite app_nil_r.
  - intros file rel rest v s b r s' Hb IH. cbn [rendered]. rewrite Hb.
    rewrite IH. cbn [afterTurn created List.length seq map].
    rewrite <- app_assoc. cbn [app]. rewrite length_app. cbn [List.length].
    replace (List.length (created s) + 1)%nat with (S (List.length (created s))) by lia.
    reflexivity.
Qed.

Lemma scanPhotos_renders B n total photos v s r s' :
  scanPhotos B n total photos v s = (r, s') ->
  renders s' = renders s ++ map shown (loopStats (statsOf n total v) (rendered (canvas B) photos)).
Proof.
  revert photos v s r s'. apply scanPhotos_rect.
  - intros. cbn. now rewrite app_nil_r.
  - intros file rel rest v s e He. cbn [rendered]. rewrite He. cbn. now rewrite app_nil_r.
  - intros file rel rest v s b r s' Hb IH. cbn [rendered]. rewrite Hb.
    rewrite IH. cbn [afterTurn renders loopStats map].
    rewrite <- app_assoc. rewrite statsOf_turn. reflexivity.
Qed.

Lemma scanPhotos_current B n total photos v s r s' :
  scanPhotos B n total photos v s = (r, s') ->
  (scanProgress s', scanStats s') =
  last (map shown (loopStats (statsOf n total v) (rendered (canvas B) photos)))
       (scanProgress s, scanStats s).
Proof.
  revert photos v s r s'. apply scanPhotos_rect.
  - intros. reflexivity.
  - intros file rel rest v s e He. cbn [rendered]. rewrite He. reflexivity.
  - intros file rel rest v s b r s' Hb IH. cbn [rendered]. rewrite Hb.
    rewrite IH. cbn [afterTurn scanProgress scanStats loopStats map].
    rewrite last_cons, statsOf_turn. reflexivity.
Qed.

Lemma scanPhotos_result B n total photos v s r s' :
  scanPhotos B n total photos v s = (r, s') ->
  match r with
  | Ok v' =>
    firstThrow (canvas B) photos = None /\
    statsOf n total v' = last (loopStats (statsOf n total v) (rendered (canvas B) photos))
                              (statsOf n total v) /\
    l_previewUrls v' = l_previewUrls v ++
      previewsOf B (List.length (created s)) (rendered (canvas B) photos)
  | Throw e => firstThrow (canvas B) photos = Some e
  end.
Proof.
  revert photos v s r s'. apply scanPhotos_rect.
  - intros. cbn. now rewrite app_nil_r.
  - intros file rel rest v s e He. cbn [firstThrow]. now rewrite He.
  - intros file rel rest v s b r s' Hb IH. cbn [firstThrow rendered]. rewrite Hb.
    destruct r as [v'|e]; [|exact IH].
    destruct IH as (H1 & H2 & H3). split; [exact H1|]. split.
    + rewrite H2. rewrite statsOf_turn. cbn [loopStats].
      rewrite last_cons. reflexivity.
    + rewrite H3. cbn [turn l_previewUrls afterTurn created previewsOf].
      rewrite <- app_assoc. cbn [app]. rewrite length_app. cbn [List.length].
      replace (List.length (created s) + 1)%nat with (S (List.length (created s))) by lia.
      reflexivity.
Qed.

Lemma size_nonneg (f : File) : 0 <= size f.
Proof. unfold size. lia. Qed.

Lemma sizesOf_cons (f : File) (l : list File) : sizesOf (f :: l) = size f + sizesOf l.
Proof. reflexivity. Qed.

Lemma sizesOf_nonneg (l : list File) : 0 <= sizesOf l.
Proof.
  induction l as [|f l IH]; [now cbn|].
  rewrite sizesOf_cons. pose proof (size_nonneg f). lia.
Qed.

Lemma sizesOf_app (l1 l2 : list File) : sizesOf (l1 ++ l2) = sizesOf l1 + sizesOf l2.
Proof.
  induction l1 as [|f l1 IH]; [reflexivity|].
  cbn [app]. rewrite !sizesOf_cons, IH. lia.
Qed.

Lemma sumSizes_from (photos : list (File * string)) (a : Z) :
  fold_left (fun s x => s + size (fst x)) photos a = a + sizesOf (map fst photos).
Proof.
  revert a. induction photos as [|x photos IH]; intros a; cbn [fold_left map].
  - cbn. lia.
  - rewrite IH, sizesOf_cons. lia.
Qed.

Lemma sumSizes_sizesOf (photos : list (File * string)) :
  sumSizes photos = sizesOf (map fst photos).
Proof. unfold sumSizes. rewrite sumSizes_from. lia. Qed.

Lemma sumSizes_nonneg (photos : list (File * string)) : 0 <= sumSizes photos.
Proof. rewrite sumSizes_sizesOf. apply sizesOf_nonneg. Qed.

(** The rendered photos are a prefix of the batch; the batch is rendered
    entirely exactly when no photo throws. *)
Lemma rendered_prefix C photos :
  match firstThrow C photos with
  | None => map fst (rendered C photos) = map fst photos
  | Some e =>
    exists pre bad post,
      photos = pre ++ bad :: post /\
      map fst (rendered C photos) = map fst pre /\
      firstThrow C pre = None /\
      makePhotoPreviewBlob C (fst bad) = Throw e
  end.
Proof.
  induction photos as [|[file rel] rest IH]; cbn [firstThrow rendered]; [reflexivity|].
  destruct (makePhotoPreviewBlob C file) as [b|e] eqn:Hb.
  - destruct (firstThrow C rest) as [e|].
    + destruct IH as (pre & bad & post & H1 & H2 & H3 & H4).
      exists ((file, rel) :: pre), bad, post. subst rest.
      cbn [map fst app firstThrow]. rewrite Hb, H2. repeat split; assumption.
    + cbn [map fst]. now rewrite IH.
  - exists [], (file, rel), rest. repeat split. exact Hb.
Qed.

Lemma rendered_length C photos :
  (List.length (rendered C photos) <= List.length photos)%nat /\
  (firstThrow C photos = None -> List.length (rendered C photos) = List.length photos) /\
  (firstThrow C photos <> None -> (List.length (rendered C photos) < List.length photos)%nat).
Proof.
  pose proof (rendered_prefix C photos) as H.
  destruct (firstThrow C photos) as [e|].
  - destruct H as (pre & bad & post & H1 & H2 & _ & _).
    apply (f_equal (@List.length _)) in H2. rewrite !length_map in H2.
    subst photos. rewrite length_app. cbn [List.length].
    repeat split; try lia. intros; discriminate.
  - apply (f_equal (@List.length _)) in H. rewrite !length_map in H.
    repeat split; try lia. intros; congruence.
Qed.

Lemma rendered_firstn C photos :
  map fst (rendered C photos) = map fst (firstn (List.length (rendered C photos)) photos).
Proof.
  induction photos as [|[file rel] rest IH]; cbn [rendered]; [reflexivity|].
  destruct (makePhotoPreviewBlob C file); [|reflexivity].
  cbn [List.length firstn map fst]. now rewrite <- IH.
Qed.

(** ** The counters along the loop *)

Lemma loopStats_length st ok : List.length (loopStats st ok) = List.length ok.
Proof.
  revert st. induction ok as [|fb ok IH]; intros st; cbn [loopStats List.length]; [reflexivity|].
  now rewrite IH.
Qed.

Lemma loopStats_nth ok : forall st k st',
  nth_error (loopStats st ok) k = Some st' ->
  totalFiles st' = totalFiles st /\ totalBytes st' = totalBytes st /\
  doneFiles st' = doneFiles st + Z.of_nat (S k) /\
  doneBytes st' = doneBytes st + sizesOf (firstn (S k) (map fst ok)).
Proof.
  induction ok as [|fb ok IH]; intros st k st' H; cbn [loopStats] in H.
  - destruct k; discriminate.
  - destruct k as [|k]; cbn [nth_error] in H.
    + injection H as <-. cbn [turnStats totalFiles totalBytes doneFiles doneBytes
                                 map firstn].
      rewrite sizesOf_cons. cbn [sizesOf fold_right]. lia.
    + apply IH in H. destruct H as (H1 & H2 & H3 & H4).
      rewrite H1, H2, H3, H4.
      cbn [turnStats totalFiles totalBytes doneFiles doneBytes map].
      change (firstn (S (S k)) (fst fb :: map fst ok))
        with (fst fb :: firstn (S k) (map fst ok)).
      rewrite sizesOf_cons. lia.
Qed.

Lemma sizesOf_firstn_le (l : list File) (i j : nat) :
  (i <= j)%nat -> sizesOf (firstn i l) <= sizesOf (firstn j l).
Proof.
  revert i j. induction l as [|f l IH]; intros i j Hij.
  - rewrite !firstn_nil. lia.
  - destruct i as [|i]; cbn [firstn].
    + pose proof (sizesOf_nonneg (firstn j (f :: l))). cbn. lia.
    + destruct j as [|j]; [lia|]. cbn [firstn]. rewrite !sizesOf_cons.
      specialize (IH i j ltac:(lia)). lia.
Qed.

Lemma loopStats_last st ok :
  let st' := last (loopStats st ok) st in
  totalFiles st' = totalFiles st /\ totalBytes st' = totalBytes st /\
  doneFiles st' = doneFiles st + Z.of_nat (List.length ok) /\
  doneBytes st' = doneBytes st + sizesOf (map fst ok) /\
  originalBytes st' = originalBytes st + sizesOf (map fst ok).
Proof.
  cbv zeta. revert st. induction ok as [|fb ok IH]; intros st; cbn [loopStats].
  - cbn. lia.
  - rewrite last_cons.
    destruct (IH (turnStats st fb)) as (H1 & H2 & H3 & H4 & H5).
    rewrite H1, H2, H3, H4, H5.
    cbn [turnStats totalFiles totalBytes doneFiles doneBytes originalBytes
         map List.length].
    rewrite sizesOf_cons. lia.
Qed.

(** Snapshots that start at zero, possibly repeat it, and then follow the
    loop never go down. *)
Lemma nondecreasing_loop (zeros : list ScanStats) st ok :
  Forall (fun z => doneFiles z = 0 /\ doneBytes z = 0) zeros ->
  doneFiles st = 0 -> doneBytes st = 0 ->
  nondecreasing (zeros ++ loopStats st ok).
Proof.
  intros Hz Hf Hb i j a b Hij Ha Hb'.
  assert (Hzero : forall k x, (k < List.length zeros)%nat ->
            nth_error (zeros ++ loopStats st ok) k = Some x ->
            doneFiles x = 0 /\ doneBytes x = 0).
  { intros k x Hk Hx. rewrite nth_error_app1 in Hx by exact Hk.
    rewrite Forall_forall in Hz. apply Hz. eapply nth_error_In; eassumption. }
  assert (Hloop : forall k x, (List.length zeros <= k)%nat ->
            nth_error (zeros ++ loopStats st ok) k = Some x ->
            doneFiles x = Z.of_nat (S (k - List.length zeros)) /\
            doneBytes x = sizesOf (firstn (S (k - List.length zeros)) (map fst ok))).
  { intros k x Hk Hx. rewrite nth_error_app2 in Hx by exact Hk.
    apply loopStats_nth in Hx. lia. }
  destruct (Nat.lt_ge_cases i (List.length zeros)) as [Hi|Hi];
    destruct (Nat.lt_ge_cases j (List.length zeros)) as [Hj|Hj].
  - destruct (Hzero _ _ Hi Ha), (Hzero _ _ Hj Hb'). lia.
  - destruct (Hzero _ _ Hi Ha) as [-> ->], (Hloop _ _ Hj Hb') as [-> ->].
    pose proof (sizesOf_nonneg (firstn (S (j - List.length zeros)) (map fst ok))). lia.
  - lia.
  - destruct (Hloop _ _ Hi Ha) as [-> ->], (Hloop _ _ Hj Hb') as [-> ->].
    pose proof (sizesOf_firstn_le (map fst ok) (S (i - List.length zeros))
                  (S (j - List.length zeros)) ltac:(lia)).
    lia.
Qed.

(** ** The paths through one scan *)

Lemma scan_no_picker B A s :
  hasDirectoryPicker B = false ->
  scanLocalFolderPhotosOnly B A s = setScanRunning false (alert NoPickerAlert (scanProlog A s)).
Proof.
  intros H. unfold scanLocalFolderPhotosOnly, scanTry. rewrite H. reflexivity.
Qed.

Lemma scan_picker_throws B A s e :
  hasDirectoryPicker B = true ->
  showDirectoryPicker B = Throw e ->
  scanLocalFolderPhotosOnly B A s = setScanRunning false (scanCatch e (scanProlog A s)).
Proof.
  intros H1 H2. unfold scanLocalFolderPhotosOnly, scanTry. rewrite H1, H2. reflexivity.
Qed.

Lemma scan_walk_throws B A s h e :
  hasDirectoryPicker B = true ->
  showDirectoryPicker B = Ok h ->
  readDirHandle h = Throw e ->
  scanLocalFolderPhotosOnly B A s = setScanRunning false (scanCatch e (scanProlog A s)).
Proof.
  intros H1 H2 H3. unfold scanLocalFolderPhotosOnly, scanTry. rewrite H1, H2, H3. reflexivity.
Qed.

Lemma scan_over_quota B A s photos :
  picked B = Some photos ->
  quotaBytes s < sumSizes photos ->
  scanLocalFolderPhotosOnly B A s =
  setScanRunning false
    (alert (QuotaExceededAlert (sumSizes photos) (quotaBytes s)) (scanProlog A s)).
Proof.
  intros Hp Hq. unfold picked in Hp. unfold scanLocalFolderPhotosOnly, scanTry.
  destruct (hasDirectoryPicker B); [|discriminate].
  destruct (showDirectoryPicker B) as [h|]; [|discriminate].
  destruct (readDirHandle h) as [items|]; [|discriminate].
  injection Hp as <-. cbn [negb].
  change (quotaBytes (scanProlog A s)) with (quotaBytes s).
  apply Z.ltb_lt in Hq. rewrite Hq. reflexivity.
Qed.

Lemma scan_within_quota B A s photos :
  picked B = Some photos ->
  sumSizes photos <= quotaBytes s ->
  scanLocalFolderPhotosOnly B A s =
  let n := Z.of_nat (List.length photos) in
  match scanPhotos B n (sumSizes photos) photos (mkLocals 0 0 0 0 []) (gated A s photos) with
  | (Ok v, s2) =>
    setScanRunning false
      (setAlbums (map (fun a =>
         if String.eqb (id a) A then
           mkAlbum (id a) (title a) (createdAt a) (l_originalBytes v) (l_previewBytes v)
                   n (l_previewUrls v)
         else a)) s2)
  | (Throw e, s2) => setScanRunning false (scanCatch e s2)
  end.
Proof.
  intros Hp Hq. unfold picked in Hp. unfold scanLocalFolderPhotosOnly, scanTry.
  destruct (hasDirectoryPicker B); [|discriminate].
  destruct (showDirectoryPicker B) as [h|]; [|discriminate].
  destruct (readDirHandle h) as [items|]; [|discriminate].
  injection Hp as <-. cbn [negb].
  change (quotaBytes (scanProlog A s)) with (quotaBytes s).
  apply Z.ltb_ge in Hq. rewrite Hq. cbv zeta.
  fold (gated A s (filter isPhoto items)).
  destruct (scanPhotos B _ _ _ _ _) as [[v|e] s2]; reflexivity.
Qed.

(** The state after a scan whose batch passes the quota check. *)
Lemma scan_in_quota B A s photos :
  picked B = Some photos ->
  sumSizes photos <= quotaBytes s ->
  let s' := scanLocalFolderPhotosOnly B A s in
  let ok := rendered (canvas B) photos in
  renders s' = renders s ++ (0%float, zeroStats) :: (0%float, startStats photos)
                         :: map shown (loopStats (startStats photos) ok) /\
  scanStats s' = last (loopStats (startStats photos) ok) (startStats photos) /\
  created s' = created s ++ map (objectURL B) (seq (List.length (created s)) (List.length ok)) /\
  revoked s' = revoked (scanProlog A s) /\
  quotaBytes s' = quotaBytes s /\
  scanRunning s' = false /\
  match firstThrow (canvas B) photos with
  | None =>
    albums s' = map (stored B A s photos) (albums (scanProlog A s)) /\
    alerts s' = alerts s /\ consoleErrors s' = consoleErrors s
  | Some e =>
    albums s' = albums (scanProlog A s) /\
    alerts s' = alerts s ++ shownFor e /\ consoleErrors s' = consoleErrors s ++ [e]
  end.
Proof.
  intros Hp Hq s' ok. subst s'.
  rewrite (scan_within_quota B A s photos Hp Hq). cbv zeta.
  destruct (scanPhotos B (Z.of_nat (List.length photos)) (sumSizes photos) photos
              (mkLocals 0 0 0 0 []) (gated A s photos)) as [r s2] eqn:Hrun.
  pose proof (scanPhotos_frame _ _ _ _ _ _ _ _ Hrun) as (Fa & Frun & Fq & Fal & Fce & Frev).
  pose proof (scanPhotos_created _ _ _ _ _ _ _ _ Hrun) as Hcr.
  pose proof (scanPhotos_renders _ _ _ _ _ _ _ _ Hrun) as Hre.
  pose proof (scanPhotos_current _ _ _ _ _ _ _ _ Hrun) as Hcur.
  pose proof (scanPhotos_result _ _ _ _ _ _ _ _ Hrun) as Hres.
  change (statsOf (Z.of_nat (List.length photos)) (sumSizes photos) (mkLocals 0 0 0 0 []))
    with (startStats photos) in *.
  change (created (gated A s photos)) with (created s) in *.
  change (renders (gated A s photos))
    with ((renders s ++ [(0%float, zeroStats)]) ++ [(0%float, startStats photos)]) in Hre.
  change (scanStats (gated A s photos)) with (startStats photos) in Hcur.
  change (scanProgress (gated A s photos)) with 0%float in Hcur.
  change (albums (gated A s photos)) with (albums (scanProlog A s)) in Fa.
  change (quotaBytes (gated A s photos)) with (quotaBytes s) in Fq.
  change (alerts (gated A s photos)) with (alerts s) in Fal.
  change (consoleErrors (gated A s photos)) with (consoleErrors s) in Fce.
  change (revoked (gated A s photos)) with (revoked (scanProlog A s)) in Frev.
  fold ok in Hcr, Hre, Hcur, Hres.
  assert (Hst : scanStats s2 = last (loopStats (startStats photos) ok) (startStats photos)).
  { apply (f_equal snd) in Hcur. cbn [snd] in Hcur. rewrite Hcur.
    clear. generalize (startStats photos) at 1 3. generalize (0%float).
    generalize (startStats photos).
    induction ok as [|fb ok IH]; intros st0 p st; [reflexivity|].
    cbn [loopStats map]. rewrite !last_cons. apply IH. }
  assert (Hlog : renders s2 = renders s ++ (0%float, zeroStats) :: (0%float, startStats photos)
                         :: map shown (loopStats (startStats photos) ok)).
  { rewrite Hre, <- !app_assoc. reflexivity. }
  destruct r as [v|e].
  - destruct Hres as (Hnone & Hfin & Hurls). rewrite Hnone.
    setters. repeat split; try assumption.
    rewrite Fa. apply map_ext. intros a. unfold stored. fold ok.
    destruct (String.eqb (id a) A); [|reflexivity].
    rewrite <- Hfin, Hurls. reflexivity.
  - rewrite Hres. unfold shownFor.
    destruct (String.eqb (e_name e) "AbortError") eqn:Hname; setters; rewrite Hname;
      cbn [negb]; setters; rewrite ?app_nil_r; repeat split; try assumption;
      try (rewrite Fal; reflexivity); try (rewrite Fce; reflexivity).
Qed.

Lemma scan_cases B A s :
  idle_end A s (scanLocalFolderPhotosOnly B A s) \/
  exists photos, picked B = Some photos /\ sumSizes photos <= quotaBytes s.
Proof.
  destruct (hasDirectoryPicker B) eqn:H1.
  - destruct (showDirectoryPicker B) as [h|e] eqn:H2.
    + destruct (readDirHandle h) as [items|e] eqn:H3.
      * assert (Hp : picked B = Some (filter isPhoto items)).
        { unfold picked. now rewrite H1, H2, H3. }
        destruct (Z.lt_ge_cases (quotaBytes s) (sumSizes (filter isPhoto items))) as [Hq|Hq].
        -- left. rewrite (scan_over_quota B A s _ Hp Hq). constructor.
        -- right. eauto.
      * left. rewrite (scan_walk_throws B A s h e H1 H2 H3). constructor.
    + left. rewrite (scan_picker_throws B A s e H1 H2). constructor.
  - left. rewrite (scan_no_picker B A s H1). constructor.
Qed.

Lemma idle_end_facts A s s' :
  idle_end A s s' ->
  renders s' = renders s ++ [(0%float, zeroStats)] /\
  scanStats s' = zeroStats /\
  created s' = created s /\
  albums s' = albums (scanProlog A s) /\
  revoked s' = revoked (scanProlog A s) /\
  quotaBytes s' = quotaBytes s /\
  scanRunning s' = false.
Proof.
  intros [a|e].
  - setters. repeat split.
  - setters. destruct (negb (String.eqb (e_name e) "AbortError")); setters; repeat split.
Qed.

Lemma skipn_length_app {A : Type} (l k : list A) : skipn (List.length l) (l ++ k) = k.
Proof. induction l as [|x l IH]; [reflexivity|exact IH]. Qed.

(** The renders of a run: the reset alone, or the reset, the totals of the
    batch and one render after each rendered photo. *)
Lemma scan_runRenders B A s :
  runRenders B A s = [(0%float, zeroStats)] \/
  exists photos,
    picked B = Some photos /\ sumSizes photos <= quotaBytes s /\
    runRenders B A s =
    (0%float, zeroStats) :: (0%float, startStats photos)
      :: map shown (loopStats (startStats photos) (rendered (canvas B) photos)).
Proof.
  unfold runRenders. destruct (scan_cases B A s) as [Hidle|(photos & Hp & Hq)].
  - left. apply idle_end_facts in Hidle. destruct Hidle as (-> & _).
    apply skipn_length_app.
  - right. exists photos. split; [exact Hp|]. split; [exact Hq|].
    destruct (scan_in_quota B A s photos Hp Hq) as (-> & _).
    apply skipn_length_app.
Qed.

(** In every state that follows the prolog, the albums other than the
    scanned one are as before, in their places. *)
Lemma scanProlog_other A s i a :
  nth_error (albums s) i = Some a -> id a <> A ->
  nth_error (albums (scanProlog A s)) i = Some a.
Proof.
  intros Hi Hne. prolog. rewrite nth_error_map, Hi. cbn [option_map].
  apply String.eqb_neq in Hne. now rewrite Hne.
Qed.

Lemma scanProlog_reset A s a :
  In a (albums (scanProlog A s)) -> id a = A -> previewUrls a = [].
Proof.
  prolog. intros Hin Hid. apply in_map_iff in Hin. destruct Hin as (a0 & Ha & _).
  destruct (String.eqb (id a0) A) eqn:E; cbn [negb] in Ha.
  - subst a. reflexivity.
  - subst a. apply String.eqb_neq in E. contradiction.
Qed.

Lemma stored_other B A s photos a : id a <> A -> stored B A s photos a = a.
Proof.
  intros Hne. unfold stored. apply String.eqb_neq in Hne. now rewrite Hne.
Qed.

Lemma scan_albums B A s :
  albums (scanLocalFolderPhotosOnly B A s) = albums (scanProlog A s) \/
  exists photos,
    albums (scanLocalFolderPhotosOnly B A s) =
    map (stored B A s photos) (albums (scanProlog A s)).
Proof.
  destruct (scan_cases B A s) as [Hidle|(photos & Hp & Hq)].
  - left. now apply idle_end_facts in Hidle.
  - pose proof (scan_in_quota B A s photos Hp Hq) as H. cbv zeta in H.
    destruct H as (_ & _ & _ & _ & _ & _ & H).
    destruct (firstThrow (canvas B) photos).
    + left. apply H.
    + right. exists photos. apply H.
Qed.

(** ** Doubles of whole numbers *)

(** The double of a positive whole number is positive: converting rounds the
    number to 53 significant bits, which never reaches zero. *)
Module Doubles.
Import SpecFloat FloatOps FloatAxioms.

Lemma Zdigits2_nonneg m : 0 <= Zdigits2 m.
Proof. destruct m; cbn; lia. Qed.

Lemma Zdigits2_positive m : 0 <= m -> 0 < Zdigits2 m -> 0 < m.
Proof. destruct m; cbn; lia. Qed.

(** One shift to the right takes one binary digit off the mantissa. *)
Lemma shr_1_digits mrs :
  0 <= shr_m mrs ->
  0 <= shr_m (shr_1 mrs) /\
  Zdigits2 (shr_m (shr_1 mrs)) = Z.max 0 (Zdigits2 (shr_m mrs) - 1).
Proof.
  destruct mrs as [m r s]. cbn [shr_m]. intros Hm.
  destruct m as [|[p|p|]|p]; cbn [shr_1 shr_m Zdigits2 digits2_pos];
    rewrite ?Pos2Z.inj_succ; lia.
Qed.

Lemma iter_shr_1_digits k : forall mrs,
  0 <= shr_m mrs ->
  0 <= shr_m (iter_pos shr_1 k mrs) /\
  Zdigits2 (shr_m (iter_pos shr_1 k mrs)) = Z.max 0 (Zdigits2 (shr_m mrs) - Z.pos k).
Proof.
  induction k as [k IH|k IH|]; intros mrs Hm; cbn [iter_pos].
  - destruct (shr_1_digits mrs Hm) as [H1 D1].
    destruct (IH _ H1) as [H2 D2]. destruct (IH _ H2) as [H3 D3].
    split; [exact H3|]. rewrite D3, D2, D1. lia.
  - destruct (IH _ Hm) as [H2 D2]. destruct (IH _ H2) as [H3 D3].
    split; [exact H3|]. rewrite D3, D2. lia.
  - apply shr_1_digits, Hm.
Qed.

Lemma shr_m_of_loc m l : shr_m (shr_record_of_loc m l) = m.
Proof. destruct l as [|[]]; reflexivity. Qed.

(** Above the smallest exponent, aligning a positive mantissa keeps 53 of
    its digits. *)
Lemma shr_fexp_positive m e l :
  0 < m -> emin <= e ->
  0 < shr_m (fst (shr_fexp prec emax m e l)) /\ emin <= snd (shr_fexp prec emax m e l).
Proof.
  intros Hm He. unfold shr_fexp, shr.
  assert (Hd : 0 < Zdigits2 m) by (destruct m; cbn in *; lia).
  destruct (fexp prec emax (Zdigits2 m + e) - e) as [|k|k] eqn:Hn; cbn [fst snd];
    try (rewrite shr_m_of_loc; split; lia).
  destruct (iter_shr_1_digits k (shr_record_of_loc m l)) as [H0 D].
  { rewrite shr_m_of_loc. lia. }
  rewrite shr_m_of_loc in D.
  unfold fexp, SpecFloat.emin, prec, emax in *.
  split; [|lia].
  apply Zdigits2_positive; [exact H0|]. rewrite D. lia.
Qed.

Lemma round_nearest_even_positive m l : 0 < m -> 0 < round_nearest_even m l.
Proof.
  intros Hm. destruct l as [|[]]; cbn; try lia. destruct (Z.even m); lia.
Qed.

Lemma binary_round_aux_positive m e l :
  0 < m -> emin <= e ->
  (exists m' e', binary_round_aux prec emax false m e l = S754_finite false m' e') \/
  binary_round_aux prec emax false m e l = S754_infinity false.
Proof.
  intros Hm He. unfold binary_round_aux.
  destruct (shr_fexp_positive m e l Hm He) as [H1 E1].
  destruct (shr_fexp prec emax m e l) as [mrs' e']. cbn [fst snd] in *.
  pose proof (round_nearest_even_positive _ (loc_of_shr_record mrs') H1) as H2.
  destruct (shr_fexp_positive _ e' loc_Exact H2 E1) as [H3 _].
  destruct (shr_fexp prec emax _ e' loc_Exact) as [mrs'' e'']. cbn [fst snd] in *.
  destruct (shr_m mrs'') as [|q|q]; try lia.
  destruct (e'' <=? emax - prec); [left; eauto|right; reflexivity].
Qed.

Lemma num_positive t :
  0 < t < 2 ^ 63 ->
  (exists m e, Prim2SF (num t) = S754_finite false m e) \/
  Prim2SF (num t) = S754_infinity false.
Proof.
  intros Ht. unfold num. rewrite of_uint63_spec, Uint63.of_Z_spec.
  rewrite Z.mod_small by (change wB with (2 ^ 63); lia).
  destruct t as [|p|p]; try lia.
  unfold binary_normalize, binary_round.
  destruct (shl_align p 0 _) as [mz ez] eqn:Hs.
  apply binary_round_aux_positive; [lia|].
  unfold shl_align in Hs.
  destruct (fexp prec emax (Z.pos (digits2_pos p) + 0) - 0) eqn:Hf;
    injection Hs as <- <-; unfold fexp, SpecFloat.emin, prec, emax in *; lia.
Qed.

(** [0 / t] is [+0] for every positive whole number [t]. *)
Lemma zero_div_num t : 0 < t < 2 ^ 63 -> PrimFloat.div 0%float (num t) = 0%float.
Proof.
  intros Ht. apply Prim2SF_inj. rewrite div_spec.
  change (Prim2SF 0%float) with (S754_zero false).
  destruct (num_positive t Ht) as [(m & e & ->)| ->]; reflexivity.
Qed.

End Doubles.

(** With no byte done the percentage is 0, whatever the total. *)
Lemma scanPct_zero t : 0 <= t < 2 ^ 63 -> scanPct 0 t = 0%float.
Proof.
  intros Ht. unfold scanPct. destruct (t =? 0) eqn:E; [reflexivity|].
  apply Z.eqb_neq in E. change (num 0) with 0%float.
  rewrite Doubles.zero_div_num by lia. reflexivity.
Qed.

(** ** Doubles that hold whole numbers *)

Module Whole.
Import SpecFloat FloatOps FloatAxioms.
Import Binary64.

Lemma digits2_size (p : positive) : digits2_pos p = Pos.size p.
Proof. induction p as [p IH|p IH|]; cbn; now rewrite ?IH. Qed.

Lemma digits_bounds (p : positive) :
  2 ^ (Zpos (digits2_pos p) - 1) <= Zpos p < 2 ^ Zpos (digits2_pos p).
Proof.
  rewrite digits2_size.
  pose proof (Pos.size_gt p) as G. pose proof (Pos.size_le p) as L.
  apply Pos2Z.pos_lt_pos in G. apply Pos2Z.pos_le_pos in L.
  rewrite Pos2Z.inj_pow in G, L. rewrite (Pos2Z.inj_xO p) in L.
  split; [|exact G].
  assert (E : 2 ^ Zpos (Pos.size p) = 2 * 2 ^ (Zpos (Pos.size p) - 1)).
  { rewrite <- Z.pow_succ_r by lia. f_equal. lia. }
  lia.
Qed.

Lemma digits_le_53 (p : positive) : Zpos p < 2 ^ 53 -> Zpos (digits2_pos p) <= 53.
Proof.
  intros Hp. pose proof (digits_bounds p) as [Hlo _].
  destruct (Z.le_gt_cases (Zpos (digits2_pos p)) 53) as [H|H]; [exact H|].
  assert (2 ^ 53 <= 2 ^ (Zpos (digits2_pos p) - 1)) by (apply Z.pow_le_mono_r; lia). lia.
Qed.

Lemma iter_xO_digits (k p : positive) :
  digits2_pos (Pos.iter xO p k) = (digits2_pos p + k)%positive.
Proof.
  induction k as [|k IH] using Pos.peano_ind.
  - cbn. lia.
  - rewrite Pos.iter_succ. cbn [digits2_pos]. rewrite IH. lia.
Qed.

Lemma iter_xO_value (k p : positive) : Zpos (Pos.iter xO p k) = Zpos p * 2 ^ Zpos k.
Proof.
  induction k as [|k IH] using Pos.peano_ind.
  - cbn. lia.
  - rewrite Pos.iter_succ, Pos2Z.inj_xO, IH, Pos2Z.inj_succ, Z.pow_succ_r by lia. lia.
Qed.

Lemma mantissa_digits (p : positive) :
  Zpos p < 2 ^ 53 -> Zpos (digits2_pos (mantissa p)) = 53.
Proof.
  intros Hp. pose proof (digits_le_53 p Hp) as Hd.
  unfold mantissa. destruct (53 - Zpos (digits2_pos p)) as [|k|k] eqn:E; try lia.
  rewrite iter_xO_digits. lia.
Qed.

Lemma mantissa_value (p : positive) :
  Zpos p < 2 ^ 53 ->
  Zpos (mantissa p) = Zpos p * 2 ^ (53 - Zpos (digits2_pos p)).
Proof.
  intros Hp. pose proof (mantissa_digits p Hp) as Hm. unfold mantissa in *.
  destruct (53 - Zpos (digits2_pos p)) as [|k|k] eqn:E.
  - cbn. lia.
  - apply iter_xO_value.
  - lia.
Qed.

(** A whole number below 2^53 is held exactly. *)
Lemma num_exact (p : positive) :
  Zpos p < 2 ^ 53 ->
  Prim2SF (num (Zpos p)) = S754_finite false (mantissa p) (exponent p).
Proof.
  intros Hp. pose proof (mantissa_digits p Hp) as Hm.
  pose proof (digits_le_53 p Hp) as Hd.
  unfold num. rewrite of_uint63_spec, Uint63.of_Z_spec.
  rewrite Z.mod_small by (change wB with (2 ^ 63); lia).
  unfold binary_normalize, binary_round.
  assert (Hs : shl_align p 0 (fexp prec emax (Zpos (digits2_pos p) + 0)) =
               (mantissa p, exponent p)).
  { unfold shl_align, mantissa, exponent.
    assert (F : fexp prec emax (Z.pos (digits2_pos p) + 0) = Z.pos (digits2_pos p) - 53).
    { unfold fexp, SpecFloat.emin, prec, emax. lia. }
    rewrite F, Z.sub_0_r.
    destruct (Z.pos (digits2_pos p) - 53) as [|k|k] eqn:E.
    - replace (53 - Z.pos (digits2_pos p)) with 0 by lia. reflexivity.
    - exfalso. lia.
    - replace (53 - Z.pos (digits2_pos p)) with (Zpos k) by lia. reflexivity. }
  rewrite Hs. unfold binary_round_aux, shr_fexp.
  assert (Hf : forall m, Zpos (digits2_pos m) = 53 ->
            fexp prec emax (Zdigits2 (Zpos m) + exponent p) - exponent p = 0).
  { intros m Hdm. unfold fexp, SpecFloat.emin, prec, emax, exponent. cbn [Zdigits2].
    rewrite Hdm. lia. }
  rewrite (Hf _ Hm). cbn [shr shr_record_of_loc shr_m loc_of_shr_record round_nearest_even].
  rewrite (Hf _ Hm). cbn [shr shr_record_of_loc shr_m].
  destruct (exponent p <=? emax - prec) eqn:E; [reflexivity|].
  apply Z.leb_gt in E. unfold exponent, emax, prec in E. lia.
Qed.

(** A finite number divided by itself is 1. *)
Lemma div_self (x : float) (m : positive) (e : Z) :
  Prim2SF x = S754_finite false m e -> PrimFloat.div x x = 1%float.
Proof.
  intros Hx. apply Prim2SF_inj. rewrite div_spec, Hx.
  unfold SF64div, SFdiv, SFdiv_core_binary.
  replace (Zdigits2 (Z.pos m) + e - (Zdigits2 (Z.pos m) + e)) with 0 by lia.
  rewrite Z.sub_diag.
  change (Z.min (fexp prec emax 0) 0) with (-53).
  change (0 - -53) with 53.
  assert (D : Z.div_eucl (Z.shiftl (Z.pos m) 53) (Z.pos m) = (2 ^ 53, 0)).
  { rewrite Z.shiftl_mul_pow2 by lia.
    pose proof (Z.div_mul (2 ^ 53) (Z.pos m) ltac:(lia)) as Q.
    pose proof (Z.mod_mul (2 ^ 53) (Z.pos m) ltac:(lia)) as R.
    unfold Z.div, Z.modulo in Q, R. rewrite (Z.mul_comm (Z.pos m)).
    destruct (Z.div_eucl (2 ^ 53 * Z.pos m) (Z.pos m)) as [q r]. now subst. }
  change (IntDef.Z.div_eucl _ (Z.pos m))
    with (Z.div_eucl (Z.shiftl (Z.pos m) 53) (Z.pos m)).
  rewrite D.
  assert (L : new_location (Z.pos m) 0 = loc_Exact).
  { unfold new_location, new_location_even, new_location_odd.
    now destruct (Z.even (Z.pos m)). }
  rewrite L. reflexivity.
Qed.

Lemma num_div_self (t : Z) : 0 < t < 2 ^ 53 -> PrimFloat.div (num t) (num t) = 1%float.
Proof.
  intros Ht. destruct t as [|p|p]; try lia.
  eapply div_self. apply num_exact. lia.
Qed.

(** Doubles of whole numbers compare as the numbers do. *)
Lemma num_compare (p q : positive) :
  Zpos p < 2 ^ 53 -> Zpos q < 2 ^ 53 ->
  SFcompare (Prim2SF (num (Zpos p))) (Prim2SF (num (Zpos q))) = Some (Pos.compare p q).
Proof.
  intros Hp Hq. rewrite !num_exact by assumption. cbn [SFcompare]. f_equal.
  pose proof (digits_bounds p) as [Lp Up]. pose proof (digits_bounds q) as [Lq Uq].
  pose proof (mantissa_value p Hp) as Vp. pose proof (mantissa_value q Hq) as Vq.
  pose proof (digits_le_53 p Hp) as Dp. pose proof (digits_le_53 q Hq) as Dq.
  unfold exponent.
  destruct (Z.compare_spec (Zpos (digits2_pos p) - 53) (Zpos (digits2_pos q) - 53)) as [E|E|E].
  - change (Pos.compare_cont Eq (mantissa p) (mantissa q))
      with (Pos.compare (mantissa p) (mantissa q)).
    rewrite !Pos2Z.inj_compare, Vp, Vq.
    replace (Zpos (digits2_pos p)) with (Zpos (digits2_pos q)) by lia.
    assert (Hc : 0 < 2 ^ (53 - Z.pos (digits2_pos q))) by (apply Z.pow_pos_nonneg; lia).
    revert Hc. generalize (2 ^ (53 - Z.pos (digits2_pos q))). intros c Hc.
    destruct (Z.compare_spec (Zpos p * c) (Zpos q * c));
      destruct (Z.compare_spec (Zpos p) (Zpos q)); try reflexivity; nia.
  - symmetry. apply Pos.compare_lt_iff. apply Pos2Z.pos_lt_pos.
    assert (2 ^ Zpos (digits2_pos p) <= 2 ^ (Zpos (digits2_pos q) - 1))
      by (apply Z.pow_le_mono_r; lia). lia.
  - symmetry. apply Pos.compare_gt_iff. apply Pos2Z.pos_lt_pos.
    assert (2 ^ Zpos (digits2_pos q) <= 2 ^ (Zpos (digits2_pos p) - 1))
      by (apply Z.pow_le_mono_r; lia). lia.
Qed.

Lemma num_ltb (a b : Z) :
  0 < a < 2 ^ 53 -> 0 < b < 2 ^ 53 -> PrimFloat.ltb (num a) (num b) = (a <? b).
Proof.
  intros Ha Hb. destruct a as [|p|p]; try lia. destruct b as [|q|q]; try lia.
  rewrite ltb_spec. unfold SFltb. rewrite num_compare by lia.
  unfold Z.ltb. cbn [Z.compare]. reflexivity.
Qed.

Lemma num_not_nan (a : Z) : 0 < a < 2 ^ 53 -> PrimFloat.is_nan (num a) = false.
Proof.
  intros Ha. destruct a as [|p|p]; try lia.
  unfold PrimFloat.is_nan. rewrite eqb_spec. unfold SFeqb.
  rewrite num_compare by lia. now rewrite Pos.compare_refl.
Qed.

End Whole.

(** ** Checking a range of whole numbers *)

Lemma same_double_eq (x y : float) : same_double x y = true -> x = y.
Proof.
  unfold same_double. intros H. apply FloatAxioms.Prim2SF_inj.
  destruct (FloatOps.Prim2SF x) as [s1|s1| |s1 m1 e1],
           (FloatOps.Prim2SF y) as [s2|s2| |s2 m2 e2]; try discriminate.
  - apply Bool.eqb_prop in H. now subst.
  - apply Bool.eqb_prop in H. now subst.
  - reflexivity.
  - apply andb_true_iff in H. destruct H as [H He]. apply andb_true_iff in H.
    destruct H as [Hs Hm]. apply Bool.eqb_prop in Hs. apply Pos.eqb_eq in Hm.
    apply Z.eqb_eq in He. now subst.
Qed.

Lemma wholesFrom_In (n : nat) : forall lo z,
  lo <= z < lo + Z.of_nat n -> In z (wholesFrom n lo).
Proof.
  induction n as [|n IH]; intros lo z H; [lia|]. cbn [wholesFrom].
  destruct (Z.eq_dec lo z) as [->|Hne]; [now left|].
  right. apply IH. lia.
Qed.

Lemma wholes_In (lo hi z : Z) : lo <= z <= hi -> In z (wholes lo hi).
Proof. intros H. apply wholesFrom_In. lia. Qed.

(** A property of doubles checked on every whole number of a range. *)
Lemma checked (f g : Z -> float) (lo hi : Z) :
  forallb (fun z => same_double (f z) (g z)) (wholes lo hi) = true ->
  forall z, lo <= z <= hi -> f z = g z.
Proof.
  intros H z Hz. apply same_double_eq.
  rewrite forallb_forall in H. apply H, wholes_In, Hz.
Qed.

(** ** Rounding to 53 bits *)

(** The operations on doubles, followed through their specification: each
    result is the exact value cut to 53 binary digits and rounded to the
    nearest, which bounds how far [doneBytes / totalBytes * 100] is from the
    exact ratio and tells what [Math.round] makes of it. *)
Module Rounding.
Import SpecFloat FloatOps FloatAxioms.
Import Binary64.

(** The number of binary digits of a positive number. *)
Lemma digits_unique (p : positive) (n : Z) :
  2 ^ (n - 1) <= Zpos p < 2 ^ n -> Zpos (digits2_pos p) = n.
Proof.
  intros [Hlo Hhi]. pose proof (Whole.digits_bounds p) as [Dlo Dhi].
  destruct (Z.lt_trichotomy (Zpos (digits2_pos p)) n) as [H|[H|H]]; [|exact H|].
  - assert (2 ^ Zpos (digits2_pos p) <= 2 ^ (n - 1)) by (apply Z.pow_le_mono_r; lia). lia.
  - assert (2 ^ n <= 2 ^ (Zpos (digits2_pos p) - 1)) by (apply Z.pow_le_mono_r; lia). lia.
Qed.

Lemma digits_53 (m : Z) : 0 <= m -> Zdigits2 m = 53 -> 2 ^ 52 <= m < 2 ^ 53.
Proof.
  intros Hm Hd. destruct m as [|p|p]; try (cbn in *; lia).
  cbn [Zdigits2] in Hd. pose proof (Whole.digits_bounds p) as B. rewrite Hd in B.
  exact B.
Qed.

(** A whole mantissa is its own exact value. *)
Lemma located_exact (M : Z) : located M 1 (shr_record_of_loc M loc_Exact).
Proof. exists 0. cbn. repeat split; lia. Qed.

(** One shift to the right halves the unit. *)
Lemma shr_1_located (N P : Z) (mrs : shr_record) :
  0 < P -> 0 <= shr_m mrs -> located N P mrs -> located N (P * 2) (shr_1 mrs).
Proof.
  intros HP Hm (rho & Hrho & HM & Hr & Hs). unfold located.
  destruct mrs as [m r s]. cbn [shr_m shr_r shr_s] in *.
  assert (Hrs : (r || s)%bool = negb (rho =? 0)).
  { subst r s. destruct (Z.leb_spec P (2 * rho)), (Z.eqb_spec rho 0),
      (Z.eqb_spec (2 * rho) P); cbn; try reflexivity; lia. }
  assert (Hodd : forall q, N = (2 * q + 1) * P + rho ->
            exists rho', 0 <= rho' < P * 2 /\ N = q * (P * 2) + rho' /\
              true = (P * 2 <=? 2 * rho') /\
              negb (rho =? 0) = (negb (rho' =? 0) && negb (2 * rho' =? P * 2))%bool).
  { intros q Hq. exists (P + rho). split; [lia|split; [lia|split]].
    - symmetry. apply Z.leb_le. lia.
    - destruct (Z.eqb_spec rho 0), (Z.eqb_spec (P + rho) 0),
        (Z.eqb_spec (2 * (P + rho)) (P * 2)); cbn; try reflexivity; lia. }
  assert (Heven : forall q, N = (2 * q) * P + rho ->
            exists rho', 0 <= rho' < P * 2 /\ N = q * (P * 2) + rho' /\
              false = (P * 2 <=? 2 * rho') /\
              negb (rho =? 0) = (negb (rho' =? 0) && negb (2 * rho' =? P * 2))%bool).
  { intros q Hq. exists rho. split; [lia|split; [lia|split]].
    - symmetry. apply Z.leb_gt. lia.
    - destruct (Z.eqb_spec rho 0), (Z.eqb_spec (2 * rho) (P * 2)); cbn; try reflexivity; lia. }
  destruct m as [|[p|p|]|p]; try lia; cbn [shr_1 shr_m shr_r shr_s]; rewrite Hrs.
  - apply (Heven 0). lia.
  - apply (Hodd (Zpos p)). lia.
  - apply (Heven (Zpos p)). lia.
  - apply (Hodd 0). lia.
Qed.

(** Shifting keeps the mantissa non-negative. *)
Lemma shr_1_nonneg (mrs : shr_record) : 0 <= shr_m mrs -> 0 <= shr_m (shr_1 mrs).
Proof. intros H. apply (Doubles.shr_1_digits mrs H). Qed.

(** [p] shifts to the right divide the unit by [2^p]. *)
Lemma iter_shr_1_located (N : Z) (p : positive) : forall P mrs,
  0 < P -> 0 <= shr_m mrs -> located N P mrs ->
  located N (P * 2 ^ Zpos p) (iter_pos shr_1 p mrs).
Proof.
  induction p as [p IH|p IH|]; intros P mrs HP Hm H; cbn [iter_pos].
  - replace (P * 2 ^ Zpos p~1) with (((P * 2) * 2 ^ Zpos p) * 2 ^ Zpos p).
    2:{ replace (Zpos p~1) with (1 + Zpos p + Zpos p) by lia.
        rewrite !Z.pow_add_r, Z.pow_1_r by lia. ring. }
    assert (0 < 2 ^ Zpos p) by (apply Z.pow_pos_nonneg; lia).
    apply IH; [nia|apply Doubles.iter_shr_1_digits, shr_1_nonneg, Hm|].
    apply IH; [lia|apply shr_1_nonneg, Hm|]. now apply shr_1_located.
  - replace (P * 2 ^ Zpos p~0) with ((P * 2 ^ Zpos p) * 2 ^ Zpos p).
    2:{ replace (Zpos p~0) with (Zpos p + Zpos p) by lia.
        rewrite Z.pow_add_r by lia. ring. }
    assert (0 < 2 ^ Zpos p) by (apply Z.pow_pos_nonneg; lia).
    apply IH; [nia|apply Doubles.iter_shr_1_digits, Hm|]. now apply IH.
  - rewrite Z.pow_1_r. now apply shr_1_located.
Qed.

(** Rounding the integer part to the nearest, a tie to the even one, is
    within half a unit of the exact value, and exact when that is whole. *)
Lemma located_round (N P : Z) (mrs : shr_record) :
  0 < P -> located N P mrs ->
  let m1 := round_nearest_even (shr_m mrs) (loc_of_shr_record mrs) in
  shr_m mrs <= m1 <= shr_m mrs + 1 /\
  2 * Z.abs (m1 * P - N) <= P /\
  (N mod P = 0 -> m1 * P = N).
Proof.
  intros HP (rho & Hrho & HM & Hr & Hs). cbv zeta.
  destruct mrs as [m r s]. cbn [shr_m shr_r shr_s] in *.
  assert (Hmod : N mod P = rho).
  { rewrite HM, Z.add_comm, Z.mod_add by lia. apply Z.mod_small. lia. }
  rewrite Hmod. clear Hmod.
  destruct (Z.leb_spec P (2 * rho)), (Z.eqb_spec rho 0), (Z.eqb_spec (2 * rho) P);
    subst r s; cbn [negb andb loc_of_shr_record round_nearest_even];
    try destruct (Z.even m); nia.
Qed.

(** The exponent of a normal number of magnitude [2^x]. *)
Lemma fexp_normal (x : Z) : -1074 <= x - 53 -> fexp prec emax x = x - 53.
Proof. unfold fexp, SpecFloat.emin, prec, emax. lia. Qed.

(** The core of every operation: a positive mantissa of at least 53 digits
    whose exact value is [N / P] is cut to 53 digits, rounded to the
    nearest, and renormalised when the rounding carries into a 54th digit. *)
Lemma round_spec (N P M e : Z) (l : location) :
  0 < P -> 0 < M -> 53 <= Zdigits2 M ->
  -1074 <= Zdigits2 M + e - 53 < 971 ->
  located N P (shr_record_of_loc M l) ->
  exists m1 : positive,
    let k := Zdigits2 M - 53 in
    2 ^ 52 <= Zpos m1 <= 2 ^ 53 /\
    2 * Z.abs (Zpos m1 * (P * 2 ^ k) - N) <= P * 2 ^ k /\
    (N mod (P * 2 ^ k) = 0 -> Zpos m1 * (P * 2 ^ k) = N) /\
    binary_round_aux prec emax false M e l =
      if Zpos m1 <? 2 ^ 53 then S754_finite false m1 (e + k)
      else S754_finite false 4503599627370496 (e + k + 1).
Proof.
  intros HP HM HD He Hloc. cbv zeta.
  unfold binary_round_aux, shr_fexp.
  rewrite fexp_normal by lia.
  replace (Zdigits2 M + e - 53 - e) with (Zdigits2 M - 53) by lia.
  set (k := Zdigits2 M - 53) in *.
  assert (Hfirst : exists mrs,
            shr (shr_record_of_loc M l) e k = (mrs, e + k) /\
            located N (P * 2 ^ k) mrs /\ 0 <= shr_m mrs /\ Zdigits2 (shr_m mrs) = 53).
  { destruct k as [|pk|pk] eqn:Hk; try lia.
    - exists (shr_record_of_loc M l). rewrite Z.add_0_r, Z.mul_1_r, Doubles.shr_m_of_loc.
      repeat split; [exact Hloc|lia|lia].
    - exists (iter_pos shr_1 pk (shr_record_of_loc M l)). split; [reflexivity|].
      destruct (Doubles.iter_shr_1_digits pk (shr_record_of_loc M l)) as [Hnn Hdig];
        [rewrite Doubles.shr_m_of_loc; lia|].
      rewrite Doubles.shr_m_of_loc in Hdig.
      split; [|split; [exact Hnn|lia]].
      apply iter_shr_1_located; [exact HP|rewrite Doubles.shr_m_of_loc; lia|exact Hloc]. }
  destruct Hfirst as (mrs & -> & Hsh & Hnn & Hdig).
  assert (Hk : 0 <= k) by lia.
  assert (HPk : 0 < P * 2 ^ k) by (apply Z.mul_pos_pos; [lia|apply Z.pow_pos_nonneg; lia]).
  assert (HB : 2 ^ 52 <= shr_m mrs < 2 ^ 53) by (apply digits_53; lia).
  destruct (located_round N (P * 2 ^ k) mrs HPk Hsh) as (Hm1 & Herr & Hex).
  set (m1 := round_nearest_even (shr_m mrs) (loc_of_shr_record mrs)) in *.
  destruct (Z.eq_dec m1 (2 ^ 53)) as [E|E].
  - rewrite E in *.
    change (Zdigits2 (2 ^ 53)) with 54.
    rewrite fexp_normal by lia.
    replace (54 + (e + k) - 53 - (e + k)) with 1 by lia.
    cbn [shr iter_pos]. change (shr_1 (shr_record_of_loc (2 ^ 53) loc_Exact))
      with (Build_shr_record 4503599627370496 false false).
    cbn [shr_m].
    replace (e + k + 1 <=? emax - prec) with true
      by (symmetry; apply Z.leb_le; unfold emax, prec; lia).
    exists 9007199254740992%positive.
    change (Zpos 9007199254740992) with (2 ^ 53).
    split; [lia|]. split; [exact Herr|]. split; [exact Hex|].
    now rewrite Z.ltb_irrefl.
  - destruct m1 as [|p1|p1] eqn:Em1; try lia.
    assert (Hd1 : Zdigits2 (Zpos p1) = 53) by (apply digits_unique; lia).
    rewrite Hd1, fexp_normal by lia.
    replace (53 + (e + k) - 53 - (e + k)) with 0 by lia.
    cbn [shr shr_record_of_loc shr_m].
    replace (e + k <=? emax - prec) with true
      by (symmetry; apply Z.leb_le; unfold emax, prec; lia).
    exists p1. split; [lia|]. split; [exact Herr|]. split; [exact Hex|].
    replace (Zpos p1 <? 2 ^ 53) with true by (symmetry; apply Z.ltb_lt; lia).
    reflexivity.
Qed.

(** Where the remainder [r] of a division by [b] lies. *)
Lemma new_location_eq (b r : Z) :
  new_location b r =
  if r =? 0 then loc_Exact
  else if Z.even b then loc_Inexact (2 * r ?= b)
       else loc_Inexact match 2 * r + 1 ?= b with Gt => Gt | _ => Lt end.
Proof.
  unfold new_location, new_location_even, new_location_odd.
  change (IntDef.Z.eqb r 0) with (r =? 0).
  now destruct (Z.even b), (r =? 0).
Qed.

(** The location that a division hands to the rounding. *)
Lemma new_location_located (q b r : Z) :
  0 < b -> 0 <= r < b ->
  located (q * b + r) b (shr_record_of_loc q (new_location b r)).
Proof.
  intros Hb Hr. exists r. rewrite Doubles.shr_m_of_loc.
  split; [exact Hr|]. split; [reflexivity|].
  rewrite new_location_eq.
  destruct (Z.eqb_spec r 0) as [->|Hne].
  - cbn [shr_record_of_loc shr_r shr_s]; cbn;
      split; try reflexivity; symmetry; apply Z.leb_gt; lia.
  - destruct (Z.even b) eqn:Eb.
    + destruct (Z.compare_spec (2 * r) b) as [E|E|E];
        cbn [shr_record_of_loc shr_r shr_s];
        destruct (Z.leb_spec b (2 * r)), (Z.eqb_spec (2 * r) b); cbn; try (split; reflexivity);
        lia.
    + assert (Hodd : b mod 2 = 1).
      { rewrite Zeven_mod in Eb. apply Z.eqb_neq in Eb.
        pose proof (Z.mod_pos_bound b 2 ltac:(lia)). lia. }
      assert (Hne2 : 2 * r <> b).
      { intros E. rewrite <- E in Hodd.
        rewrite Z.mul_comm, Z.mod_mul in Hodd by lia. lia. }
      destruct (Z.compare_spec (2 * r + 1) b) as [E|E|E];
        cbn [shr_record_of_loc shr_r shr_s];
        destruct (Z.leb_spec b (2 * r)), (Z.eqb_spec (2 * r) b); cbn; try (split; reflexivity);
        lia.
Qed.

(** The quotient of two doubles with full mantissas [a * 2^e1] and
    [b * 2^e2]: the mantissa [m] of the result is within half a unit of
    [a * 2^53 / (b * 2^j)], where [j] tells how far the exponent of the
    result is above [e1 - e2 - 53]. *)
Lemma div_canonical (a b : positive) (e1 e2 : Z) :
  Zpos (digits2_pos a) = 53 -> Zpos (digits2_pos b) = 53 ->
  -400 <= e1 <= 400 -> -400 <= e2 <= 400 ->
  exists (m : positive) (j : Z),
    0 <= j <= 2 /\ 2 ^ 52 <= Zpos m < 2 ^ 53 /\
    2 * Z.abs (Zpos m * (Zpos b * 2 ^ j) - Zpos a * 2 ^ 53) <= Zpos b * 2 ^ j /\
    SFdiv prec emax (S754_finite false a e1) (S754_finite false b e2) =
      S754_finite false m (e1 - e2 - 53 + j).
Proof.
  intros Ha Hb He1 He2.
  pose proof (Whole.digits_bounds a) as Ba. rewrite Ha in Ba.
  pose proof (Whole.digits_bounds b) as Bb. rewrite Hb in Bb.
  unfold SFdiv, SFdiv_core_binary. cbn [Zdigits2 xorb]. rewrite Ha, Hb.
  replace (53 + e1 - (53 + e2)) with (e1 - e2) by lia.
  replace (Z.min (fexp prec emax (e1 - e2)) (e1 - e2)) with (e1 - e2 - 53)
    by (unfold fexp, SpecFloat.emin, prec, emax; lia).
  replace (e1 - e2 - (e1 - e2 - 53)) with 53 by lia.
  change (IntDef.Z.div_eucl (Z.shiftl (Zpos a) 53) (Zpos b))
    with (Z.div_eucl (Z.shiftl (Zpos a) 53) (Zpos b)).
  rewrite Z.shiftl_mul_pow2 by lia.
  pose proof (Z.div_eucl_eq (Zpos a * 2 ^ 53) (Zpos b) ltac:(lia)) as Heq.
  pose proof (Z.mod_pos_bound (Zpos a * 2 ^ 53) (Zpos b) ltac:(lia)) as Hr.
  unfold Z.modulo in Hr.
  destruct (Z.div_eucl (Zpos a * 2 ^ 53) (Zpos b)) as [q r].
  assert (Hq : 2 ^ 52 <= q < 2 ^ 54) by nia.
  destruct q as [|pq|pq]; try lia.
  assert (Hdq : Zpos (digits2_pos pq) = 53 \/ Zpos (digits2_pos pq) = 54).
  { destruct (Z.lt_ge_cases (Zpos pq) (2 ^ 53)).
    - left. apply digits_unique. lia.
    - right. apply digits_unique. lia. }
  destruct (round_spec (Zpos a * 2 ^ 53) (Zpos b) (Zpos pq) (e1 - e2 - 53)
              (new_location (Zpos b) r)) as (m1 & Hm1 & Herr & _ & ->);
    [lia|lia|cbn [Zdigits2]; lia|cbn [Zdigits2]; lia| |].
  { rewrite Heq, (Z.mul_comm (Zpos b)). apply new_location_located; lia. }
  cbn [Zdigits2] in *.
  assert (Hk : 0 <= Zpos (digits2_pos pq) - 53 <= 1) by lia.
  revert Herr. generalize (Zpos (digits2_pos pq) - 53) Hk. intros k Hk' Herr.
  destruct (Z.ltb_spec (Zpos m1) (2 ^ 53)) as [Hlt|Hge].
  - exists m1, k. repeat split; try lia.
  - assert (E : Zpos m1 = 2 ^ 53) by lia.
    exists 4503599627370496%positive, (k + 1).
    rewrite E in Herr. change (Zpos 4503599627370496) with (2 ^ 52).
    split; [lia|]. split; [lia|]. split; [|f_equal; lia].
    rewrite Z.pow_add_r, Z.pow_1_r by lia.
    replace (2 ^ 52 * (Zpos b * (2 ^ k * 2))) with (2 ^ 53 * (Zpos b * 2 ^ k))
      by (change (2 ^ 53) with (2 ^ 52 * 2); ring).
    assert (0 < 2 ^ k) by (apply Z.pow_pos_nonneg; lia). nia.
Qed.

(** [q * 100] for a double [q] with a full mantissa. *)
Lemma mul_100 (m : positive) (e : Z) :
  2 ^ 52 <= Zpos m < 2 ^ 53 -> -400 <= e <= 400 ->
  exists (m' : positive) (j : Z),
    6 <= j <= 8 /\ 2 ^ 52 <= Zpos m' < 2 ^ 53 /\
    2 * Z.abs (Zpos m' * 2 ^ j - 100 * Zpos m) <= 2 ^ j /\
    SFmul prec emax (S754_finite false m e) (Prim2SF 100%float) =
      S754_finite false m' (e + j).
Proof.
  intros Hm He.
  change (Prim2SF 100%float) with (S754_finite false 7036874417766400 (-46)).
  cbn [SFmul xorb].
  set (M := Zpos (m * 7036874417766400)).
  assert (HM : M = 100 * Zpos m * 2 ^ 46) by (unfold M; rewrite Pos2Z.inj_mul; lia).
  assert (Hd : Zdigits2 M = 105 \/ Zdigits2 M = 106).
  { unfold M. cbn [Zdigits2]. fold M.
    destruct (Z.lt_ge_cases M (2 ^ 105)).
    - left. apply digits_unique. fold M. lia.
    - right. apply digits_unique. fold M. lia. }
  destruct (round_spec M 1 M (e + -46) loc_Exact) as (m1 & Hm1 & Herr & _ & ->);
    [lia|lia|lia|lia|apply located_exact|].
  rewrite !Z.mul_1_l in Herr.
  destruct (Z.ltb_spec (Zpos m1) (2 ^ 53)) as [Hlt|Hge].
  - exists m1, (Zdigits2 M - 53 - 46). split; [lia|]. split; [lia|].
    split; [|f_equal; lia].
    destruct Hd as [Hd|Hd]; rewrite Hd in *;
      [change (105 - 53 - 46) with 6; change (105 - 53) with 52 in Herr
      |change (106 - 53 - 46) with 7; change (106 - 53) with 53 in Herr]; lia.
  - assert (E : Zpos m1 = 2 ^ 53) by lia. rewrite E in Herr.
    exists 4503599627370496%positive, (Zdigits2 M - 53 - 46 + 1). split; [lia|].
    split; [lia|]. split; [|f_equal; lia].
    destruct Hd as [Hd|Hd]; rewrite Hd in *;
      [change (105 - 53 - 46 + 1) with 7; change (105 - 53) with 52 in Herr
      |change (106 - 53 - 46 + 1) with 8; change (106 - 53) with 53 in Herr]; lia.
Qed.

(** A whole number of 53 digits is its own mantissa. *)
Lemma num_53 (p : positive) :
  2 ^ 52 <= Zpos p < 2 ^ 53 -> Prim2SF (num (Zpos p)) = S754_finite false p 0.
Proof.
  intros Hp. rewrite Whole.num_exact by lia.
  assert (Hd : Zpos (digits2_pos p) = 53) by (apply digits_unique; lia).
  unfold Binary64.mantissa, Binary64.exponent. rewrite Hd. reflexivity.
Qed.

(** [y + 2^52] for a positive double [y] below 128: the sum has its last
    place at the units, so the addition rounds [y] to a whole number [R]
    within a half of it. *)
Lemma add_two52 (y : float) (m : positive) (K : Z) :
  Prim2SF y = S754_finite false m (- K) ->
  2 ^ 52 <= Zpos m < 2 ^ 53 -> 46 <= K <= 200 ->
  exists R, 0 <= R <= 129 /\ 2 * Z.abs (R * 2 ^ K - Zpos m) <= 2 ^ K /\
    PrimFloat.add y two52 = num (2 ^ 52 + R).
Proof.
  intros Hy Hm HK.
  destruct K as [|pK|pK]; try lia.
  assert (HP : 2 ^ 46 <= 2 ^ Zpos pK) by (apply Z.pow_le_mono_r; lia).
  assert (Hadd : Prim2SF (PrimFloat.add y two52) =
                 binary_round_aux prec emax false (Zpos m + 2 ^ 52 * 2 ^ Zpos pK)
                                  (- Zpos pK) loc_Exact).
  { rewrite add_spec, Hy.
    change (Prim2SF two52) with (S754_finite false 4503599627370496 0).
    unfold SF64add, SFadd. rewrite Z.min_l by lia.
    unfold shl_align at 1 2. rewrite Z.sub_diag, Z.sub_0_r. cbn [fst cond_Zopp Z.opp].
    change (PosDef.Pos.iter xO 4503599627370496%positive pK)
      with (Pos.iter xO 4503599627370496%positive pK).
    assert (HM : Zpos m + Zpos (Pos.iter xO 4503599627370496%positive pK) =
                 Zpos m + 2 ^ 52 * 2 ^ Zpos pK).
    { now rewrite Whole.iter_xO_value. }
    rewrite <- HM. cbn [Z.add binary_normalize]. unfold binary_round.
    set (p := (m + Pos.iter xO 4503599627370496 pK)%positive).
    assert (Hp : Zpos p = Zpos m + 2 ^ 52 * 2 ^ Zpos pK) by (unfold p; rewrite <- HM; lia).
    assert (Hd : Zpos (digits2_pos p) = 53 + Zpos pK).
    { apply digits_unique. rewrite Hp.
      replace (53 + Zpos pK - 1) with (52 + Zpos pK) by lia.
      rewrite !Z.pow_add_r by lia. lia. }
    rewrite Hd, fexp_normal by lia. unfold shl_align.
    replace (53 + Zpos pK + Z.neg pK - 53 - Z.neg pK) with (Zpos pK) by lia.
    reflexivity. }
  set (M := Zpos m + 2 ^ 52 * 2 ^ Zpos pK) in *.
  assert (HdM : Zdigits2 M = 53 + Zpos pK).
  { assert (HMpos : 0 < M) by (unfold M; lia).
    destruct M as [|pM|pM] eqn:EM; try lia. cbn [Zdigits2].
    apply digits_unique. rewrite <- EM. unfold M.
    replace (53 + Zpos pK - 1) with (52 + Zpos pK) by lia.
    rewrite !Z.pow_add_r by lia. lia. }
  destruct (round_spec M 1 M (- Zpos pK) loc_Exact) as (m1 & Hm1 & Herr & _ & Hres);
    [lia|unfold M; lia|lia|lia|apply located_exact|].
  rewrite HdM in *. replace (53 + Zpos pK - 53) with (Zpos pK) in * by lia.
  rewrite !Z.mul_1_l in Herr.
  assert (Hsmall : Zpos m1 < 2 ^ 52 + 130).
  { unfold M in Herr. nia. }
  exists (Zpos m1 - 2 ^ 52). split; [lia|]. split; [unfold M in Herr; nia|].
  apply Prim2SF_inj. rewrite Hadd, Hres.
  replace (Zpos m1 <? 2 ^ 53) with true by (symmetry; apply Z.ltb_lt; lia).
  replace (2 ^ 52 + (Zpos m1 - 2 ^ 52)) with (Zpos m1) by lia.
  rewrite num_53 by lia. f_equal. lia.
Qed.

(** Sums and differences of small whole numbers, checked one by one. *)
Lemma sub_two52 : forall R, 0 <= R <= 129 ->
  PrimFloat.sub (num (2 ^ 52 + R)) two52 = num R.
Proof.
  apply (checked (fun R => PrimFloat.sub (num (2 ^ 52 + R)) two52) num).
  vm_compute. reflexivity.
Qed.

Lemma whole_pred : forall R, 1 <= R <= 129 ->
  PrimFloat.sub (num R) 1%float = num (R - 1).
Proof.
  apply (checked (fun R => PrimFloat.sub (num R) 1%float) (fun R => num (R - 1))).
  vm_compute. reflexivity.
Qed.

Lemma whole_succ : forall F, 0 <= F <= 129 ->
  PrimFloat.add (num F) 1%float = num (F + 1).
Proof.
  apply (checked (fun F => PrimFloat.add (num F) 1%float) (fun F => num (F + 1))).
  vm_compute. reflexivity.
Qed.

(** A double with a full mantissa against a whole number. *)
Lemma ltb_whole (y : float) (m : positive) (K R : Z) :
  Prim2SF y = S754_finite false m (- K) ->
  2 ^ 52 <= Zpos m < 2 ^ 53 -> 0 <= K -> 0 < R < 2 ^ 53 ->
  PrimFloat.ltb y (num R) = (Zpos m <? R * 2 ^ K).
Proof.
  intros Hy Hm HK HR. destruct R as [|pR|pR]; try lia.
  rewrite ltb_spec, Hy, Whole.num_exact by lia.
  unfold SFltb. cbn [SFcompare].
  pose proof (Whole.digits_bounds pR) as [Lo Hi].
  pose proof (Whole.digits_le_53 pR ltac:(lia)) as D53.
  pose proof (Whole.mantissa_value pR ltac:(lia)) as Hv.
  unfold Binary64.exponent.
  assert (HPK : 0 < 2 ^ K) by (apply Z.pow_pos_nonneg; lia).
  destruct (Z.compare_spec (- K) (Zpos (digits2_pos pR) - 53)) as [E|E|E].
  - change (Pos.compare_cont Eq m (Binary64.mantissa pR))
      with (Pos.compare m (Binary64.mantissa pR)).
    rewrite Pos2Z.inj_compare, Hv.
    replace (53 - Zpos (digits2_pos pR)) with K by lia.
    unfold Z.ltb. now destruct (Zpos m ?= Zpos pR * 2 ^ K).
  - symmetry. apply Z.ltb_lt.
    assert (2 ^ 53 <= 2 ^ (Zpos (digits2_pos pR) - 1) * 2 ^ K).
    { rewrite <- Z.pow_add_r by lia. apply Z.pow_le_mono_r; lia. }
    nia.
  - symmetry. apply Z.ltb_ge.
    assert (2 ^ Zpos (digits2_pos pR) * 2 ^ K <= 2 ^ 52).
    { rewrite <- Z.pow_add_r by lia. apply Z.pow_le_mono_r; lia. }
    nia.
Qed.

(** [Math.floor] of a positive double below 128. *)
Lemma Math_floor_canonical (y : float) (m : positive) (K : Z) :
  Prim2SF y = S754_finite false m (- K) ->
  2 ^ 52 <= Zpos m < 2 ^ 53 -> 46 <= K <= 200 ->
  Math_floor y = num (Zpos m / 2 ^ K).
Proof.
  intros Hy Hm HK. unfold Math_floor.
  assert (H1 : PrimFloat.leb two52 (PrimFloat.abs y) = false).
  { rewrite leb_spec, abs_spec, Hy.
    change (Prim2SF two52) with (S754_finite false 4503599627370496 0).
    unfold SFleb. cbn [SFabs SFcompare].
    replace (0 ?= - K) with Gt by (symmetry; apply Z.compare_gt_iff; lia). reflexivity. }
  assert (H2 : PrimFloat.ltb y 0%float = false).
  { rewrite ltb_spec, Hy. reflexivity. }
  rewrite H1, H2.
  destruct (add_two52 y m K Hy Hm HK) as (R & HR & Herr & ->).
  rewrite sub_two52 by lia.
  assert (HP : 2 ^ 46 <= 2 ^ K) by (apply Z.pow_le_mono_r; lia).
  destruct (Z.eq_dec R 0) as [->|HR0].
  - change (num 0) with 0%float. rewrite H2. change 0%float with (num 0). f_equal.
    symmetry. apply Z.div_small. lia.
  - rewrite (ltb_whole y m K R Hy Hm) by lia.
    destruct (Z.ltb_spec (Zpos m) (R * 2 ^ K)) as [Hlt|Hge].
    + rewrite whole_pred by lia. f_equal.
      apply Z.div_unique_pos with (r := Zpos m - (R - 1) * 2 ^ K); nia.
    + f_equal.
      apply Z.div_unique_pos with (r := Zpos m - R * 2 ^ K); nia.
Qed.

(** One half against a positive double with a full mantissa. *)
Lemma leb_half (z : float) (mz : positive) (ez : Z) :
  Prim2SF z = S754_finite false mz ez -> 2 ^ 52 <= Zpos mz ->
  PrimFloat.leb 0.5%float z = (-53 <=? ez).
Proof.
  intros Hz Hm. rewrite leb_spec, Hz.
  change (Prim2SF 0.5%float) with (S754_finite false 4503599627370496 (-53)).
  unfold SFleb. cbn [SFcompare].
  destruct (Z.compare_spec (-53) ez) as [E|E|E].
  - change (Pos.compare_cont Eq 4503599627370496 mz)
      with (Pos.compare 4503599627370496 mz).
    rewrite Pos2Z.inj_compare.
    destruct (Z.compare_spec (Zpos 4503599627370496) (Zpos mz)); try lia;
      symmetry; apply Z.leb_le; lia.
  - symmetry. apply Z.leb_le. lia.
  - symmetry. apply Z.leb_gt. lia.
Qed.

(** The part of a double above its floor, held exactly. *)
Lemma fraction (y : float) (m : positive) (K : Z) :
  Prim2SF y = S754_finite false m (- K) ->
  2 ^ 52 <= Zpos m < 2 ^ 53 -> 46 <= K <= 200 ->
  PrimFloat.leb 0.5%float (PrimFloat.sub y (num (Zpos m / 2 ^ K))) =
  (2 ^ K <=? 2 * (Zpos m mod 2 ^ K)).
Proof.
  intros Hy Hm HK.
  assert (HP : 2 ^ 46 <= 2 ^ K) by (apply Z.pow_le_mono_r; lia).
  pose proof (Z.div_mod (Zpos m) (2 ^ K) ltac:(lia)) as Hdm.
  pose proof (Z.mod_pos_bound (Zpos m) (2 ^ K) ltac:(lia)) as Hrho.
  set (F := Zpos m / 2 ^ K) in *. set (rho := Zpos m mod 2 ^ K) in *.
  assert (HF : 0 <= F) by (apply Z.div_pos; lia).
  destruct (Z.eq_dec F 0) as [E0|Hne].
  - rewrite E0 in *. change (num 0) with 0%float.
    assert (Hsub : PrimFloat.sub y 0%float = y).
    { apply Prim2SF_inj. rewrite sub_spec, Hy. reflexivity. }
    rewrite Hsub, (leb_half y m (- K) Hy) by lia.
    assert (HK53 : 53 <= K).
    { destruct (Z.le_gt_cases 53 K) as [H|H]; [exact H|].
      assert (2 ^ K <= 2 ^ 52) by (apply Z.pow_le_mono_r; lia). lia. }
    destruct (Z.eq_dec K 53) as [->|HK'].
    + change (-53 <=? - (53)) with true. symmetry. apply Z.leb_le. lia.
    + replace (-53 <=? - K) with false by (symmetry; apply Z.leb_gt; lia).
      symmetry. apply Z.leb_gt.
      assert (2 ^ 54 <= 2 ^ K) by (apply Z.pow_le_mono_r; lia). lia.
  - assert (HK52 : K <= 52).
    { destruct (Z.le_gt_cases K 52) as [H|H]; [exact H|].
      assert (2 ^ 53 <= 2 ^ K) by (apply Z.pow_le_mono_r; lia). nia. }
    assert (H53 : 2 ^ (53 - K) * 2 ^ K = 2 ^ 53).
    { rewrite <- Z.pow_add_r by lia. f_equal. lia. }
    assert (H52 : 2 ^ (53 - K - 1) * 2 ^ K = 2 ^ 52).
    { rewrite <- Z.pow_add_r by lia. f_equal. lia. }
    destruct F as [|pF|pF] eqn:EF; try lia.
    assert (HdF : Zpos (digits2_pos pF) = 53 - K).
    { apply digits_unique. split; nia. }
    assert (HFlt : Zpos pF < 2 ^ 53) by nia.
    pose proof (Whole.mantissa_value pF HFlt) as Hv. rewrite HdF in Hv.
    replace (53 - (53 - K)) with K in Hv by lia.
    assert (Hsub : Prim2SF (PrimFloat.sub y (num (Zpos pF))) =
                   binary_normalize prec emax rho (- K) false).
    { rewrite sub_spec, Hy, Whole.num_exact by exact HFlt.
      unfold Binary64.exponent. rewrite HdF.
      replace (53 - K - 53) with (- K) by lia.
      unfold SF64sub, SFsub. rewrite Z.min_id.
      unfold shl_align. rewrite Z.sub_diag. cbn [fst cond_Zopp].
      f_equal. lia. }
    destruct (Z.eq_dec rho 0) as [Er|Hr0].
    + rewrite Er in *. cbn [binary_normalize] in Hsub.
      rewrite leb_spec, Hsub.
      change (Prim2SF 0.5%float) with (S754_finite false 4503599627370496 (-53)).
      cbn. symmetry. apply Z.leb_gt. lia.
    + destruct rho as [|pr|pr] eqn:Erho; try lia.
      cbn [binary_normalize] in Hsub. unfold binary_round in Hsub.
      pose proof (Whole.digits_bounds pr) as [Lr Ur].
      assert (HdK : Zpos (digits2_pos pr) <= K).
      { destruct (Z.le_gt_cases (Zpos (digits2_pos pr)) K) as [H|H]; [exact H|].
        assert (2 ^ K <= 2 ^ (Zpos (digits2_pos pr) - 1)) by (apply Z.pow_le_mono_r; lia).
        lia. }
      rewrite fexp_normal in Hsub by lia.
      unfold shl_align in Hsub.
      destruct (Zpos (digits2_pos pr) + - K - 53 - - K) as [|d|d] eqn:Ed; try lia.
      set (mz := PosDef.Pos.iter xO pr d) in *.
      assert (Hmz : Zpos mz = Zpos pr * 2 ^ Zpos d) by apply Whole.iter_xO_value.
      assert (Hdz : Zpos (digits2_pos mz) = 53).
      { unfold mz. change (PosDef.Pos.iter xO pr d) with (Pos.iter xO pr d).
        rewrite Whole.iter_xO_digits. lia. }
      pose proof (Whole.digits_bounds mz) as Bz. rewrite Hdz in Bz.
      destruct (round_spec (Zpos mz) 1 (Zpos mz) (Zpos (digits2_pos pr) + - K - 53)
                  loc_Exact) as (m1 & Hm1 & _ & Hex & Hres);
        [lia|lia|cbn [Zdigits2]; lia|cbn [Zdigits2]; lia|apply located_exact|].
      cbn [Zdigits2] in Hex, Hres. rewrite Hdz in Hex, Hres.
      change (1 * 2 ^ (53 - 53)) with 1 in Hex.
      rewrite Z.mod_1_r, Z.mul_1_r in Hex. specialize (Hex eq_refl).
      assert (m1 = mz) by lia. subst m1.
      replace (Zpos mz <? 2 ^ 53) with true in Hres by (symmetry; apply Z.ltb_lt; lia).
      rewrite Hres in Hsub.
      rewrite (leb_half _ _ _ Hsub) by lia.
      destruct (Z.leb_spec (2 ^ K) (2 * Zpos pr)) as [Hge|Hlt].
      * apply Z.leb_le.
        destruct (Z.eq_dec (Zpos (digits2_pos pr)) K) as [->|Hd]; [lia|].
        assert (2 ^ Zpos (digits2_pos pr) <= 2 ^ (K - 1)) by (apply Z.pow_le_mono_r; lia).
        assert (2 ^ K = 2 * 2 ^ (K - 1)).
        { rewrite <- Z.pow_succ_r by lia. f_equal. lia. }
        lia.
      * apply Z.leb_gt.
        destruct (Z.eq_dec (Zpos (digits2_pos pr)) K) as [E|Hd]; [|lia].
        rewrite E in Lr.
        assert (2 ^ K = 2 * 2 ^ (K - 1)).
        { rewrite <- Z.pow_succ_r by lia. f_equal. lia. }
        lia.
Qed.

(** [Math.round] of a positive double below 128: the mantissa divided by
    the weight of its unit and rounded to the nearest, a tie going up. *)
Lemma Math_round_canonical (y : float) (m : positive) (K : Z) :
  Prim2SF y = S754_finite false m (- K) ->
  2 ^ 52 <= Zpos m < 2 ^ 53 -> 46 <= K <= 200 ->
  Math_round y = num (round_div (Zpos m) (2 ^ K)).
Proof.
  intros Hy Hm HK. unfold Math_round.
  rewrite (Math_floor_canonical y m K Hy Hm HK), (fraction y m K Hy Hm HK).
  assert (HP : 2 ^ 46 <= 2 ^ K) by (apply Z.pow_le_mono_r; lia).
  pose proof (Z.div_mod (Zpos m) (2 ^ K) ltac:(lia)) as Hdm.
  pose proof (Z.mod_pos_bound (Zpos m) (2 ^ K) ltac:(lia)) as Hrho.
  assert (HF : 0 <= Zpos m / 2 ^ K < 128).
  { split; [apply Z.div_pos; lia|]. apply Z.div_lt_upper_bound; lia. }
  revert Hdm Hrho HF. generalize (Zpos m / 2 ^ K) (Zpos m mod 2 ^ K). intros F rho Hdm Hrho HF.
  unfold round_div.
  destruct (Z.leb_spec (2 ^ K) (2 * rho)) as [Hge|Hlt].
  - rewrite whole_succ by lia. f_equal.
    apply Z.div_unique_pos with (r := 2 * rho - 2 ^ K); lia.
  - f_equal. apply Z.div_unique_pos with (r := 2 * rho + 2 ^ K); lia.
Qed.

(** A larger number has no fewer digits. *)
Lemma digits_mono (p q : positive) :
  Zpos p <= Zpos q -> Zpos (digits2_pos p) <= Zpos (digits2_pos q).
Proof.
  intros H. pose proof (Whole.digits_bounds p) as [Lp Up].
  pose proof (Whole.digits_bounds q) as [Lq Uq].
  destruct (Z.le_gt_cases (Zpos (digits2_pos p)) (Zpos (digits2_pos q))) as [G|G]; [exact G|].
  assert (2 ^ Zpos (digits2_pos q) <= 2 ^ (Zpos (digits2_pos p) - 1))
    by (apply Z.pow_le_mono_r; lia).
  lia.
Qed.

(** The error of the product after the error of the quotient, with [P],
    [Q] and [R] standing for [my * t], [mq * t] and [d * 2^K]. *)
Lemma combine_errors (P Q R t J : Z) :
  J = 64 \/ J = 128 \/ J = 256 ->
  2 * Z.abs (P * J - 100 * Q) <= J * t ->
  2 * Z.abs (Q - R * J) <= t ->
  32 * Z.abs (P - 100 * R) <= 41 * t.
Proof. intros [->|[->| ->]]; lia. Qed.

(** A percentage is below 128, so its last place is at most [2^-46]. *)
Lemma unit_small (my t d X : Z) :
  2 ^ 52 <= my -> 0 < d <= t -> 0 < X <= 2 ^ 45 ->
  32 * Z.abs (my * t - 100 * d * X) <= 41 * t -> False.
Proof.
  intros Hm Hd HX H.
  assert (d * X <= t * 2 ^ 45) by nia.
  assert (2 ^ 52 * t <= my * t) by nia.
  lia.
Qed.

(** The double that line 331 rounds: [doneBytes / totalBytes * 100] is, for
    whole numbers [0 < d <= t < 2^53], a double [my * 2^-K] below 128 that
    differs from [100 * d / t] by at most 41/32 of its last place. *)
Lemma scanPct_value (d t : Z) :
  0 < d <= t -> t < 2 ^ 53 ->
  exists (my : positive) (K : Z),
    46 <= K <= 200 /\ 2 ^ 52 <= Zpos my < 2 ^ 53 /\
    32 * Z.abs (Zpos my * t - 100 * d * 2 ^ K) <= 41 * t /\
    scanPct d t = num (round_div (Zpos my) (2 ^ K)).
Proof.
  intros Hd Ht. destruct d as [|pd|pd]; try lia. destruct t as [|pt|pt]; try lia.
  pose proof (Whole.mantissa_digits pd ltac:(lia)) as Da.
  pose proof (Whole.mantissa_digits pt ltac:(lia)) as Db.
  pose proof (Whole.mantissa_value pd ltac:(lia)) as Va.
  pose proof (Whole.mantissa_value pt ltac:(lia)) as Vb.
  pose proof (Whole.digits_le_53 pd ltac:(lia)) as Ld.
  pose proof (Whole.digits_le_53 pt ltac:(lia)) as Lt'.
  pose proof (digits_mono pd pt ltac:(lia)) as Hmono.
  pose proof (Pos2Z.is_pos (digits2_pos pd)) as Pd.
  pose proof (Pos2Z.is_pos (digits2_pos pt)) as Pt.
  destruct (div_canonical (Binary64.mantissa pd) (Binary64.mantissa pt)
              (Binary64.exponent pd) (Binary64.exponent pt) Da Db)
    as (mq & j & Hj & Hmq & Hq & Hdiv);
    [unfold Binary64.exponent; lia|unfold Binary64.exponent; lia|].
  destruct (mul_100 mq (Binary64.exponent pd - Binary64.exponent pt - 53 + j) Hmq)
    as (my & j2 & Hj2 & Hmy & Hy & Hmul); [unfold Binary64.exponent; lia|].
  unfold Binary64.exponent in *.
  set (Dd := Zpos (digits2_pos pd)) in *. set (Dt := Zpos (digits2_pos pt)) in *.
  set (K := Dt - Dd + 53 - j - j2).
  assert (HK0 : 43 <= K <= 200) by (unfold K; lia).
  assert (Hprim : Prim2SF (PrimFloat.mul (PrimFloat.div (num (Zpos pd)) (num (Zpos pt)))
                                         100%float) = S754_finite false my (- K)).
  { rewrite mul_spec, div_spec, !Whole.num_exact by lia.
    unfold SF64mul, SF64div, Binary64.exponent. fold Dd Dt.
    rewrite Hdiv, Hmul. f_equal. unfold K. lia. }
  (* the error of the quotient, in units of [2^-(K + j2)] *)
  assert (HX : 0 < 2 ^ K) by (apply Z.pow_pos_nonneg; lia).
  assert (HJ : 64 <= 2 ^ j2 <= 256).
  { split; [change 64 with (2 ^ 6)|change 256 with (2 ^ 8)]; apply Z.pow_le_mono_r; lia. }
  assert (Hquot : 2 * Z.abs (Zpos mq * Zpos pt - Zpos pd * (2 ^ K * 2 ^ j2)) <= Zpos pt).
  { rewrite Va, Vb in Hq.
    assert (HG : 0 < 2 ^ (53 - Dt) * 2 ^ j)
      by (apply Z.mul_pos_pos; apply Z.pow_pos_nonneg; lia).
    assert (Hexp : 2 ^ (53 - Dd) * 2 ^ 53 = (2 ^ (53 - Dt) * 2 ^ j) * (2 ^ K * 2 ^ j2)).
    { rewrite <- !Z.pow_add_r by lia. f_equal. unfold K. lia. }
    replace (Zpos mq * (Zpos pt * 2 ^ (53 - Dt) * 2 ^ j) - Zpos pd * 2 ^ (53 - Dd) * 2 ^ 53)
      with ((2 ^ (53 - Dt) * 2 ^ j) * (Zpos mq * Zpos pt - Zpos pd * (2 ^ K * 2 ^ j2))) in Hq.
    2:{ rewrite <- (Z.mul_assoc (Zpos pd)), Hexp. ring. }
    rewrite Z.abs_mul, (Z.abs_eq (2 ^ (53 - Dt) * 2 ^ j)) in Hq by lia.
    replace (Zpos pt * 2 ^ (53 - Dt) * 2 ^ j) with ((2 ^ (53 - Dt) * 2 ^ j) * Zpos pt) in Hq
      by ring.
    apply (Z.mul_le_mono_pos_l _ _ (2 ^ (53 - Dt) * 2 ^ j) HG).
    revert Hq. generalize (2 ^ (53 - Dt) * 2 ^ j).
    generalize (Z.abs (Zpos mq * Zpos pt - Zpos pd * (2 ^ K * 2 ^ j2))).
    intros A G Hq. lia. }
  assert (Hprod : 2 * Z.abs (Zpos my * 2 ^ j2 * Zpos pt - 100 * Zpos mq * Zpos pt)
                  <= 2 ^ j2 * Zpos pt).
  { replace (Zpos my * 2 ^ j2 * Zpos pt - 100 * Zpos mq * Zpos pt)
      with ((Zpos my * 2 ^ j2 - 100 * Zpos mq) * Zpos pt) by ring.
    rewrite Z.abs_mul, (Z.abs_eq (Zpos pt)) by lia.
    assert (Hpt : 0 <= Zpos pt) by lia.
    pose proof (Z.mul_le_mono_nonneg_r _ _ (Zpos pt) Hpt Hy) as Hy'.
    revert Hy'. generalize (Z.abs (Zpos my * 2 ^ j2 - 100 * Zpos mq)) (2 ^ j2).
    intros A J Hy'. lia. }
  assert (Herr : 32 * Z.abs (Zpos my * Zpos pt - 100 * Zpos pd * 2 ^ K) <= 41 * Zpos pt).
  { replace (Zpos my * Zpos pt - 100 * Zpos pd * 2 ^ K)
      with (Zpos my * Zpos pt - 100 * (Zpos pd * 2 ^ K)) by ring.
    apply (combine_errors _ (Zpos mq * Zpos pt) _ _ (2 ^ j2)).
    - assert (E : j2 = 6 \/ j2 = 7 \/ j2 = 8) by lia.
      destruct E as [->|[->| ->]]; [left|right; left|right; right]; reflexivity.
    - replace (Zpos my * Zpos pt * 2 ^ j2 - 100 * (Zpos mq * Zpos pt))
        with (Zpos my * 2 ^ j2 * Zpos pt - 100 * Zpos mq * Zpos pt) by ring.
      exact Hprod.
    - replace (Zpos mq * Zpos pt - Zpos pd * 2 ^ K * 2 ^ j2)
        with (Zpos mq * Zpos pt - Zpos pd * (2 ^ K * 2 ^ j2)) by ring.
      exact Hquot. }
  assert (HK : 46 <= K).
  { destruct (Z.le_gt_cases 46 K) as [H|H]; [exact H|]. exfalso.
    assert (HX45 : 2 ^ K <= 2 ^ 45) by (apply Z.pow_le_mono_r; lia).
    apply (unit_small (Zpos my) (Zpos pt) (Zpos pd) (2 ^ K)); [lia|lia|lia|exact Herr]. }
  exists my, K. split; [lia|]. split; [exact Hmy|]. split; [exact Herr|].
  unfold scanPct. cbn [Z.eqb].
  apply Math_round_canonical; [exact Hprim|exact Hmy|lia].
Qed.

End Rounding.

(** ** The percentage and the exact ratio *)

(** The floor of a quotient moves by at most one when the numerator moves
    by less than the denominator. *)
Lemma div_shift (W r v : Z) :
  0 < W -> - W <= v < 2 * W ->
  (W * r + v) / W = r + v / W /\ -1 <= v / W <= 1.
Proof.
  intros HW Hv. split.
  - rewrite (Z.mul_comm W r). apply Z.div_add_l. lia.
  - split.
    + apply Z.div_le_lower_bound; lia.
    + assert (v / W < 2) by (apply Z.div_lt_upper_bound; lia). lia.
Qed.

(** Rounding a double that is close to [100 * d / t]. *)
Lemma round_close (my t d X : Z) :
  0 < d <= t -> t < 2 ^ 53 -> 2 ^ 46 <= X ->
  32 * Z.abs (my * t - 100 * d * X) <= 41 * t ->
  let n := round_div my X in
  let r := round_div (100 * d) t in
  0 <= n <= 100 /\ r - 1 <= n <= r + 1 /\
  (t <= 2 ^ 44 -> n = r \/ (n = r - 1 /\ (200 * d) mod (2 * t) = t)).
Proof.
  intros Hd Ht HX Herr. cbv zeta. unfold round_div.
  set (E := my * t - 100 * d * X) in *.
  set (N := 2 * (100 * d) + t).
  pose proof (Z.div_mod N (2 * t) ltac:(lia)) as Hdm.
  pose proof (Z.mod_pos_bound N (2 * t) ltac:(lia)) as Hs.
  set (r := N / (2 * t)) in *. set (sigma := N mod (2 * t)) in *.
  set (W := t * (2 * X)).
  assert (HW : 0 < W) by (unfold W; nia).
  assert (HXt : 2 ^ 46 * t <= X * t) by nia.
  assert (Hn : (2 * my + X) / (2 * X) = (W * r + (X * sigma + 2 * E)) / W).
  { rewrite <- (Z.div_mul_cancel_l (2 * my + X) (2 * X) t) by lia.
    fold W. f_equal. unfold E, W.
    replace (t * (2 * my + X)) with (X * N + 2 * (my * t - 100 * d * X))
      by (unfold N; ring).
    rewrite Hdm. ring. }
  assert (Hsig : 0 <= X * sigma <= W - X) by (unfold W; nia).
  destruct (div_shift W r (X * sigma + 2 * E) HW ltac:(lia)) as [Hq Hc].
  rewrite Hn, Hq.
  assert (Hr : 0 <= r <= 100).
  { unfold r. split; [apply Z.div_pos; unfold N; lia|].
    assert (N / (2 * t) < 101) by (apply Z.div_lt_upper_bound; unfold N; lia). lia. }
  assert (Hlo : 0 <= r + (X * sigma + 2 * E) / W).
  { destruct (Z.eq_dec r 0) as [E0|]; [|lia].
    assert (0 <= (X * sigma + 2 * E) / W); [|lia].
    apply Z.div_pos; [|lia].
    assert (sigma = N) by (rewrite E0 in Hdm; lia).
    assert (X * t <= X * sigma) by (unfold N in *; nia). lia. }
  assert (Hhi : r + (X * sigma + 2 * E) / W <= 100).
  { assert (r + (X * sigma + 2 * E) / W < 101); [|lia].
    rewrite <- Hq. apply Z.div_lt_upper_bound; [exact HW|].
    replace (W * r + (X * sigma + 2 * E)) with (X * N + 2 * E)
      by (rewrite Hdm; unfold W; ring).
    assert (X * N <= X * (201 * t)) by (unfold N; nia).
    unfold W. lia. }
  split; [lia|]. split; [lia|].
  intros Hsmall.
  assert (H2E : - X < 2 * E < X) by lia.
  destruct (Z.eq_dec sigma 0) as [E0|Hne].
  - rewrite E0, Z.mul_0_r, Z.add_0_l in *.
    destruct (Z.le_gt_cases 0 E) as [Hpos|Hneg].
    + left. rewrite Z.div_small by lia. lia.
    + right. split.
      * assert (Hm1 : -1 = (2 * E) / W)
          by (apply Z.div_unique_pos with (r := 2 * E + W); lia).
        rewrite <- Hm1. lia.
      * symmetry. apply Z.mod_unique_pos with (q := r - 1); [lia|].
        unfold N in Hdm. lia.
  - left. assert (X * 1 <= X * sigma) by nia.
    rewrite Z.div_small by lia. lia.
Qed.

(** Three percentages of line 331 next to the exact ratio rounded: a tie
    that the doubles keep (12.5 shows 13), a tie that they lose (57.5 shows
    57), and, for a total above 2^45 bytes, a ratio just below a half that
    they carry over it (81.49999999999999 shows 82). *)
Example percentage_samples :
  (scanPct 1 8 = 13%float /\ round_div (100 * 1) 8 = 13) /\
  (scanPct 23 40 = 57%float /\ round_div (100 * 23) 40 = 58) /\
  (scanPct 56802029480306 69695741693627 = 82%float /\
   round_div (100 * 56802029480306) 69695741693627 = 81).
Proof. vm_compute. repeat split; reflexivity. Qed.

(** ** Claims about the local scan *)

(** C9. A scan for album [A] leaves every album whose id is not [A] as it
    was, in its place in the list; the resets made before the scan starts
    revoke every preview URL stored for [A], in order, empty its preview
    list and create nothing; the scan itself revokes nothing more. *)
Theorem scan_frame (B : Browser) (A : string) (s : App) :
  let s' := scanLocalFolderPhotosOnly B A s in
  List.length (albums s') = List.length (albums s) /\
  (forall i a, nth_error (albums s) i = Some a -> id a <> A ->
               nth_error (albums s') i = Some a) /\
  revoked (scanProlog A s) =
    revoked s ++ flat_map (fun a => if String.eqb (id a) A then map url (previewUrls a) else [])
                          (albums s) /\
  (forall a, In a (albums (scanProlog A s)) -> id a = A -> previewUrls a = []) /\
  created (scanProlog A s) = created s /\
  revoked s' = revoked (scanProlog A s).
Proof.
  cbv zeta. split; [|split; [|split; [|split; [|split]]]].
  - destruct (scan_albums B A s) as [->|(photos & ->)]; prolog;
      now rewrite ?length_map.
  - intros i a Hi Hne.
    pose proof (scanProlog_other A s i a Hi Hne) as Hp.
    destruct (scan_albums B A s) as [->|(photos & ->)]; [exact Hp|].
    rewrite nth_error_map, Hp. cbn [option_map]. now rewrite stored_other.
  - reflexivity.
  - apply scanProlog_reset.
  - reflexivity.
  - destruct (scan_cases B A s) as [Hidle|(photos & Hp & Hq)].
    + now apply idle_end_facts in Hidle.
    + now destruct (scan_in_quota B A s photos Hp Hq) as (_ & _ & _ & H & _).
Qed.

(** C7. When the picker is cancelled (it rejects with an error named
    ["AbortError"]) the scan handles no file: it creates no preview, leaves
    the counters at zero and shows no alert; the error only goes to the
    console. An enumeration that fails with any other error ends the same
    way except that its message is shown in one alert. *)
Theorem cancelled_picker_is_silent (B : Browser) (A : string) (s : App) (e : JsError) :
  hasDirectoryPicker B = true ->
  enumerate B = Throw e ->
  let s' := scanLocalFolderPhotosOnly B A s in
  runRenders B A s = [(0%float, zeroStats)] /\
  scanStats s' = zeroStats /\
  created s' = created s /\
  albums s' = albums (scanProlog A s) /\
  scanRunning s' = false /\
  consoleErrors s' = consoleErrors s ++ [e] /\
  (e_name e = "AbortError"%string -> alerts s' = alerts s) /\
  (e_name e <> "AbortError"%string ->
   alerts s' = alerts s ++
     [MessageAlert (if String.eqb (e_message e) EmptyString then "Scan failed"%string else e_message e)]).
Proof.
  intros Hpick Henum. cbv zeta.
  assert (Hrun : scanLocalFolderPhotosOnly B A s =
                 setScanRunning false (scanCatch e (scanProlog A s))).
  { unfold enumerate in Henum.
    destruct (showDirectoryPicker B) as [h|e'] eqn:H2.
    - eapply scan_walk_throws; eassumption.
    - injection Henum as ->. now apply scan_picker_throws. }
  unfold runRenders. rewrite Hrun.
  pose proof (idle_end_facts A s _ (idle_catch A s e)) as (H1 & H2 & H3 & H4 & _ & _ & H7).
  rewrite H1, skipn_length_app.
  repeat (split; [assumption || reflexivity|]).
  split; [|split].
  - setters. now destruct (negb (String.eqb (e_name e) "AbortError")).
  - intros Hname. setters. rewrite Hname. reflexivity.
  - intros Hname. setters. apply String.eqb_neq in Hname. rewrite Hname. reflexivity.
Qed.

(** Every render of a run shows the percentage of its own counters, and
    the bytes done never exceed the total. *)
Lemma render_shown (B : Browser) (A : string) (s : App) (p : float) (st : ScanStats) :
  In (p, st) (runRenders B A s) -> totalBytes st < 2 ^ 53 ->
  p = scanPct (doneBytes st) (totalBytes st) /\ 0 <= doneBytes st <= totalBytes st.
Proof.
  intros Hin Hlt.
  assert (Hzero : forall n total, 0 <= total ->
            (p, st) = (0%float, mkStats n 0 total 0 0 0) ->
            p = scanPct (doneBytes st) (totalBytes st) /\ 0 <= doneBytes st <= totalBytes st).
  { intros n total H0 H. injection H as -> ->. cbn [doneBytes totalBytes] in *.
    split; [|lia]. symmetry. apply scanPct_zero. lia. }
  destruct (scan_runRenders B A s) as [H|(photos & _ & _ & H)]; rewrite H in Hin.
  - destruct Hin as [Hin|[]]. eapply (Hzero _ 0); [lia|]. symmetry. exact Hin.
  - destruct Hin as [Hin|[Hin|Hin]].
    + eapply (Hzero _ 0); [lia|]. symmetry. exact Hin.
    + eapply (Hzero _ (sumSizes photos)); [apply sumSizes_nonneg|]. symmetry. exact Hin.
    + apply in_map_iff in Hin. destruct Hin as (st' & Hst & Hloop).
      unfold shown in Hst. injection Hst as <- ->. split; [reflexivity|].
      apply In_nth_error in Hloop. destruct Hloop as (k & Hk).
      apply loopStats_nth in Hk. destruct Hk as (_ & -> & _ & ->).
      cbn [startStats totalBytes doneBytes].
      pose proof (sizesOf_nonneg (firstn (S k) (map fst (rendered (canvas B) photos)))).
      assert (Hle : sizesOf (firstn (S k) (map fst (rendered (canvas B) photos)))
                    <= sizesOf (map fst photos)).
      { pose proof (rendered_prefix (canvas B) photos) as Hpre.
        assert (Hrest : exists rest,
                  map fst photos = map fst (rendered (canvas B) photos) ++ rest).
        { destruct (firstThrow (canvas B) photos) as [e|].
          - destruct Hpre as (pre & bad & post & -> & -> & _).
            exists (map fst (bad :: post)). now rewrite map_app.
          - exists []. now rewrite app_nil_r. }
        destruct Hrest as (rest & ->).
        rewrite sizesOf_app. pose proof (sizesOf_nonneg rest).
        pose proof (sizesOf_firstn_le (map fst (rendered (canvas B) photos)) (S k)
                      (List.length (map fst (rendered (canvas B) photos)) + S k)
                      ltac:(lia)) as Hf.
        rewrite (firstn_all2 (n := _ + S k)) in Hf by lia. lia. }
      rewrite sumSizes_sizesOf. lia.
Qed.

(** C6. Whatever the progress bar shows with a set of counters, during any
    scan of a batch of less than 2^53 bytes, is a whole number [n] of
    percent: 0 when [totalBytes] is 0, and otherwise between 0 and 100 and
    within one of [r], the exact ratio [100 * doneBytes / totalBytes]
    rounded to the nearest whole number with a tie going up. For batches
    of at most 2^44 bytes [n] is [r] itself, except that it may be [r - 1]
    when the ratio lies exactly halfway between two whole numbers: the
    doubles on which line 331 computes may fall just below the half. *)
Theorem progress_percentage (B : Browser) (A : string) (s : App)
  (p : float) (st : ScanStats) :
  In (p, st) (runRenders B A s) ->
  totalBytes st < 2 ^ 53 ->
  let d := doneBytes st in
  let t := totalBytes st in
  let r := round_div (100 * d) t in
  exists n : Z,
    p = num n /\
    (t = 0 -> n = 0) /\
    (0 < t ->
     0 <= n <= 100 /\ r - 1 <= n <= r + 1 /\
     (t <= 2 ^ 44 -> n = r \/ (n = r - 1 /\ (200 * d) mod (2 * t) = t))).
Proof.
  intros Hin Hlt. cbv zeta.
  destruct (render_shown B A s p st Hin Hlt) as (-> & Hd).
  set (d := doneBytes st) in *. set (t := totalBytes st) in *.
  destruct (Z.eq_dec d 0) as [Hd0|Hd0].
  - exists 0. rewrite Hd0. rewrite scanPct_zero by lia.
    split; [reflexivity|]. split; [reflexivity|]. intros Ht.
    assert (Hr : round_div (100 * 0) t = 0).
    { unfold round_div. apply Z.div_small. lia. }
    rewrite Hr. repeat split; lia.
  - destruct (Rounding.scanPct_value d t ltac:(lia) Hlt) as (my & K & HK & Hmy & Herr & ->).
    exists (round_div (Zpos my) (2 ^ K)). split; [reflexivity|].
    split; [lia|]. intros _.
    apply round_close; [lia|exact Hlt| |exact Herr].
    apply Z.pow_le_mono_r; lia.
Qed.

(** ** Counters of the local scan *)

Lemma loopStats_counters ok : forall st,
  map counters (loopStats st ok) =
  map (fun k => (doneFiles st + Z.of_nat k, doneBytes st + sizesOf (firstn k (map fst ok))))
      (seq 1 (List.length ok)).
Proof.
  induction ok as [|fb ok IH]; intros st; [reflexivity|].
  cbn [loopStats map List.length seq].
  rewrite IH, <- (seq_shift (List.length ok) 1), map_map. f_equal.
  - unfold counters. cbn [turnStats doneFiles doneBytes firstn].
    rewrite sizesOf_cons. cbn [firstn sizesOf fold_right]. f_equal; lia.
  - apply map_ext. intros k. cbn [turnStats doneFiles doneBytes firstn].
    rewrite sizesOf_cons. f_equal; lia.
Qed.

Lemma previewsOf_names B ok : forall k,
  map p_name (previewsOf B k ok) = map (fun fb => name (fst fb)) ok.
Proof.
  induction ok as [|[f b] ok IH]; intros k; [reflexivity|].
  cbn [previewsOf map p_name fst]. now rewrite IH.
Qed.

Lemma map_snd_shown (l : list ScanStats) : map snd (map shown l) = l.
Proof.
  induction l as [|st l IH]; [reflexivity|]. cbn [map shown snd]. now rewrite IH.
Qed.

Lemma local_counters (B : Browser) (A : string) (s : App) :
  nondecreasing (map snd (runRenders B A s)) /\
  (forall photos, picked B = Some photos -> sumSizes photos <= quotaBytes s ->
     let ok := map fst (rendered (canvas B) photos) in
     let fin := scanStats (scanLocalFolderPhotosOnly B A s) in
     map counters (map snd (runRenders B A s)) =
       (0, 0) :: (0, 0) :: map (fun k => (Z.of_nat k, sizesOf (firstn k ok)))
                               (seq 1 (List.length ok)) /\
     (exists rest, map fst photos = ok ++ rest) /\
     totalFiles fin = Z.of_nat (List.length photos) /\
     totalBytes fin = sumSizes photos /\
     doneFiles fin = Z.of_nat (List.length ok) /\
     doneBytes fin = sizesOf ok /\
     (firstThrow (canvas B) photos = None ->
      doneFiles fin = totalFiles fin /\ doneBytes fin = totalBytes fin) /\
     (firstThrow (canvas B) photos <> None -> doneFiles fin < totalFiles fin)).
Proof.
  split.
  - destruct (scan_runRenders B A s) as [->|(photos & _ & _ & ->)].
    + apply (nondecreasing_loop [zeroStats] zeroStats []); [|reflexivity|reflexivity].
      repeat constructor.
    + cbn [map snd]. rewrite map_snd_shown.
      apply (nondecreasing_loop [zeroStats; startStats photos] (startStats photos));
        [|reflexivity|reflexivity].
      repeat constructor.
  - intros photos Hp Hq. cbv zeta.
    pose proof (scan_in_quota B A s photos Hp Hq) as H. cbv zeta in H.
    destruct H as (Hlog & Hst & _).
    unfold runRenders. rewrite Hlog, skipn_length_app, Hst. clear Hlog Hst.
    pose proof (loopStats_last (startStats photos) (rendered (canvas B) photos)) as HL.
    cbv zeta in HL. destruct HL as (L1 & L2 & L3 & L4 & _).
    cbn [startStats totalFiles totalBytes doneFiles doneBytes] in L1, L2, L3, L4.
    pose proof (rendered_length (canvas B) photos) as (Hle & Hall & Hsome).
    pose proof (rendered_prefix (canvas B) photos) as Hpre.
    rewrite length_map.
    split; [|split; [|split; [|split; [|split; [|split; [|split]]]]]].
    + cbn [map snd]. rewrite map_snd_shown. cbn [map counters].
      rewrite loopStats_counters. reflexivity.
    + destruct (firstThrow (canvas B) photos) as [e|].
      * destruct Hpre as (pre & bad & post & -> & -> & _).
        exists (map fst (bad :: post)). now rewrite map_app.
      * exists []. now rewrite app_nil_r.
    + exact L1.
    + exact L2.
    + lia.
    + lia.
    + intros Hnone. rewrite L1, L2, L3, L4, (Hall Hnone).
      rewrite Hnone in Hpre. rewrite Hpre, sumSizes_sizesOf. lia.
    + intros Hsome'. specialize (Hsome Hsome'). lia.
Qed.

(** ** Failures in the local scan *)

Lemma local_failure (B : Browser) (A : string) (s : App)
  (photos : list (File * string)) (e : JsError) :
  picked B = Some photos -> sumSizes photos <= quotaBytes s ->
  firstThrow (canvas B) photos = Some e ->
  let s' := scanLocalFolderPhotosOnly B A s in
  exists pre bad post,
    photos = pre ++ bad :: post /\
    firstThrow (canvas B) pre = None /\
    makePhotoPreviewBlob (canvas B) (fst bad) = Throw e /\
    created s' = created s ++
      map (objectURL B) (seq (List.length (created s)) (List.length pre)) /\
    doneFiles (scanStats s') = Z.of_nat (List.length pre) /\
    albums s' = albums (scanProlog A s) /\
    alerts s' = alerts s ++ shownFor e /\
    consoleErrors s' = consoleErrors s ++ [e] /\
    scanRunning s' = false.
Proof.
  intros Hp Hq He. cbv zeta.
  pose proof (scan_in_quota B A s photos Hp Hq) as H. cbv zeta in H.
  destruct H as (_ & Hst & Hcr & _ & _ & Hrun & H). rewrite He in H.
  destruct H as (Ha & Hal & Hce).
  pose proof (rendered_prefix (canvas B) photos) as Hpre. rewrite He in Hpre.
  destruct Hpre as (pre & bad & post & Hph & Hok & Hnone & Hbad).
  exists pre, bad, post.
  assert (Hlen : List.length (rendered (canvas B) photos) = List.length pre).
  { apply (f_equal (@List.length _)) in Hok. now rewrite !length_map in Hok. }
  repeat (split; [assumption|]).
  split; [now rewrite Hcr, Hlen|].
  split; [|repeat split; assumption].
  rewrite Hst.
  pose proof (loopStats_last (startStats photos) (rendered (canvas B) photos)) as HL.
  cbv zeta in HL. destruct HL as (_ & _ & L3 & _). rewrite L3, Hlen.
  cbn [startStats doneFiles]. lia.
Qed.

Lemma local_success (B : Browser) (A : string) (s : App)
  (photos : list (File * string)) :
  picked B = Some photos -> sumSizes photos <= quotaBytes s ->
  firstThrow (canvas B) photos = None ->
  let s' := scanLocalFolderPhotosOnly B A s in
  created s' = created s ++
    map (objectURL B) (seq (List.length (created s)) (List.length photos)) /\
  alerts s' = alerts s /\
  (forall a, In a (albums s') -> id a = A ->
     map p_name (previewUrls a) = map (fun x => name (fst x)) photos /\
     itemsScanned a = Z.of_nat (List.length photos) /\
     a_originalBytes a = sumSizes photos).
Proof.
  intros Hp Hq He. cbv zeta.
  pose proof (scan_in_quota B A s photos Hp Hq) as H. cbv zeta in H.
  destruct H as (_ & _ & Hcr & _ & _ & _ & H). rewrite He in H.
  destruct H as (Ha & Hal & _).
  pose proof (rendered_length (canvas B) photos) as (_ & Hall & _).
  pose proof (rendered_prefix (canvas B) photos) as Hpre. rewrite He in Hpre.
  split; [now rewrite Hcr, (Hall He)|]. split; [exact Hal|].
  intros a Hin Hid. rewrite Ha in Hin. apply in_map_iff in Hin.
  destruct Hin as (a0 & <- & _). unfold stored in *.
  destruct (String.eqb (id a0) A) eqn:E.
  - cbn [previewUrls itemsScanned a_originalBytes].
    rewrite previewsOf_names.
    pose proof (loopStats_last (startStats photos) (rendered (canvas B) photos)) as HL.
    cbv zeta in HL. destruct HL as (_ & _ & _ & _ & L5). rewrite L5.
    cbn [startStats originalBytes]. rewrite Hpre, sumSizes_sizesOf.
    split; [|split; [reflexivity|lia]].
    transitivity (map name (map fst (rendered (canvas B) photos)));
      [now rewrite map_map|].
    rewrite Hpre. now rewrite map_map.
  - apply String.eqb_neq in E. contradiction.
Qed.

(** ** The quota check of the local scan *)

Lemma local_over_quota (B : Browser) (A : string) (s : App)
  (photos : list (File * string)) :
  picked B = Some photos -> quotaBytes s < sumSizes photos ->
  let s' := scanLocalFolderPhotosOnly B A s in
  alerts s' = alerts s ++ [QuotaExceededAlert (sumSizes photos) (quotaBytes s)] /\
  runRenders B A s = [(0%float, zeroStats)] /\
  created s' = created s /\
  albums s' = albums (scanProlog A s).
Proof.
  intros Hp Hq. cbv zeta. unfold runRenders.
  rewrite (scan_over_quota B A s photos Hp Hq).
  pose proof (idle_end_facts A s _
                (idle_alert A s (QuotaExceededAlert (sumSizes photos) (quotaBytes s))))
    as (H1 & _ & H3 & H4 & _).
  rewrite H1, skipn_length_app. repeat split; assumption.
Qed.

Module UploadFacts.
Import Upload.
Import UploadRun.

(** ** The upload loop of the album page *)

Lemma uploadFile_spec W i file dB dF s r s' :
  uploadFile W i file (dB, dF) s = (r, s') ->
  albumId s' = albumId s /\ myRole s' = myRole s /\ msg s' = msg s /\ busy s' = busy s /\
  calls s' = calls s ++ itemCalls W (albumId s) i file /\
  match r with
  | Ok done' =>
    itemError W (albumId s) i file = None /\
    done' = (dB + size file, dF + 1) /\
    prog s' = mkProg (totalFiles (prog s)) (dF + 1) (totalBytes (prog s)) (dB + size file) /\
    progLog s' = progLog s ++ [prog s']
  | Throw e =>
    itemError W (albumId s) i file = Some e /\
    prog s' = prog s /\ progLog s' = progLog s /\ items s' = items s
  end.
Proof.
  unfold itemCalls, itemError, uploadFile.
  split_item W i file (albumId s);
    intros H; injection H as <- <-; page_fields;
    rewrite <- ?app_assoc; cbn [app]; rewrite ?app_nil_r;
    repeat split; reflexivity.
Qed.

Lemma itemCalls_index W aid i file c :
  In c (itemCalls W aid i file) -> callIndex c = i.
Proof.
  unfold itemCalls, uploadFile.
  split_item W i file aid; cbn [In]; intros H;
    repeat (destruct H as [<-|H]; [reflexivity|]); contradiction.
Qed.

(** A reservation is requested for a file only with the size of the preview
    that was just made of it. *)
Lemma itemCalls_reserve W aid i file j d :
  In (ReserveQuota j d) (itemCalls W aid i file) ->
  j = i /\ exists b, makePreviewBlob W i file 640 0.8%float = Ok b /\ d = blob_size b.
Proof.
  unfold itemCalls, uploadFile.
  split_item W i file aid; cbn [In]; intros H;
    repeat (destruct H as [H|H]; [try discriminate; injection H as <- <-; eauto|]);
    contradiction.
Qed.

(** A preview is uploaded for a file only after its reservation was
    requested and came back without an error. *)
Lemma itemCalls_upload W aid i file j path b :
  In (UploadPreview j path b) (itemCalls W aid i file) ->
  j = i /\ makePreviewBlob W i file 640 0.8%float = Ok b /\
  rpc_reserve_quota W i (blob_size b) = None /\
  In (ReserveQuota i (blob_size b)) (itemCalls W aid i file).
Proof.
  unfold itemCalls, uploadFile.
  split_item W i file aid; cbn [In]; intros H;
    repeat (destruct H as [H|H]; [try discriminate; injection H as <- <- <-; auto 10|]);
    contradiction.
Qed.

Lemma itemCalls_one_reserve W aid i file :
  (List.length (filter isReserve (itemCalls W aid i file)) <= 1)%nat.
Proof.
  unfold itemCalls, uploadFile.
  split_item W i file aid; cbn; lia.
Qed.

(** A refused reservation is the error of the turn. *)
Lemma item_refused W aid i file b qerr :
  In (ReserveQuota i (blob_size b)) (itemCalls W aid i file) ->
  rpc_reserve_quota W i (blob_size b) = Some qerr ->
  itemError W aid i file = Some qerr.
Proof.
  unfold itemCalls, itemError, uploadFile.
  split_item W i file aid; cbn [In fst]; intros H Hr;
    repeat (destruct H as [H|H]; [try discriminate|]); try contradiction.
  all: injection H as H; rewrite <- H in Hr; congruence.
Qed.

Lemma uploadFiles_spec W images : forall i dB dF s r s',
  uploadFiles W i images (dB, dF) s = (r, s') ->
  albumId s' = albumId s /\ myRole s' = myRole s /\ msg s' = msg s /\ busy s' = busy s /\
  calls s' = calls s ++ runCalls W (albumId s) i images /\
  progLog s' = progLog s ++
    progSteps (totalFiles (prog s)) (totalBytes (prog s)) dB dF
              (settled W (albumId s) i images) /\
  prog s' = last (progSteps (totalFiles (prog s)) (totalBytes (prog s)) dB dF
                            (settled W (albumId s) i images)) (prog s) /\
  match r with
  | Ok done' =>
    firstError W (albumId s) i images = None /\
    done' = (dB + sizesOf images, dF + Z.of_nat (List.length images))
  | Throw e => firstError W (albumId s) i images = Some e
  end.
Proof.
  induction images as [|file rest IH]; intros i dB dF s r s' Hrun; cbn [uploadFiles] in Hrun.
  - injection Hrun as <- <-. cbn [runCalls settled progSteps last firstError sizesOf
                                  fold_right List.length].
    rewrite !app_nil_r. repeat split; f_equal; lia.
  - destruct (uploadFile W i file (dB, dF) s) as [[done1|e] s1] eqn:Hone.
    + apply uploadFile_spec in Hone.
      destruct Hone as (Ha & Hr & Hm & Hb & Hc & Herr & -> & Hp & Hl).
      apply IH in Hrun. rewrite Ha, Hr, Hm, Hb, Hc, Hl in Hrun.
      destruct Hrun as (Ra & Rr & Rm & Rb & Rc & Rl & Rp & Rres).
      cbn [runCalls settled firstError]. rewrite Herr. cbn [progSteps].
      rewrite last_cons.
      assert (HtF : totalFiles (prog s1) = totalFiles (prog s)) by now rewrite Hp.
      assert (HtB : totalBytes (prog s1) = totalBytes (prog s)) by now rewrite Hp.
      rewrite HtF, HtB in Rl, Rp.
      repeat (split; [assumption|]).
      split; [now rewrite Rc, <- app_assoc|].
      split; [now rewrite Rl, Hp, <- app_assoc|].
      split; [now rewrite Rp, Hp|].
      destruct r as [done2|e]; [|exact Rres].
      destruct Rres as (Rnone & ->). split; [exact Rnone|].
      rewrite sizesOf_cons. cbn [List.length]. f_equal; lia.
    + injection Hrun as <- <-. apply uploadFile_spec in Hone.
      destruct Hone as (Ha & Hr & Hm & Hb & Hc & Herr & Hp & Hl & _).
      cbn [runCalls settled firstError]. rewrite Herr. cbn [progSteps last].
      rewrite !app_nil_r. repeat split; assumption.
Qed.

Lemma onPickFolder_run W files s :
  myRole s = write -> imagesOf files <> [] ->
  let images := imagesOf files in
  let s' := onPickFolder W files s in
  let done := settled W (albumId s) 0 images in
  calls s' = calls s ++ runCalls W (albumId s) 0 images /\
  progLog s' = progLog s ++ startProg images ::
    progSteps (Z.of_nat (List.length images)) (sumSizes images) 0 0 done /\
  prog s' = last (progSteps (Z.of_nat (List.length images)) (sumSizes images) 0 0 done)
                 (startProg images) /\
  busy s' = false /\
  msg s' = option_map e_message (firstError W (albumId s) 0 images).
Proof.
  intros Hrole Himg. cbv zeta. unfold onPickFolder.
  destruct files as [|f0 files]; [now contradiction Himg|].
  change (myRole (setMsg None s)) with (myRole s). rewrite Hrole.
  fold (imagesOf (f0 :: files)).
  destruct (imagesOf (f0 :: files)) as [|im images] eqn:Him; [now contradiction Himg|].
  destruct (uploadFiles W 0 (im :: images) (0, 0) _) as [r s2] eqn:Hrun.
  apply uploadFiles_spec in Hrun. page_fields.
  destruct Hrun as (Ra & Rr & Rm & Rb & Rc & Rl & Rp & Rres).
  fold (startProg (im :: images)) in *.
  change (totalFiles (startProg (im :: images)))
    with (Z.of_nat (List.length (im :: images))) in *.
  change (totalBytes (startProg (im :: images))) with (sumSizes (im :: images)) in *.
  destruct r as [done'|e].
  - destruct Rres as (-> & _). page_fields.
    rewrite <- app_assoc in Rl. repeat split; assumption.
  - rewrite Rres. page_fields.
    rewrite <- app_assoc in Rl. repeat split; assumption.
Qed.

Lemma onPickFolder_idle W files s :
  myRole s = read \/ imagesOf files = [] ->
  let s' := onPickFolder W files s in
  calls s' = calls s /\ progLog s' = progLog s /\ prog s' = prog s /\ busy s' = busy s.
Proof.
  intros H. cbv zeta. unfold onPickFolder.
  destruct files as [|f0 files]; [repeat split|].
  change (myRole (setMsg None s)) with (myRole s).
  destruct (myRole s) eqn:Hrole; [repeat split|].
  destruct H as [H|H]; [discriminate|].
  fold (imagesOf (f0 :: files)). rewrite H. repeat split.
Qed.

Lemma sumSizes_images (images : list File) : sumSizes images = sizesOf images.
Proof.
  unfold sumSizes.
  assert (H : forall a, fold_left (fun s f => s + size f) images a = a + sizesOf images).
  { induction images as [|f images IH]; intros a; cbn [fold_left].
    - cbn. lia.
    - rewrite IH, sizesOf_cons. lia. }
  rewrite H. lia.
Qed.

(** Every request of a run belongs to the turn of one file, which is not
    later than the first failing one. *)
Lemma runCalls_in W aid images : forall i c,
  In c (runCalls W aid i images) ->
  exists k file,
    nth_error images k = Some file /\
    In c (itemCalls W aid (i + k) file) /\
    (k <= List.length (settled W aid i images))%nat.
Proof.
  induction images as [|f rest IH]; intros i c Hin; cbn [runCalls] in Hin; [contradiction|].
  apply in_app_or in Hin. destruct Hin as [Hin|Hin].
  - exists 0%nat, f. rewrite Nat.add_0_r. cbn [nth_error]. repeat split; [exact Hin|lia].
  - cbn [settled]. destruct (itemError W aid i f); [contradiction|].
    apply IH in Hin. destruct Hin as (k & file & Hk & Hc & Hle).
    exists (S k), file. cbn [nth_error List.length].
    replace (i + S k)%nat with (S i + k)%nat by lia.
    repeat split; [exact Hk|exact Hc|lia].
Qed.

Lemma runCalls_index W aid images i c :
  In c (runCalls W aid i images) ->
  (i <= callIndex c <= i + List.length (settled W aid i images))%nat.
Proof.
  intros Hin. apply runCalls_in in Hin. destruct Hin as (k & file & _ & Hc & Hle).
  apply itemCalls_index in Hc. lia.
Qed.

Lemma reservedFor_none j l :
  (forall c, In c l -> callIndex c <> j) -> reservedFor j l = [].
Proof.
  intros H. unfold reservedFor. induction l as [|c l IH]; [reflexivity|].
  cbn [filter]. assert (Hc : callIndex c <> j) by (apply H; now left).
  apply Nat.eqb_neq in Hc. rewrite Hc, andb_false_r. apply IH.
  intros c' Hin. apply H. now right.
Qed.

Lemma reservedFor_le j l :
  (List.length (reservedFor j l) <= List.length (filter isReserve l))%nat.
Proof.
  unfold reservedFor. induction l as [|c l IH]; [reflexivity|].
  cbn [filter]. destruct (isReserve c), (Nat.eqb (callIndex c) j); cbn [andb List.length]; lia.
Qed.

Lemma runCalls_one_reserve W aid images : forall i j,
  (List.length (reservedFor j (runCalls W aid i images)) <= 1)%nat.
Proof.
  induction images as [|f rest IH]; intros i j; cbn [runCalls]; [cbn; lia|].
  unfold reservedFor. rewrite filter_app, length_app. fold (reservedFor j (itemCalls W aid i f)).
  destruct (Nat.eq_dec j i) as [->|Hne].
  - match goal with |- (_ + List.length ?l <= 1)%nat => assert (Hrest : l = []) end.
    { destruct (itemError W aid i f); [reflexivity|].
      apply reservedFor_none. intros c Hc. apply runCalls_index in Hc. lia. }
    rewrite Hrest. cbn [List.length].
    pose proof (reservedFor_le i (itemCalls W aid i f)).
    pose proof (itemCalls_one_reserve W aid i f). lia.
  - rewrite (reservedFor_none j (itemCalls W aid i f)).
    + cbn [List.length]. destruct (itemError W aid i f); [cbn; lia|]. apply IH.
    + intros c Hc. apply itemCalls_index in Hc. lia.
Qed.

Lemma settled_firstError W aid images : forall i,
  match firstError W aid i images with
  | None => settled W aid i images = images
  | Some e =>
    (List.length (settled W aid i images) < List.length images)%nat /\
    exists bad,
      nth_error images (List.length (settled W aid i images)) = Some bad /\
      itemError W aid (i + List.length (settled W aid i images)) bad = Some e
  end.
Proof.
  induction images as [|f rest IH]; intros i; cbn [firstError settled]; [reflexivity|].
  destruct (itemError W aid i f) as [e|] eqn:He.
  - cbn [List.length]. split; [lia|]. exists f. rewrite Nat.add_0_r. now split.
  - specialize (IH (S i)). destruct (firstError W aid (S i) rest) as [e|].
    + destruct IH as (Hlt & bad & Hn & Hb). cbn [List.length]. split; [lia|].
      exists bad. cbn [nth_error].
      replace (i + S (List.length (settled W aid (S i) rest)))%nat
        with (S i + List.length (settled W aid (S i) rest))%nat by lia.
      now split.
    + now rewrite IH.
Qed.

Lemma settled_prefix W aid images : forall i,
  settled W aid i images = firstn (List.length (settled W aid i images)) images.
Proof.
  induction images as [|f rest IH]; intros i; cbn [settled]; [reflexivity|].
  destruct (itemError W aid i f); [reflexivity|].
  cbn [List.length firstn]. now rewrite <- IH.
Qed.

(** ** The progress of the upload loop *)

Lemma progSteps_nth tF tB done : forall dB dF k p,
  nth_error (progSteps tF tB dB dF done) k = Some p ->
  totalFiles p = tF /\ totalBytes p = tB /\
  doneFiles p = dF + Z.of_nat (S k) /\
  doneBytes p = dB + sizesOf (firstn (S k) done).
Proof.
  induction done as [|f done IH]; intros dB dF k p H; cbn [progSteps] in H.
  - destruct k; discriminate.
  - destruct k as [|k]; cbn [nth_error] in H.
    + injection H as <-. cbn [totalFiles totalBytes doneFiles doneBytes firstn].
      rewrite sizesOf_cons. cbn [sizesOf fold_right]. lia.
    + apply IH in H. destruct H as (H1 & H2 & H3 & H4).
      change (firstn (S (S k)) (f :: done)) with (f :: firstn (S k) done).
      rewrite sizesOf_cons. lia.
Qed.

Lemma progSteps_last tF tB done : forall dB dF p0,
  totalFiles p0 = tF -> totalBytes p0 = tB -> doneFiles p0 = dF -> doneBytes p0 = dB ->
  let p := last (progSteps tF tB dB dF done) p0 in
  totalFiles p = tF /\ totalBytes p = tB /\
  doneFiles p = dF + Z.of_nat (List.length done) /\
  doneBytes p = dB + sizesOf done.
Proof.
  cbv zeta. induction done as [|f done IH]; intros dB dF p0 H1 H2 H3 H4; cbn [progSteps].
  - cbn. lia.
  - rewrite last_cons.
    destruct (IH (dB + size f) (dF + 1) (mkProg tF (dF + 1) tB (dB + size f))
                 eq_refl eq_refl eq_refl eq_refl) as (I1 & I2 & I3 & I4).
    rewrite I1, I2, I3, I4, sizesOf_cons. cbn [List.length]. lia.
Qed.

Lemma progSteps_counters tF tB done : forall dB dF,
  map progCounters (progSteps tF tB dB dF done) =
  map (fun k => (dF + Z.of_nat k, dB + sizesOf (firstn k done))) (seq 1 (List.length done)).
Proof.
  induction done as [|f done IH]; intros dB dF; [reflexivity|].
  cbn [progSteps map List.length seq].
  rewrite IH, <- (seq_shift (List.length done) 1), map_map. f_equal.
  - unfold progCounters. cbn [doneFiles doneBytes firstn].
    rewrite sizesOf_cons. cbn [firstn sizesOf fold_right]. f_equal; lia.
  - apply map_ext. intros k. cbn [firstn]. rewrite sizesOf_cons. f_equal; lia.
Qed.

Lemma nondecreasingProg_steps p0 tF tB done :
  doneFiles p0 = 0 -> doneBytes p0 = 0 ->
  nondecreasingProg (p0 :: progSteps tF tB 0 0 done).
Proof.
  intros Hf Hb i j a b Hij Ha Hb'.
  assert (Hstep : forall k x, nth_error (p0 :: progSteps tF tB 0 0 done) (S k) = Some x ->
            doneFiles x = Z.of_nat (S k) /\ doneBytes x = sizesOf (firstn (S k) done)).
  { intros k x Hx. cbn [nth_error] in Hx. apply progSteps_nth in Hx. lia. }
  destruct i as [|i]; destruct j as [|j]; try lia.
  - cbn [nth_error] in Ha, Hb'. injection Ha as <-. injection Hb' as <-. lia.
  - cbn [nth_error] in Ha. injection Ha as <-.
    destruct (Hstep _ _ Hb') as [-> ->].
    pose proof (sizesOf_nonneg (firstn (S j) done)). lia.
  - destruct (Hstep _ _ Ha) as [-> ->], (Hstep _ _ Hb') as [-> ->].
    pose proof (sizesOf_firstn_le done (S i) (S j) ltac:(lia)). lia.
Qed.

Lemma runCalls_item W aid images : forall i k file c,
  nth_error images k = Some file ->
  (k <= List.length (settled W aid i images))%nat ->
  In c (itemCalls W aid (i + k) file) ->
  In c (runCalls W aid i images).
Proof.
  induction images as [|f rest IH]; intros i k file c Hk Hle Hc; [destruct k; discriminate|].
  cbn [runCalls settled] in *. apply in_or_app. destruct k as [|k].
  - cbn [nth_error] in Hk. injection Hk as ->. rewrite Nat.add_0_r in Hc. now left.
  - right. destruct (itemError W aid i f); [cbn [List.length] in Hle; lia|].
    cbn [nth_error List.length] in Hk, Hle.
    apply (IH (S i) k file); [exact Hk|lia|].
    now replace (S i + k)%nat with (i + S k)%nat by lia.
Qed.

(** ** Claims about the upload loop *)

Lemma newCalls_cases W files s :
  newCalls W files s = [] \/
  (myRole s = write /\ imagesOf files <> [] /\
   newCalls W files s = runCalls W (albumId s) 0 (imagesOf files)).
Proof.
  unfold newCalls.
  destruct (myRole s) eqn:Hrole.
  - left. destruct (onPickFolder_idle W files s (or_introl Hrole)) as (-> & _).
    now rewrite skipn_all.
  - destruct (imagesOf files) as [|im images] eqn:Him.
    + left. destruct (onPickFolder_idle W files s (or_intror Him)) as (-> & _).
      now rewrite skipn_all.
    + right. split; [reflexivity|]. split; [discriminate|].
      assert (Hne : imagesOf files <> []) by now rewrite Him.
      destruct (onPickFolder_run W files s Hrole Hne) as (-> & _).
      rewrite skipn_length_app. now rewrite Him.
Qed.

(** Every reservation is requested for one image of the batch, with the
    size of the preview made of that image. *)
Lemma upload_reservations W files s i d :
  In (ReserveQuota i d) (newCalls W files s) ->
  exists file b,
    nth_error (imagesOf files) i = Some file /\
    makePreviewBlob W i file 640 0.8%float = Ok b /\
    d = blob_size b.
Proof.
  intros Hin. destruct (newCalls_cases W files s) as [H|(_ & _ & H)]; rewrite H in Hin;
    [contradiction|].
  apply runCalls_in in Hin. destruct Hin as (k & file & Hk & Hc & _).
  cbn [Nat.add] in Hc. apply itemCalls_reserve in Hc. destruct Hc as (-> & b & Hb & ->).
  exists file, b. now repeat split.
Qed.

Lemma upload_one_reservation W files s j :
  (List.length (reservedFor j (newCalls W files s)) <= 1)%nat.
Proof.
  destruct (newCalls_cases W files s) as [->|(_ & _ & ->)]; [cbn; lia|].
  apply runCalls_one_reserve.
Qed.

(** A preview is uploaded only for a file whose reservation was requested
    in the same run and came back without an error. *)
Lemma upload_after_reserve W files s i path b :
  In (UploadPreview i path b) (newCalls W files s) ->
  rpc_reserve_quota W i (blob_size b) = None /\
  In (ReserveQuota i (blob_size b)) (newCalls W files s).
Proof.
  intros Hin. destruct (newCalls_cases W files s) as [H|(_ & _ & H)]; rewrite H in *;
    [contradiction|].
  apply runCalls_in in Hin. destruct Hin as (k & file & Hk & Hc & Hle).
  cbn [Nat.add] in Hc. apply itemCalls_upload in Hc. destruct Hc as (-> & _ & Hq & Hr).
  split; [exact Hq|]. eapply runCalls_item; eassumption.
Qed.

(** The first failing file ends the run. *)
Lemma upload_failure W files s e :
  myRole s = write ->
  firstError W (albumId s) 0 (imagesOf files) = Some e ->
  let s' := onPickFolder W files s in
  let done := settled W (albumId s) 0 (imagesOf files) in
  (List.length done < List.length (imagesOf files))%nat /\
  (exists bad, nth_error (imagesOf files) (List.length done) = Some bad /\
               itemError W (albumId s) (List.length done) bad = Some e) /\
  (forall c, In c (newCalls W files s) -> (callIndex c <= List.length done)%nat) /\
  doneFiles (prog s') = Z.of_nat (List.length done) /\
  totalFiles (prog s') = Z.of_nat (List.length (imagesOf files)) /\
  msg s' = Some (e_message e) /\
  busy s' = false.
Proof.
  intros Hrole He. cbv zeta.
  assert (Hne : imagesOf files <> []).
  { intros H. rewrite H in He. discriminate. }
  destruct (onPickFolder_run W files s Hrole Hne) as (Hc & _ & Hp & Hb & Hm).
  pose proof (settled_firstError W (albumId s) (imagesOf files) 0%nat) as Hs.
  rewrite He in Hs. destruct Hs as (Hlt & bad & Hn & Hbad).
  split; [exact Hlt|]. split; [now exists bad|].
  split.
  { intros c Hin. unfold newCalls in Hin. rewrite Hc, skipn_length_app in Hin.
    apply runCalls_index in Hin. lia. }
  rewrite Hp, Hm, He.
  destruct (progSteps_last (Z.of_nat (List.length (imagesOf files))) (sumSizes (imagesOf files))
              (settled W (albumId s) 0 (imagesOf files)) 0 0 (startProg (imagesOf files))
              eq_refl eq_refl eq_refl eq_refl) as (P1 & _ & P3 & _).
  repeat split; [lia|exact P1|exact Hb].
Qed.

(** The log of the progress in one run: the counters never go down; each
    settled file adds one file and its size; the totals are reached exactly
    when no file fails. *)
Lemma upload_counters W files s :
  nondecreasingProg (newProgs W files s) /\
  (myRole s = write -> imagesOf files <> [] ->
   let images := imagesOf files in
   let done := settled W (albumId s) 0 images in
   let fin := prog (onPickFolder W files s) in
   map progCounters (newProgs W files s) =
     (0, 0) :: map (fun k => (Z.of_nat k, sizesOf (firstn k images)))
                   (seq 1 (List.length done)) /\
   totalFiles fin = Z.of_nat (List.length images) /\
   totalBytes fin = sizesOf images /\
   doneFiles fin = Z.of_nat (List.length done) /\
   doneBytes fin = sizesOf done /\
   (firstError W (albumId s) 0 images = None ->
    doneFiles fin = totalFiles fin /\ doneBytes fin = totalBytes fin) /\
   (firstError W (albumId s) 0 images <> None -> doneFiles fin < totalFiles fin)).
Proof.
  split.
  - unfold newProgs. destruct (myRole s) eqn:Hrole.
    + destruct (onPickFolder_idle W files s (or_introl Hrole)) as (_ & -> & _).
      rewrite skipn_all. intros i j a b _ Ha. destruct i; discriminate.
    + destruct (imagesOf files) as [|im images] eqn:Him.
      * destruct (onPickFolder_idle W files s (or_intror Him)) as (_ & -> & _).
        rewrite skipn_all. intros i j a b _ Ha. destruct i; discriminate.
      * assert (Hne : imagesOf files <> []) by now rewrite Him.
        destruct (onPickFolder_run W files s Hrole Hne) as (_ & -> & _).
        rewrite skipn_length_app. now apply nondecreasingProg_steps.
  - intros Hrole Hne. cbv zeta.
    destruct (onPickFolder_run W files s Hrole Hne) as (_ & Hl & Hp & _).
    unfold newProgs. rewrite Hl, skipn_length_app, Hp.
    destruct (progSteps_last (Z.of_nat (List.length (imagesOf files))) (sumSizes (imagesOf files))
                (settled W (albumId s) 0 (imagesOf files)) 0 0 (startProg (imagesOf files))
                eq_refl eq_refl eq_refl eq_refl) as (P1 & P2 & P3 & P4).
    pose proof (settled_firstError W (albumId s) (imagesOf files) 0%nat) as Hs.
    pose proof (settled_prefix W (albumId s) (imagesOf files) 0%nat) as Hpre.
    split; [|split; [exact P1|split; [now rewrite P2, sumSizes_images|
                                       split; [lia|split; [lia|split]]]]].
    + cbn [map]. rewrite progSteps_counters. f_equal.
      apply map_ext_in. intros k Hk. apply in_seq in Hk. cbn [Z.add]. f_equal.
      rewrite Hpre at 1. rewrite firstn_firstn. f_equal. f_equal. lia.
    + intros Hnone. rewrite Hnone in Hs.
      rewrite P1, P2, P3, P4, Hs, sumSizes_images. lia.
    + intros Hsome. destruct (firstError W (albumId s) 0 (imagesOf files));
        [|now contradiction Hsome].
      destruct Hs as (Hlt & _). lia.
Qed.

End UploadFacts.

(** ** Insertion-ordered maps keyed through a function of the value *)

Section JsMapFacts.

Variable V : Type.
Variable key : V -> string.

Lemma map_set_keys (k : string) (v : V) (m : Profile.JsMap V) :
  forall k', In k' (map fst (Profile.map_set k v m)) <-> k' = k \/ In k' (map fst m).
Proof.
  induction m as [|[k0 v0] m IH]; intros k'; cbn [Profile.map_set map fst In].
  - intuition congruence.
  - destruct (String.eqb k0 k) eqn:E; cbn [map fst In].
    + apply String.eqb_eq in E. subst k0. intuition congruence.
    + rewrite IH. intuition congruence.
Qed.

Lemma map_set_NoDup (k : string) (v : V) (m : Profile.JsMap V) :
  NoDup (map fst m) -> NoDup (map fst (Profile.map_set k v m)).
Proof.
  induction m as [|[k0 v0] m IH]; intros Hnd; cbn [Profile.map_set map fst].
  - repeat constructor. intros [].
  - cbn [map fst] in Hnd. inversion Hnd as [|x l Hnotin Hnd']; subst.
    destruct (String.eqb k0 k) eqn:E; cbn [map fst].
    + apply String.eqb_eq in E. subst k0. now constructor.
    + constructor; [|now apply IH].
      rewrite map_set_keys. apply String.eqb_neq in E. intuition congruence.
Qed.

Lemma map_set_In (k : string) (v : V) (m : Profile.JsMap V) :
  NoDup (map fst m) ->
  forall k' v', In (k', v') (Profile.map_set k v m) <->
                (k' = k /\ v' = v) \/ (k' <> k /\ In (k', v') m).
Proof.
  induction m as [|[k0 v0] m IH]; intros Hnd k' v'; cbn [Profile.map_set In].
  - split; [intros [H|[]]; left; now injection H|intros [[-> ->]|[_ []]]; now left].
  - cbn [map fst] in Hnd. inversion Hnd as [|x l Hnotin Hnd']; subst.
    destruct (String.eqb k0 k) eqn:E; cbn [In].
    + apply String.eqb_eq in E. subst k0. split.
      * intros [H|H]; [injection H as <- <-; now left|].
        right. split; [|now right]. intros ->. apply Hnotin.
        apply in_map_iff. now exists (k, v').
      * intros [[-> ->]|[Hne [H|H]]]; [now left| |now right].
        injection H as <- _. now contradiction Hne.
    + apply String.eqb_neq in E. rewrite (IH Hnd'). split.
      * intros [H|[H|H]]; [injection H as <- <-; right; split; [congruence|now left]
                          |now left|right; split; [tauto|right; tauto]].
      * intros [H|[Hne [H|H]]]; [right; now left|now left|right; right; tauto].
Qed.

Lemma keyed_set (a : V) (m : Profile.JsMap V) :
  keyed key m -> keyed key (Profile.map_set (key a) a m).
Proof.
  intros [Hnd Hk]. split; [now apply map_set_NoDup|].
  intros k v Hin. apply (map_set_In _ _ _ Hnd) in Hin.
  destruct Hin as [[-> ->]|[_ Hin]]; [reflexivity|now apply Hk].
Qed.

Lemma lastOf_snoc (a b : V) (l : list V) :
  lastOf key b (l ++ [a]) <-> b = a \/ (key b <> key a /\ lastOf key b l).
Proof.
  split.
  - intros (before & after & Heq & Hlast).
    destruct after as [|x after] using rev_ind.
    + apply app_inj_tail in Heq. left. symmetry. apply Heq.
    + clear IHafter. rewrite app_comm_cons, app_assoc in Heq.
      apply app_inj_tail in Heq. destruct Heq as [Hl <-].
      destruct (string_dec (key b) (key a)) as [Heq|Hne].
      * exfalso. apply (Hlast a); [apply in_or_app; right; now left|congruence].
      * right. split; [exact Hne|]. exists before, after. split; [exact Hl|].
        intros c Hc. apply Hlast. apply in_or_app. now left.
  - intros [->|[Hne (before & after & -> & Hlast)]].
    + exists l, []. split; [reflexivity|intros c []].
    + exists before, (after ++ [a]). split; [now rewrite <- app_assoc|].
      intros c Hc. apply in_app_or in Hc. destruct Hc as [Hc|[<-|[]]]; [now apply Hlast|].
      congruence.
Qed.

(** Setting every element of [l] under its key, in order, keeps the map
    keyed and leaves under each key the last element that has it. *)
Lemma fold_set_last (l : list V) : forall (m : Profile.JsMap V) (seen : list V),
  keyed key m ->
  (forall b, In (key b, b) m <-> lastOf key b seen) ->
  let m' := fold_left (fun m a => Profile.map_set (key a) a m) l m in
  keyed key m' /\ forall b, In (key b, b) m' <-> lastOf key b (seen ++ l).
Proof.
  induction l as [|a l IH]; intros m seen Hk Hm; cbn [fold_left]; cbv zeta.
  - rewrite app_nil_r. now split.
  - replace (seen ++ a :: l) with ((seen ++ [a]) ++ l) by now rewrite <- app_assoc.
    apply IH; [now apply keyed_set|].
    intros b. rewrite lastOf_snoc, (map_set_In _ _ _ (proj1 Hk)), <- Hm.
    split.
    + intros [[_ ->]|[Hne Hin]]; [now left|right; now split].
    + intros [->|[Hne Hin]]; [now left|right; now split].
Qed.

(** Every key that occurs in [l] has a last element. *)
Lemma lastOf_exists (l : list V) : forall b,
  In b l -> exists a, key a = key b /\ lastOf key a l.
Proof.
  induction l as [|x l IH] using rev_ind; intros b Hb; [contradiction|].
  destruct (string_dec (key x) (key b)) as [E|E].
  - exists x. split; [exact E|]. apply lastOf_snoc. now left.
  - apply in_app_or in Hb. destruct Hb as [Hb|[->|[]]]; [|congruence].
    destruct (IH b Hb) as (a & Ha & Hlast). exists a. split; [exact Ha|].
    apply lastOf_snoc. right. split; [congruence|exact Hlast].
Qed.

End JsMapFacts.

(** ** The profile page *)

(** The shared album that a row shows, when the row carries an album. *)
Lemma sharedAlbums_app (l k : list Profile.MemberRow) :
  Profile.sharedAlbums (l ++ k) = Profile.sharedAlbums l ++ Profile.sharedAlbums k.
Proof. apply flat_map_app. Qed.

Lemma sharedAlbums_In (data : list Profile.MemberRow) (a : Profile.SharedAlbum) :
  In a (Profile.sharedAlbums data) <->
  exists row, In row data /\ Profile.albums row = Some (Profile.album a) /\
              Profile.my_role a = Some (Profile.role row).
Proof.
  unfold Profile.sharedAlbums. rewrite in_flat_map. split.
  - intros (row & Hrow & Hin). exists row.
    destruct (Profile.albums row) as [alb|]; [|contradiction].
    destruct Hin as [<-|[]]. now repeat split.
  - intros (row & Hrow & Halb & Hrole). exists row. split; [exact Hrow|].
    rewrite Halb. left. destruct a as [alb r]. cbn in *. now subst r.
Qed.

(** A place in the list of shared albums is the place of one row. *)
Lemma sharedAlbums_split (data : list Profile.MemberRow) :
  forall (bef aft : list Profile.SharedAlbum) (a : Profile.SharedAlbum),
  Profile.sharedAlbums data = bef ++ a :: aft ->
  exists before row after,
    data = before ++ row :: after /\
    Profile.sharedAlbums before = bef /\
    Profile.albums row = Some (Profile.album a) /\
    Profile.my_role a = Some (Profile.role row) /\
    Profile.sharedAlbums after = aft.
Proof.
  induction data as [|r data IH]; intros bef aft a Heq.
  - destruct bef; discriminate.
  - change (Profile.sharedAlbums (r :: data))
      with (match Profile.albums r with
            | Some alb => [Profile.mkShared alb (Some (Profile.role r))]
            | None => []
            end ++ Profile.sharedAlbums data) in Heq.
    destruct (Profile.albums r) as [alb|] eqn:Halb; cbn [app] in Heq.
    + destruct bef as [|b bef]; cbn [app] in Heq; injection Heq as Hhead Htail.
      * exists [], r, data. subst a. cbn. now rewrite Halb.
      * destruct (IH _ _ _ Htail) as (before & row & after & -> & Hb & Hr & Hm & Ha).
        exists (r :: before), row, after. repeat split; try assumption.
        change (Profile.sharedAlbums (r :: before))
          with (match Profile.albums r with
                | Some alb => [Profile.mkShared alb (Some (Profile.role r))]
                | None => []
                end ++ Profile.sharedAlbums before).
        rewrite Halb. cbn [app]. now rewrite Hhead, Hb.
    + destruct (IH _ _ _ Heq) as (before & row & after & -> & Hb & Hr & Hm & Ha).
      exists (r :: before), row, after. repeat split; try assumption.
      change (Profile.sharedAlbums (r :: before))
        with (match Profile.albums r with
              | Some alb => [Profile.mkShared alb (Some (Profile.role r))]
              | None => []
              end ++ Profile.sharedAlbums before).
      now rewrite Halb.
Qed.

(** C10. Whatever membership rows come back, the list given to [setShared]
    has no two entries with the same album id. Its entries are exactly the
    albums of the rows that carry one and are the last row of the data for
    that album id, each with the role of that row; so every row that
    carries an album has an entry for the album's id, and of several rows
    for one id the last one decides the album data and the role shown. *)
Theorem shared_unique (data : list Profile.MemberRow) :
  NoDup (map (fun a => Profile.id (Profile.album a)) (Profile.shared data)) /\
  (forall a, In a (Profile.shared data) <->
     exists before row after alb,
       data = before ++ row :: after /\
       Profile.albums row = Some alb /\
       a = Profile.mkShared alb (Some (Profile.role row)) /\
       forall later alb', In later after -> Profile.albums later = Some alb' ->
                          Profile.id alb' <> Profile.id alb) /\
  (forall row alb, In row data -> Profile.albums row = Some alb ->
     exists a, In a (Profile.shared data) /\ Profile.id (Profile.album a) = Profile.id alb).
Proof.
  set (key := fun a => Profile.id (Profile.album a)).
  assert (Hinit : keyed key (@nil (string * Profile.SharedAlbum))).
  { split; [constructor|intros k v []]. }
  assert (Hnone : forall b, In (key b, b) [] <-> lastOf key b []).
  { intros b. split; [intros []|]. intros (before & after & Heq & _).
    destruct before; discriminate. }
  pose proof (fold_set_last Profile.SharedAlbum key (Profile.sharedAlbums data) [] []
                Hinit Hnone) as H.
  cbv zeta in H. cbn [app] in H.
  change (fold_left (fun m a => Profile.map_set (key a) a m) (Profile.sharedAlbums data) [])
    with (Profile.uniq (Profile.sharedAlbums data)) in H.
  destruct H as [[Hnd Hk] Hlast].
  assert (Hin : forall a, In a (Profile.shared data) <->
                          lastOf key a (Profile.sharedAlbums data)).
  { intros a. rewrite <- Hlast. unfold Profile.shared, Profile.map_values.
    rewrite in_map_iff. split.
    - intros ([k v] & <- & Hkv). cbn [snd]. now rewrite (Hk _ _ Hkv).
    - intros Hkv. now exists (key a, a). }
  split; [|split].
  - unfold Profile.shared, Profile.map_values. rewrite map_map.
    erewrite map_ext_in; [exact Hnd|].
    intros [k v] Hkv. cbn [snd fst]. now apply Hk.
  - intros a. rewrite Hin. split.
    + intros (bef & aft & Heq & Hlater).
      destruct (sharedAlbums_split _ _ _ _ Heq)
        as (before & row & after & Hdata & _ & Halb & Hrole & Haft).
      exists before, row, after, (Profile.album a). repeat split; try assumption.
      * destruct a as [alb r]. cbn in *. now subst r.
      * intros later alb' Hl Halb' E.
        apply (Hlater (Profile.mkShared alb' (Some (Profile.role later)))); [|exact E].
        rewrite <- Haft. apply sharedAlbums_In. exists later. now repeat split.
    + intros (before & row & after & alb & -> & Halb & -> & Hlater).
      exists (Profile.sharedAlbums before), (Profile.sharedAlbums after). split.
      * rewrite sharedAlbums_app.
        change (Profile.sharedAlbums (row :: after))
          with (match Profile.albums row with
                | Some alb => [Profile.mkShared alb (Some (Profile.role row))]
                | None => []
                end ++ Profile.sharedAlbums after).
        now rewrite Halb.
      * intros b Hb. apply sharedAlbums_In in Hb. destruct Hb as (later & Hl & Hb & _).
        unfold key. cbn [Profile.album]. now apply (Hlater later).
  - intros row alb Hrow Halb.
    destruct (lastOf_exists Profile.SharedAlbum key (Profile.sharedAlbums data)
                (Profile.mkShared alb (Some (Profile.role row)))) as (a & Ha & Hl).
    { apply sharedAlbums_In. exists row. now repeat split. }
    exists a. split; [now apply Hin|exact Ha].
Qed.

(** ** The quota account of the backend *)

Lemma reserve_within_limit (delta : Z) (q q' : Quota.QuotaAccount) :
  Quota.reserve delta q = Some q' ->
  Quota.used_bytes q' = Quota.used_bytes q + delta /\
  Quota.limit_bytes q' = Quota.limit_bytes q /\
  Quota.used_bytes q' <= Quota.limit_bytes q'.
Proof.
  unfold Quota.reserve. intros H.
  destruct (Quota.used_bytes q + delta <=? Quota.limit_bytes q) eqn:E; [|discriminate].
  injection H as <-. apply Z.leb_le in E. cbn. lia.
Qed.

Lemma reservations_within_limit (deltas : list Z) : forall q,
  Quota.used_bytes q <= Quota.limit_bytes q ->
  Forall (fun q' => Quota.used_bytes q' <= Quota.limit_bytes q')
         (Quota.reservations deltas q).
Proof.
  induction deltas as [|d deltas IH]; intros q Hq; cbn [Quota.reservations]; [constructor|].
  destruct (Quota.reserve d q) as [q'|] eqn:E.
  - apply reserve_within_limit in E. constructor; [lia|]. apply IH. lia.
  - constructor; [exact Hq|]. now apply IH.
Qed.

(** ** The claims that concern both the local scan and the upload *)

(** C1, amended. The local scan checks the room itself, once per scan: a
    batch larger than [quotaBytes] (in original bytes) is refused with an
    alert before anything is rendered or stored; a batch within it that
    renders entirely is stored, so that the scanned album then holds at most
    [quotaBytes] original bytes. Nothing is accumulated across scans. The
    album page makes no check of its own: a preview is uploaded only after
    the backend's [reserve_quota] was called for it in the same run and
    returned no error. *)
Theorem quota_checks :
  (forall (B : Browser) (A : string) (s : App) (photos : list (File * string)),
     picked B = Some photos ->
     let s' := scanLocalFolderPhotosOnly B A s in
     (quotaBytes s < sumSizes photos ->
      alerts s' = alerts s ++ [QuotaExceededAlert (sumSizes photos) (quotaBytes s)] /\
      created s' = created s /\
      albums s' = albums (scanProlog A s)) /\
     (sumSizes photos <= quotaBytes s -> firstThrow (canvas B) photos = None ->
      alerts s' = alerts s /\
      forall a, In a (albums s') -> id a = A ->
        a_originalBytes a = sumSizes photos /\ a_originalBytes a <= quotaBytes s')) /\
  (forall (W : Upload.World) (files : list File) (s : Upload.Page)
          (i : nat) (path : string) (b : Blob),
     In (Upload.UploadPreview i path b) (UploadRun.newCalls W files s) ->
     Upload.rpc_reserve_quota W i (blob_size b) = None /\
     In (Upload.ReserveQuota i (blob_size b)) (UploadRun.newCalls W files s)).
Proof.
  split.
  - intros B A s photos Hp. cbv zeta. split.
    + intros Hq. destruct (local_over_quota B A s photos Hp Hq) as (H1 & _ & H3 & H4).
      now repeat split.
    + intros Hq He.
      destruct (local_success B A s photos Hp Hq He) as (_ & Hal & Ha).
      split; [exact Hal|]. intros a Hin Hid.
      destruct (Ha a Hin Hid) as (_ & _ & Ho). split; [exact Ho|].
      destruct (scan_in_quota B A s photos Hp Hq) as (_ & _ & _ & _ & Hquota & _).
      rewrite Ho, Hquota. exact Hq.
  - intros W files s i path b. apply UploadFacts.upload_after_reserve.
Qed.

(** C3, amended. A failing item ends the run, in the local scan and in the
    upload alike. In the local scan the photos before the failing one are
    rendered and counted, the failing photo and those after it are not, no
    preview at all is stored in the album, and the error is logged and,
    unless it is named ["AbortError"], shown once; when no photo fails,
    every photo is rendered and stored. In the upload no request is sent
    for a file after the failing one, the files before it are counted, and
    the message of the error is shown. *)
Theorem item_failure_ends_run :
  (forall (B : Browser) (A : string) (s : App) (photos : list (File * string)),
     picked B = Some photos -> sumSizes photos <= quotaBytes s ->
     let s' := scanLocalFolderPhotosOnly B A s in
     (forall e, firstThrow (canvas B) photos = Some e ->
        exists pre bad post,
          photos = pre ++ bad :: post /\
          firstThrow (canvas B) pre = None /\
          makePhotoPreviewBlob (canvas B) (fst bad) = Throw e /\
          created s' = created s ++
            map (objectURL B) (seq (List.length (created s)) (List.length pre)) /\
          doneFiles (scanStats s') = Z.of_nat (List.length pre) /\
          albums s' = albums (scanProlog A s) /\
          alerts s' = alerts s ++ shownFor e /\
          consoleErrors s' = consoleErrors s ++ [e] /\
          scanRunning s' = false) /\
     (firstThrow (canvas B) photos = None ->
        created s' = created s ++
          map (objectURL B) (seq (List.length (created s)) (List.length photos)) /\
        alerts s' = alerts s /\
        forall a, In a (albums s') -> id a = A ->
          map p_name (previewUrls a) = map (fun x => name (fst x)) photos /\
          itemsScanned a = Z.of_nat (List.length photos) /\
          a_originalBytes a = sumSizes photos)) /\
  (forall (W : Upload.World) (files : list File) (s : Upload.Page) (e : JsError),
     Upload.myRole s = Upload.write ->
     UploadRun.firstError W (Upload.albumId s) 0 (UploadRun.imagesOf files) = Some e ->
     let s' := Upload.onPickFolder W files s in
     let done := UploadRun.settled W (Upload.albumId s) 0 (UploadRun.imagesOf files) in
     (List.length done < List.length (UploadRun.imagesOf files))%nat /\
     (exists bad,
        nth_error (UploadRun.imagesOf files) (List.length done) = Some bad /\
        UploadRun.itemError W (Upload.albumId s) (List.length done) bad = Some e) /\
     (forall c, In c (UploadRun.newCalls W files s) ->
                (UploadRun.callIndex c <= List.length done)%nat) /\
     Upload.doneFiles (Upload.prog s') = Z.of_nat (List.length done) /\
     Upload.totalFiles (Upload.prog s') = Z.of_nat (List.length (UploadRun.imagesOf files)) /\
     Upload.msg s' = Some (e_message e) /\
     Upload.busy s' = false).
Proof.
  split.
  - intros B A s photos Hp Hq. cbv zeta. split.
    + intros e He. exact (local_failure B A s photos e Hp Hq He).
    + intros He. exact (local_success B A s photos Hp Hq He).
  - intros W files s e Hrole He. exact (UploadFacts.upload_failure W files s e Hrole He).
Qed.

(** C4, amended. On the album page every reservation is requested for one
    image of the batch with the size of the preview just made of it, at
    most once per image. The local scan makes no reservation: it compares
    the sum of the original sizes of the whole batch with [quotaBytes] once,
    before rendering anything; a batch over that sum is refused, and a batch
    within it is rendered up to its first failing photo whatever the sizes
    of the previews. *)
Theorem quota_amounts :
  (forall (W : Upload.World) (files : list File) (s : Upload.Page) (i : nat) (d : Z),
     In (Upload.ReserveQuota i d) (UploadRun.newCalls W files s) ->
     exists file b,
       nth_error (UploadRun.imagesOf files) i = Some file /\
       Upload.makePreviewBlob W i file 640 0.8%float = Ok b /\
       d = blob_size b) /\
  (forall (W : Upload.World) (files : list File) (s : Upload.Page) (j : nat),
     (List.length (UploadRun.reservedFor j (UploadRun.newCalls W files s)) <= 1)%nat) /\
  (forall (B : Browser) (A : string) (s : App) (photos : list (File * string)),
     picked B = Some photos ->
     let s' := scanLocalFolderPhotosOnly B A s in
     (quotaBytes s < sumSizes photos ->
      alerts s' = alerts s ++ [QuotaExceededAlert (sumSizes photos) (quotaBytes s)] /\
      runRenders B A s = [(0%float, zeroStats)] /\
      created s' = created s /\
      albums s' = albums (scanProlog A s)) /\
     (sumSizes photos <= quotaBytes s ->
      created s' = created s ++
        map (objectURL B) (seq (List.length (created s))
                               (List.length (rendered (canvas B) photos))) /\
      alerts s' = alerts s ++ match firstThrow (canvas B) photos with
                              | None => []
                              | Some e => shownFor e
                              end)).
Proof.
  split; [|split].
  - intros W files s i d. apply UploadFacts.upload_reservations.
  - intros W files s j. apply UploadFacts.upload_one_reservation.
  - intros B A s photos Hp. cbv zeta. split.
    + intros Hq. exact (local_over_quota B A s photos Hp Hq).
    + intros Hq. pose proof (scan_in_quota B A s photos Hp Hq) as H. cbv zeta in H.
      destruct H as (_ & _ & Hcr & _ & _ & _ & H). split; [exact Hcr|].
      destruct (firstThrow (canvas B) photos) as [e|].
      * apply H.
      * rewrite app_nil_r. apply H.
Qed.

(** C5, amended. In every run of the local scan and of the upload the
    counters of files and bytes done never go down. Every item that is
    settled (rendered in the scan; skipped or cataloged in the upload)
    adds one file and its size, once, after its last step; an item that
    fails adds nothing and ends the run. So the counters equal the totals
    at the end exactly for the runs in which no item fails. *)
Theorem progress_counters :
  (forall (B : Browser) (A : string) (s : App),
     nondecreasing (map snd (runRenders B A s)) /\
     (forall photos, picked B = Some photos -> sumSizes photos <= quotaBytes s ->
        let ok := map fst (rendered (canvas B) photos) in
        let fin := scanStats (scanLocalFolderPhotosOnly B A s) in
        map counters (map snd (runRenders B A s)) =
          (0, 0) :: (0, 0) :: map (fun k => (Z.of_nat k, sizesOf (firstn k ok)))
                                  (seq 1 (List.length ok)) /\
        (exists rest, map fst photos = ok ++ rest) /\
        totalFiles fin = Z.of_nat (List.length photos) /\
        totalBytes fin = sumSizes photos /\
        doneFiles fin = Z.of_nat (List.length ok) /\
        doneBytes fin = sizesOf ok /\
        (firstThrow (canvas B) photos = None ->
         doneFiles fin = totalFiles fin /\ doneBytes fin = totalBytes fin) /\
        (firstThrow (canvas B) photos <> None -> doneFiles fin < totalFiles fin))) /\
  (forall (W : Upload.World) (files : list File) (s : Upload.Page),
     UploadRun.nondecreasingProg (UploadRun.newProgs W files s) /\
     (Upload.myRole s = Upload.write -> UploadRun.imagesOf files <> [] ->
      let images := UploadRun.imagesOf files in
      let done := UploadRun.settled W (Upload.albumId s) 0 images in
      let fin := Upload.prog (Upload.onPickFolder W files s) in
      map UploadRun.progCounters (UploadRun.newProgs W files s) =
        (0, 0) :: map (fun k => (Z.of_nat k, sizesOf (firstn k images)))
                      (seq 1 (List.length done)) /\
      Upload.totalFiles fin = Z.of_nat (List.length images) /\
      Upload.totalBytes fin = sizesOf images /\
      Upload.doneFiles fin = Z.of_nat (List.length done) /\
      Upload.doneBytes fin = sizesOf done /\
      (UploadRun.firstError W (Upload.albumId s) 0 images = None ->
       Upload.doneFiles fin = Upload.totalFiles fin /\
       Upload.doneBytes fin = Upload.totalBytes fin) /\
      (UploadRun.firstError W (Upload.albumId s) 0 images <> None ->
       Upload.doneFiles fin < Upload.totalFiles fin))).
Proof.
  split.
  - intros B A s. exact (local_counters B A s).
  - intros W files s. exact (UploadFacts.upload_counters W files s).
Qed.

(** ** The claims on sample inputs *)

Example Math_round_samples :
  Math_round 2.5%float = 3%float /\ Math_round (-2.5)%float = (-2)%float /\
  Math_round 0.49999999999999994%float = 0%float /\
  Math_round 14.499999999999998%float = 14%float /\
  Math_round 99.5%float = 100%float /\ Math_round 7%float = 7%float.
Proof. repeat split; vm_compute; reflexivity. Qed.

Example scanPct_samples :
  scanPct 1 2 = 50%float /\ scanPct 1 3 = 33%float /\ scanPct 2 3 = 67%float /\
  scanPct 29 200 = 14%float /\ scanPct 0 0 = 0%float /\ scanPct 5 5 = 100%float /\
  scanPct 0 7 = 0%float.
Proof. repeat split; vm_compute; reflexivity. Qed.

(** On image sides the exact rounding and the rounding on doubles agree. *)
Example round_div_agrees :
  map (fun pq => num (round_div (fst pq) (snd pq)))
      [(2001 * 1280, 3000); (1280, 5000); (1 * 1280, 2560); (3 * 1280, 2560);
       (4000 * 1280, 6000); (1365 * 1280, 2048)]
  = map (fun pq => round_div_double (fst pq) (snd pq))
      [(2001 * 1280, 3000); (1280, 5000); (1 * 1280, 2560); (3 * 1280, 2560);
       (4000 * 1280, 6000); (1365 * 1280, 2048)].
Proof. vm_compute. reflexivity. Qed.

Example scaledSize_samples :
  scaledSize 1280 3000 2001 = (1280, 854) /\ scaledSize 1280 2001 3000 = (854, 1280) /\
  scaledSize 1280 800 600 = (800, 600) /\ scaledSize 1280 2000 2000 = (1280, 1280) /\
  scaledSize 1280 5000 1 = (1280, 0).
Proof. repeat split; vm_compute; reflexivity. Qed.

Example readDirHandle_sample :
  readDirHandle Sample.twoPhotos =
  Ok [(Sample.photo "a.jpg" 30, "a.jpg"%string);
      (Sample.notes, "notes.txt"%string);
      (Sample.photo "b.jpg" 30, "day2/b.jpg"%string)].
Proof. vm_compute. reflexivity. Qed.

Example isPhoto_samples :
  isPhoto (mkFile "IMG_1.JPG" EmptyString 0 [], "IMG_1.JPG"%string) = true /\
  isPhoto (mkFile "scan" "image/tiff" 0 [], "scan"%string) = true /\
  isPhoto (mkFile "clip.heic" EmptyString 0 [], "clip.heic"%string) = false /\
  Upload.isImageFile (mkFile "clip.heic" EmptyString 0 []) = true /\
  isPhoto (Sample.notes, "notes.txt"%string) = false.
Proof. repeat split; vm_compute; reflexivity. Qed.


Lemma rendition_dims_deterministic_witness :
  canvasSize Sample.sampleCanvas 1280 (Sample.photo "a.jpg" 30) =
  canvasSize (mkCanvas (decode Sample.sampleCanvas) false (fun _ _ _ _ => None)) 1280
             (mkFile "copy.png" "image/png" 5 (repeat x01 30)).
Proof.
  apply (rendition_dims_deterministic Sample.sampleCanvas
           (mkCanvas (decode Sample.sampleCanvas) false (fun _ _ _ _ => None)) 1280
           (Sample.photo "a.jpg" 30) (mkFile "copy.png" "image/png" 5 (repeat x01 30)));
    reflexivity.
Defined.

Lemma progress_percentage_witness :
  let st := mkStats 2 1 60 30 30 25 in
  let d := doneBytes st in
  let t := totalBytes st in
  let r := round_div (100 * d) t in
  exists n : Z,
    50%float = num n /\
    (t = 0 -> n = 0) /\
    (0 < t ->
     0 <= n <= 100 /\ r - 1 <= n <= r + 1 /\
     (t <= 2 ^ 44 -> n = r \/ (n = r - 1 /\ (200 * d) mod (2 * t) = t))).
Proof.
  apply (progress_percentage (Sample.browserWith (Ok Sample.twoPhotos)) "goa"
                             (Sample.start 100) 50%float (mkStats 2 1 60 30 30 25)).
  - vm_compute. right. right. left. reflexivity.
  - reflexivity.
Defined.

Lemma cancelled_picker_is_silent_witness :
  let B := Sample.browserWith (Throw Sample.cancelled) in
  let s := Sample.start 100 in
  let e := Sample.cancelled in
  let s' := scanLocalFolderPhotosOnly B "goa" s in
  runRenders B "goa" s = [(0%float, zeroStats)] /\
  scanStats s' = zeroStats /\
  created s' = created s /\
  albums s' = albums (scanProlog "goa" s) /\
  scanRunning s' = false /\
  consoleErrors s' = consoleErrors s ++ [e] /\
  (e_name e = "AbortError"%string -> alerts s' = alerts s) /\
  (e_name e <> "AbortError"%string ->
   alerts s' = alerts s ++
     [MessageAlert (if String.eqb (e_message e) EmptyString then "Scan failed"%string else e_message e)]).
Proof.
  apply (cancelled_picker_is_silent (Sample.browserWith (Throw Sample.cancelled)) "goa"
                                    (Sample.start 100) Sample.cancelled); reflexivity.
Defined.

(** A traversal that the platform denies is shown to the user. *)
Example denied_traversal_alerts :
  alerts (scanLocalFolderPhotosOnly
            (Sample.browserWith (Ok (DirectoryHandle "trip" [] (Some Sample.denied))))
            "goa" (Sample.start 100))
  = [MessageAlert "Permission denied."].
Proof. vm_compute. reflexivity. Qed.

Lemma quota_checks_witness :
  let B := Sample.browserWith (Ok Sample.twoPhotos) in
  let s := Sample.start 55 in
  let s' := scanLocalFolderPhotosOnly B "goa" s in
  (alerts s' = alerts s ++ [QuotaExceededAlert (sumSizes samplePhotos) (quotaBytes s)] /\
   created s' = created s /\
   albums s' = albums (scanProlog "goa" s)) /\
  (Upload.rpc_reserve_quota Sample.world 0 (blob_size (mkBlob 25)) = None /\
   In (Upload.ReserveQuota 0 (blob_size (mkBlob 25)))
      (UploadRun.newCalls Sample.world Sample.threeFiles Sample.page)).
Proof.
  cbv zeta. split.
  - apply (proj1 (proj1 quota_checks (Sample.browserWith (Ok Sample.twoPhotos)) "goa"%string
                        (Sample.start 55) samplePhotos eq_refl)).
    vm_compute. reflexivity.
  - apply (proj2 quota_checks Sample.world Sample.threeFiles Sample.page 0%nat
                 "goa/sha-_.jpg"%string (mkBlob 25)).
    vm_compute. right. right. left. reflexivity.
Defined.

Lemma item_failure_ends_run_witness :
  let B := Sample.browserWith (Ok Sample.brokenSecond) in
  let s := Sample.start 100 in
  let e := Sample.undecodable in
  let s' := scanLocalFolderPhotosOnly B "goa" s in
  (exists pre bad post,
     brokenPhotos = pre ++ bad :: post /\
     firstThrow (canvas B) pre = None /\
     makePhotoPreviewBlob (canvas B) (fst bad) = Throw e /\
     created s' = created s ++
       map (objectURL B) (seq (List.length (created s)) (List.length pre)) /\
     doneFiles (scanStats s') = Z.of_nat (List.length pre) /\
     albums s' = albums (scanProlog "goa" s) /\
     alerts s' = alerts s ++ shownFor e /\
     consoleErrors s' = consoleErrors s ++ [e] /\
     scanRunning s' = false) /\
  (let W := Sample.world in
   let p := Sample.page in
   let p' := Upload.onPickFolder W Sample.threeFiles p in
   let done := UploadRun.settled W (Upload.albumId p) 0
                 (UploadRun.imagesOf Sample.threeFiles) in
   (List.length done < List.length (UploadRun.imagesOf Sample.threeFiles))%nat /\
   (exists bad,
      nth_error (UploadRun.imagesOf Sample.threeFiles) (List.length done) = Some bad /\
      UploadRun.itemError W (Upload.albumId p) (List.length done) bad
        = Some Sample.quotaExceeded) /\
   (forall c, In c (UploadRun.newCalls W Sample.threeFiles p) ->
              (UploadRun.callIndex c <= List.length done)%nat) /\
   Upload.doneFiles (Upload.prog p') = Z.of_nat (List.length done) /\
   Upload.totalFiles (Upload.prog p')
     = Z.of_nat (List.length (UploadRun.imagesOf Sample.threeFiles)) /\
   Upload.msg p' = Some (e_message Sample.quotaExceeded) /\
   Upload.busy p' = false).
Proof.
  cbv zeta. split.
  - apply (proj1 (proj1 item_failure_ends_run (Sample.browserWith (Ok Sample.brokenSecond))
                        "goa"%string (Sample.start 100) brokenPhotos eq_refl
                        ltac:(vm_compute; discriminate))
                 Sample.undecodable).
    reflexivity.
  - apply (proj2 item_failure_ends_run Sample.world Sample.threeFiles Sample.page
                 Sample.quotaExceeded); reflexivity.
Defined.

Lemma quota_amounts_witness :
  (exists file b,
     nth_error (UploadRun.imagesOf Sample.threeFiles) 1 = Some file /\
     Upload.makePreviewBlob Sample.world 1 file 640 0.8%float = Ok b /\
     26 = blob_size b) /\
  (let B := Sample.browserWith (Ok Sample.twoPhotos) in
   let s := Sample.start 55 in
   let s' := scanLocalFolderPhotosOnly B "goa" s in
   alerts s' = alerts s ++ [QuotaExceededAlert (sumSizes samplePhotos) (quotaBytes s)] /\
   runRenders B "goa" s = [(0%float, zeroStats)] /\
   created s' = created s /\
   albums s' = albums (scanProlog "goa" s)).
Proof.
  cbv zeta. split.
  - apply (proj1 quota_amounts Sample.world Sample.threeFiles Sample.page 1%nat 26).
    vm_compute. do 6 right. left. reflexivity.
  - apply (proj1 (proj2 (proj2 quota_amounts) (Sample.browserWith (Ok Sample.twoPhotos))
                        "goa"%string (Sample.start 55) samplePhotos eq_refl)).
    vm_compute. reflexivity.
Defined.

Lemma progress_counters_witness :
  let B := Sample.browserWith (Ok Sample.brokenSecond) in
  let s := Sample.start 100 in
  let ok := map fst (rendered (canvas B) brokenPhotos) in
  let fin := scanStats (scanLocalFolderPhotosOnly B "goa" s) in
  (map counters (map snd (runRenders B "goa" s)) =
     (0, 0) :: (0, 0) :: map (fun k => (Z.of_nat k, sizesOf (firstn k ok)))
                             (seq 1 (List.length ok)) /\
   (exists rest, map fst brokenPhotos = ok ++ rest) /\
   totalFiles fin = Z.of_nat (List.length brokenPhotos) /\
   totalBytes fin = sumSizes brokenPhotos /\
   doneFiles fin = Z.of_nat (List.length ok) /\
   doneBytes fin = sizesOf ok /\
   (firstThrow (canvas B) brokenPhotos = None ->
    doneFiles fin = totalFiles fin /\ doneBytes fin = totalBytes fin) /\
   (firstThrow (canvas B) brokenPhotos <> None -> doneFiles fin < totalFiles fin)) /\
  (let W := Sample.world in
   let p := Sample.page in
   let images := UploadRun.imagesOf Sample.threeFiles in
   let done := UploadRun.settled W (Upload.albumId p) 0 images in
   let pfin := Upload.prog (Upload.onPickFolder W Sample.threeFiles p) in
   map UploadRun.progCounters (UploadRun.newProgs W Sample.threeFiles p) =
     (0, 0) :: map (fun k => (Z.of_nat k, sizesOf (firstn k images)))
                   (seq 1 (List.length done)) /\
   Upload.totalFiles pfin = Z.of_nat (List.length images) /\
   Upload.totalBytes pfin = sizesOf images /\
   Upload.doneFiles pfin = Z.of_nat (List.length done) /\
   Upload.doneBytes pfin = sizesOf done /\
   (UploadRun.firstError W (Upload.albumId p) 0 images = None ->
    Upload.doneFiles pfin = Upload.totalFiles pfin /\
    Upload.doneBytes pfin = Upload.totalBytes pfin) /\
   (UploadRun.firstError W (Upload.albumId p) 0 images <> None ->
    Upload.doneFiles pfin < Upload.totalFiles pfin)).
Proof.
  cbv zeta. split.
  - apply (proj2 (proj1 progress_counters (Sample.browserWith (Ok Sample.brokenSecond))
                        "goa"%string (Sample.start 100)) brokenPhotos eq_refl).
    vm_compute. discriminate.
  - apply (proj2 (proj2 progress_counters Sample.world Sample.threeFiles Sample.page)
                 eq_refl).
    vm_compute. discriminate.
Defined.

(** ** Where the claims as stated fail *)

(** Against C1: with a quota of 90 bytes, a folder of 60 bytes is scanned
    into one album and then into another. Each scan passes the local check;
    afterwards the albums hold 120 original bytes and 100 preview bytes. *)
Lemma local_check_overcommits :
  let B := Sample.browserWith (Ok Sample.twoPhotos) in
  let s0 := Sample.start 90 in
  let s1 := scanLocalFolderPhotosOnly B "goa" s0 in
  let s2 := scanLocalFolderPhotosOnly B "rome" s1 in
  within_quota s0 /\ within_quota s1 /\
  alerts s2 = [] /\
  heldOriginalBytes s2 = 120 /\ heldPreviewBytes s2 = 100 /\ quotaBytes s2 = 90 /\
  ~ within_quota s2.
Proof.
  cbv zeta.
  assert (H0 : heldOriginalBytes (scanLocalFolderPhotosOnly
                 (Sample.browserWith (Ok Sample.twoPhotos)) "rome"
                 (scanLocalFolderPhotosOnly (Sample.browserWith (Ok Sample.twoPhotos)) "goa"
                    (Sample.start 90))) = 120) by (vm_compute; reflexivity).
  repeat split; try (vm_compute; reflexivity); try (vm_compute; discriminate).
  unfold within_quota. rewrite H0. intros [H _]. vm_compute in H. now apply H.
Qed.

(** Against C3: in a folder of three photos the second cannot be decoded.
    The third would render, but the run renders only the first, counts one
    file of three, and stores no preview in the album. *)
Lemma item_failure_stops_scan :
  let B := Sample.browserWith (Ok Sample.brokenSecond) in
  let s' := scanLocalFolderPhotosOnly B "goa" (Sample.start 100) in
  picked B = Some brokenPhotos /\
  makePhotoPreviewBlob (canvas B) (Sample.photo "c.jpg" 30) = Ok (mkBlob 25) /\
  created s' = ["blob:0"%string] /\
  albums s' = [Sample.emptyAlbum "goa"; Sample.emptyAlbum "rome"] /\
  doneFiles (scanStats s') = 1 /\ totalFiles (scanStats s') = 3 /\
  ~ failures_isolated B "goa" (Sample.start 100).
Proof.
  cbv zeta. repeat split; try (vm_compute; reflexivity).
  intros H.
  destruct (H brokenPhotos eq_refl ltac:(vm_compute; discriminate)
              (Sample.photo "c.jpg" 30) "c.jpg"%string (mkBlob 25)
              ltac:(right; right; left; reflexivity) eq_refl)
    as (a & p & Ha & _ & Hp & _).
  vm_compute in Ha. destruct Ha as [<-|[<-|[]]]; exact Hp.
Qed.

(** Against C4: the two photos of the folder weigh 60 bytes and their
    previews 50. With a quota of 55 bytes the scan refuses the batch at
    once, on the 60 original bytes, and renders nothing. *)
Lemma quota_checked_on_originals :
  let B := Sample.browserWith (Ok Sample.twoPhotos) in
  let s := Sample.start 55 in
  let s' := scanLocalFolderPhotosOnly B "goa" s in
  picked B = Some samplePhotos /\
  sumSizes samplePhotos = 60 /\ previewsSize (canvas B) samplePhotos = 50 /\
  alerts s' = [QuotaExceededAlert 60 55] /\
  created s' = [] /\
  ~ charged_by_rendition B "goa" s.
Proof.
  cbv zeta. repeat split; try (vm_compute; reflexivity).
  intros H.
  specialize (H samplePhotos eq_refl eq_refl ltac:(vm_compute; discriminate)).
  vm_compute in H. discriminate.
Qed.

(** Against C5: in the run of C3's folder the scan ends with one file of
    three and 30 bytes of 90 done. *)
Lemma failed_item_not_counted :
  let B := Sample.browserWith (Ok Sample.brokenSecond) in
  let fin := scanStats (scanLocalFolderPhotosOnly B "goa" (Sample.start 100)) in
  fin = mkStats 3 1 90 30 30 25 /\
  ~ counters_complete B "goa" (Sample.start 100).
Proof.
  cbv zeta. split; [vm_compute; reflexivity|].
  unfold counters_complete. intros [H _]. vm_compute in H. discriminate.
Qed.
(** Against C6: after the first photo of a folder of 23 and 17 bytes the
    bar shows 57 percent with 23 of 40 bytes done, where the ratio 57.5
    rounds to 58: on doubles 23 / 40 * 100 is 57.49999999999999. *)
Lemma percentage_below_half :
  let B := Sample.browserWith (Ok Sample.uneven) in
  let s := Sample.start 100 in
  In (57%float, mkStats 2 1 40 23 23 18) (runRenders B "goa" s) /\
  round_div (100 * 23) 40 = 58 /\
  ~ percentage_rounded B "goa" s.
Proof.
  cbv zeta.
  assert (Hin : In (57%float, mkStats 2 1 40 23 23 18)
                   (runRenders (Sample.browserWith (Ok Sample.uneven)) "goa"
                               (Sample.start 100))).
  { vm_compute. right. right. left. reflexivity. }
  split; [exact Hin|]. split; [reflexivity|].
  intros H. specialize (H _ _ Hin).
  apply (f_equal (fun x => PrimFloat.eqb x 57%float)) in H.
  vm_compute in H. discriminate.
Qed.

(** * Further properties of the client *)

(** ** Dates *)

Lemma slice0_cons n c s : slice0 (S n) (String c s) = String c (slice0 n s).
Proof. reflexivity. Qed.

Lemma slice0_nil n : slice0 n EmptyString = EmptyString.
Proof. now destruct n. Qed.

Lemma slice0_zero s : slice0 0 s = EmptyString.
Proof. now destruct s. Qed.

Lemma replace_char_cons (c d x : ascii) (s : string) :
  replace (String c EmptyString) (String d EmptyString) (String x s) =
  if Ascii.eqb c x then String d s
  else String x (replace (String c EmptyString) (String d EmptyString) s).
Proof.
  cbn [replace String.prefix]. destruct (ascii_dec c x) as [->|Hne].
  - rewrite Ascii.eqb_refl. now destruct s.
  - apply Ascii.eqb_neq in Hne. now rewrite Hne.
Qed.

(** Replacing one character by one character commutes with cutting. *)
Lemma slice0_replace_char (c d : ascii) (s : string) : forall n,
  slice0 n (replace (String c EmptyString) (String d EmptyString) s) =
  replace (String c EmptyString) (String d EmptyString) (slice0 n s).
Proof.
  induction s as [|x s IH]; intros n.
  - cbn [replace String.prefix]. now rewrite !slice0_nil.
  - destruct n as [|n]; [now rewrite !slice0_zero|].
    rewrite replace_char_cons, slice0_cons, replace_char_cons.
    destruct (Ascii.eqb c x); rewrite slice0_cons; [reflexivity|]. now rewrite IH.
Qed.

(** X1. The gallery cuts after replacing and the album page replaces after
    cutting; both show the same text for every date. *)
Theorem fmtDate_albumDate (s : option string) : fmtDate s = albumDate s.
Proof.
  destruct s as [s|]; [|reflexivity]. unfold fmtDate, albumDate.
  destruct (String.eqb s EmptyString); [reflexivity|].
  apply (slice0_replace_char "T" " ").
Qed.

Lemma replace_char_absent (c d : ascii) (s rest : string) :
  (forall i, String.get i s <> Some c) ->
  replace (String c EmptyString) (String d EmptyString) (s ++ String c rest) =
  (s ++ String d rest)%string.
Proof.
  induction s as [|x s IH]; intros Hno.
  - cbn [String.append]. rewrite replace_char_cons, Ascii.eqb_refl. reflexivity.
  - cbn [String.append]. rewrite replace_char_cons.
    destruct (Ascii.eqb c x) eqn:E.
    + apply Ascii.eqb_eq in E. subst x. now contradiction (Hno 0%nat).
    + rewrite IH; [reflexivity|]. intros i. exact (Hno (S i)).
Qed.

Lemma slice0_app (a b : string) : slice0 (String.length a) (a ++ b) = a.
Proof.
  induction a as [|x a IH]; [apply slice0_zero|].
  cbn [String.length String.append]. now rewrite slice0_cons, IH.
Qed.

Lemma length_append (a b : string) :
  String.length (a ++ b) = (String.length a + String.length b)%nat.
Proof. induction a as [|x a IH]; [reflexivity|]. cbn. now rewrite IH. Qed.

Lemma append_assoc (a b c : string) : ((a ++ b) ++ c)%string = (a ++ (b ++ c))%string.
Proof. induction a as [|x a IH]; [reflexivity|]. cbn. now rewrite IH. Qed.

(** X2. An ISO timestamp, a date of ten characters and a time of eight joined
    by [T], is shown as the date, a space and the time; fractions of a
    second and the zone are cut off. *)
Theorem fmtDate_timestamp (date time rest : string) :
  String.length date = 10%nat -> String.length time = 8%nat ->
  (forall i, String.get i date <> Some "T"%char) ->
  fmtDate (Some (date ++ "T" ++ time ++ rest)%string) = (date ++ " " ++ time)%string.
Proof.
  intros Hd Ht Hno. unfold fmtDate.
  destruct (String.eqb _ EmptyString) eqn:E.
  - apply String.eqb_eq in E. apply (f_equal String.length) in E.
    rewrite length_append, Hd in E. discriminate.
  - change ("T" ++ time ++ rest)%string with (String "T" (time ++ rest)).
    rewrite replace_char_absent by exact Hno.
    change (String " " (time ++ rest)) with (" " ++ (time ++ rest))%string.
    rewrite <- !append_assoc.
    replace 19%nat with (String.length ((date ++ " ") ++ time)).
    + apply slice0_app.
    + rewrite !length_append, Hd, Ht. reflexivity.
Qed.

Lemma fmtDate_timestamp_witness :
  fmtDate (Some "2024-05-01T10:20:30.000Z"%string) = "2024-05-01 10:20:30"%string.
Proof.
  apply (fmtDate_timestamp "2024-05-01" "10:20:30" ".000Z"); try reflexivity.
  intros i. do 10 (destruct i as [|i]; [discriminate|]). discriminate.
Defined.

(** ** The directory walk *)

(** Induction on a tree of handles, with the property for the entries of a
    directory. *)
Lemma Handle_tree_ind (P : Handle -> Prop)
  (Hfile : forall n getFile, P (FileHandle n getFile))
  (Hdir : forall n entries broken, Forall P entries -> P (DirectoryHandle n entries broken)) :
  forall h, P h.
Proof.
  fix IH 1. intros [n g|n entries broken]; [apply Hfile|].
  apply Hdir. induction entries as [|e es IHes]; constructor; [apply IH|exact IHes].
Qed.

(** Every walk ends as [failure] and [listing] say: with the error met
    first, or with the files of the tree appended to [out] in order. *)
Lemma walk_spec : forall h prefix out,
  walk h prefix out =
  match failure h with
  | Some e => Throw e
  | None => Ok (out ++ listing prefix h)
  end.
Proof.
  induction h as [n g|n entries broken IH] using Handle_tree_ind; intros prefix out.
  - cbn [walk failure listing]. now rewrite app_nil_r.
  - cbn [walk failure listing]. revert out.
    induction IH as [|e es He _ IHes]; intros out.
    + cbn [flat_map]. rewrite app_nil_r. now destruct broken.
    + destruct e as [m [file|err]|m sub b].
      * rewrite IHes. cbn [flat_map].
        match goal with |- context [match ?f with Some _ => _ | None => _ end] =>
          destruct f end; [reflexivity|].
        now rewrite <- app_assoc.
      * reflexivity.
      * rewrite He. destruct (failure (DirectoryHandle m sub b)) as [err|]; [reflexivity|].
        rewrite IHes. cbn [flat_map].
        match goal with |- context [match ?f with Some _ => _ | None => _ end] =>
          destruct f end; [reflexivity|].
        now rewrite <- app_assoc.
Qed.

(** X3. [readDirHandle] yields the files of the whole tree, depth first and in
    the order of iteration, each with its path below the picked directory
    (whose own name is left out); one unreadable file or one directory
    whose iteration breaks off anywhere in the tree makes it throw that
    error and yield nothing. *)
Theorem readDirHandle_listing (dirHandle : Handle) :
  readDirHandle dirHandle =
  match failure dirHandle with
  | Some e => Throw e
  | None => Ok (listing EmptyString dirHandle)
  end.
Proof. unfold readDirHandle. now rewrite walk_spec. Qed.

(** ** The two photo filters *)

Lemma prefix_lowercase (p s : string) :
  String.prefix p s = true -> String.prefix (lowercase p) (lowercase s) = true.
Proof.
  revert s. induction p as [|c p IH]; intros s H; [now destruct s|].
  destruct s as [|d s]; [discriminate|]. cbn [String.prefix lowercase] in *.
  destruct (ascii_dec c d) as [->|Hne]; [|discriminate].
  destruct (ascii_dec (lowerAscii d) (lowerAscii d)) as [_|Hn]; [|now contradiction Hn].
  now apply IH.
Qed.

(** X4. Whatever the local scan takes for a photo, the upload of the album page
    takes for an image: the type test of the upload ignores case, and its
    list of extensions contains that of the scan. *)
Theorem isPhoto_isImageFile (item : File * string) :
  isPhoto item = true -> Upload.isImageFile (fst item) = true.
Proof.
  unfold isPhoto, Upload.isImageFile, photoExtension, startsWith.
  intros H. apply orb_true_iff in H. apply orb_true_iff. destruct H as [H|H].
  - left. apply (prefix_lowercase "image/"). exact H.
  - right. cbn [existsb] in *.
    repeat (apply orb_true_iff in H; destruct H as [H|H]); rewrite ?H, ?orb_true_r;
      try reflexivity; discriminate.
Qed.

Lemma isPhoto_isImageFile_witness :
  Upload.isImageFile (fst (mkFile "IMG_1.JPG" EmptyString 0 [], "trip/IMG_1.JPG"%string)) = true.
Proof. apply isPhoto_isImageFile. reflexivity. Defined.

(** ** The digest in hexadecimal *)

Lemma hexByte_digits (b : byte) :
  exists c1 c2, padStart 2 "0" (toString16 b) = String c1 (String c2 EmptyString) /\
                unhexByte c1 c2 = Some b.
Proof. destruct b; do 2 eexists; split; reflexivity. Qed.

Lemma hexOf_cons (b : byte) (l : list byte) :
  hexOf (b :: l) = (padStart 2 "0" (toString16 b) ++ hexOf l)%string.
Proof.
  unfold hexOf. cbn [map String.concat]. destruct (map _ l) as [|x xs] eqn:E.
  - destruct (padStart 2 "0" (toString16 b)); cbn; [reflexivity|].
    f_equal. clear. induction s; cbn; congruence.
  - reflexivity.
Qed.

Lemma unhex_hexOf (l : list byte) : unhex (hexOf l) = Some l.
Proof.
  induction l as [|b l IH]; [reflexivity|].
  rewrite hexOf_cons. destruct (hexByte_digits b) as (c1 & c2 & -> & Hb).
  cbn [String.append unhex]. now rewrite Hb, IH.
Qed.

Lemma append_cancel_l (a x y : string) : (a ++ x)%string = (a ++ y)%string -> x = y.
Proof. induction a as [|c a IH]; cbn; [auto|]. intros H. injection H as H. auto. Qed.

Lemma hexOf_length (h : list byte) : String.length (hexOf h) = (2 * List.length h)%nat.
Proof.
  induction h as [|b l IH]; [reflexivity|].
  rewrite hexOf_cons. destruct (hexByte_digits b) as (c1 & c2 & -> & _).
  cbn [String.append String.length List.length]. rewrite IH. lia.
Qed.

Lemma hexOf_suffix (h1 h2 : list byte) (ext : string) :
  (hexOf h1 ++ ext)%string = (hexOf h2 ++ ext)%string -> h1 = h2.
Proof.
  revert h2. induction h1 as [|b1 l1 IH]; intros h2 H.
  - destruct h2 as [|b2 l2]; [reflexivity|].
    apply (f_equal String.length) in H. rewrite !length_append, !hexOf_length in H.
    cbn [List.length] in H. lia.
  - destruct h2 as [|b2 l2].
    + apply (f_equal String.length) in H. rewrite !length_append, !hexOf_length in H.
      cbn [List.length] in H. lia.
    + rewrite !hexOf_cons in H.
      destruct (hexByte_digits b1) as (c1 & c2 & E1 & D1).
      destruct (hexByte_digits b2) as (d1 & d2 & E2 & D2).
      rewrite E1, E2 in H. cbn [String.append] in H. injection H as -> -> H.
      f_equal; [congruence|]. apply IH, H.
Qed.

(** X5. The name that [sha256Hex] makes of a digest has two characters for each
    byte, and digests that differ get names that differ; so do the paths
    under which their previews are stored in an album. *)
Theorem hexOf_faithful (h1 h2 : list byte) (albumId : string) :
  String.length (hexOf h1) = (2 * List.length h1)%nat /\
  (hexOf h1 = hexOf h2 -> h1 = h2) /\
  ((albumId ++ "/" ++ hexOf h1 ++ ".jpg")%string = (albumId ++ "/" ++ hexOf h2 ++ ".jpg")%string
   -> h1 = h2).
Proof.
  split; [apply hexOf_length|]. split.
  - intros H. apply (f_equal unhex) in H. rewrite !unhex_hexOf in H. congruence.
  - intros H. apply append_cancel_l in H. apply (append_cancel_l "/") in H.
    eapply hexOf_suffix, H.
Qed.

(** ** Byte counts as shown to the user *)

Module FormatFacts.
Import QArith Qround.
Import Format.
Local Open Scope Z_scope.

Lemma Qle_bool_1024 (x : Q) : Qle_bool 1024 x = (1024 * Zpos (Qden x) <=? Qnum x)%Z.
Proof. unfold Qle_bool. cbn [Qnum Qden]. f_equal. lia. Qed.

Lemma scale_turn t x i :
  scale (S t) x i =
  if ((1024 * Zpos (Qden x) <=? Qnum x)%Z && Nat.ltb i 3)%bool
  then scale t (x / 1024)%Q (S i) else (x, i).
Proof. cbn [scale]. now rewrite Qle_bool_1024. Qed.

Lemma Qnum_div1024 x : Qnum (x / 1024)%Q = Qnum x * 1.
Proof. reflexivity. Qed.

Lemma Qden_div1024 x : Qden (x / 1024)%Q = (Qden x * 1024)%positive.
Proof. reflexivity. Qed.

(** The loop stops at the first unit in which the count is below 1024, and
    at GB at the latest. *)
Lemma scale_units (n : Z) :
  scale (List.length units) (inject_Z n) 0 =
  if n <? 1024 then (inject_Z n, 0%nat)
  else if n <? 1024 ^ 2 then ((inject_Z n / 1024)%Q, 1%nat)
  else if n <? 1024 ^ 3 then ((inject_Z n / 1024 / 1024)%Q, 2%nat)
  else ((inject_Z n / 1024 / 1024 / 1024)%Q, 3%nat).
Proof.
  cbn [List.length units]. rewrite !scale_turn.
  rewrite ?Qnum_div1024, ?Qden_div1024. cbn [Qnum Qden inject_Z].
  change (Nat.ltb 0 3) with true. change (Nat.ltb 1 3) with true.
  change (Nat.ltb 2 3) with true. change (Nat.ltb 3 3) with false.
  rewrite !andb_true_r, andb_false_r.
  change (Z.pos (1 * 1024)) with 1024. change (Z.pos (1 * 1024 * 1024)) with (1024 ^ 2).
  destruct (n <? 1024) eqn:E1; [apply Z.ltb_lt in E1|apply Z.ltb_ge in E1].
  { destruct (1024 * 1 <=? n) eqn:F; [apply Z.leb_le in F; lia|reflexivity]. }
  destruct (1024 * 1 <=? n) eqn:F1; [|apply Z.leb_gt in F1; lia].
  destruct (n <? 1024 ^ 2) eqn:E2; [apply Z.ltb_lt in E2|apply Z.ltb_ge in E2].
  { destruct (1024 * 1024 <=? n * 1) eqn:F; [apply Z.leb_le in F; lia|reflexivity]. }
  destruct (1024 * 1024 <=? n * 1) eqn:F2; [|apply Z.leb_gt in F2; lia].
  destruct (n <? 1024 ^ 3) eqn:E3; [apply Z.ltb_lt in E3|apply Z.ltb_ge in E3].
  { destruct (1024 * 1024 ^ 2 <=? n * 1 * 1) eqn:F; [apply Z.leb_le in F; lia|reflexivity]. }
  destruct (1024 * 1024 ^ 2 <=? n * 1 * 1) eqn:F3; [|apply Z.leb_gt in F3; lia].
  reflexivity.
Qed.

(** Rounding to tenths, as [toFixed(1)] does it. *)
Lemma tenths (x : Q) :
  Qfloor (x * inject_Z (10 ^ Z.of_nat 1) + (1 # 2))%Q =
  (20 * Qnum x + Zpos (Qden x)) / (2 * Zpos (Qden x)).
Proof.
  unfold Qfloor, Qplus, Qmult. cbn [Qnum Qden inject_Z Z.of_nat Pos.of_succ_nat].
  change (10 ^ 1) with 10. rewrite !Pos2Z.inj_mul. f_equal; lia.
Qed.

Lemma decimal_digit (r : Z) : 0 <= r < 10 -> padStart 1 "0" (decimal r) = decimal r.
Proof.
  intros H.
  assert (C : r = 0 \/ r = 1 \/ r = 2 \/ r = 3 \/ r = 4 \/ r = 5 \/ r = 6 \/ r = 7 \/
              r = 8 \/ r = 9) by lia.
  repeat (destruct C as [->|C]; [reflexivity|]). now subst r.
Qed.

Lemma toFixed_tenths (x : Q) :
  0 <= Qnum x ->
  let m := (20 * Qnum x + Zpos (Qden x)) / (2 * Zpos (Qden x)) in
  toFixed x 1 = (decimal (m / 10) ++ "." ++ decimal (m mod 10))%string.
Proof.
  intros Hx m. unfold toFixed. rewrite tenths. fold m.
  cbn [Nat.eqb Z.of_nat Pos.of_succ_nat]. change (10 ^ 1) with 10.
  rewrite decimal_digit; [reflexivity|]. apply Z.mod_pos_bound. lia.
Qed.

Lemma toFixed_whole (n : Z) : toFixed (inject_Z n) 0 = decimal n.
Proof.
  unfold toFixed. cbn [Nat.eqb Z.of_nat]. change (10 ^ 0) with 1.
  rewrite Z.div_1_r. f_equal.
  unfold Qfloor, Qplus, Qmult. cbn [Qnum Qden inject_Z].
  change (Z.pos (1 * 1 * 2)) with 2. change (Z.pos (1 * 1)) with 1.
  replace (n * 1 * 2 + 1 * 1) with (1 + n * 2) by lia.
  rewrite Z.div_add by lia. reflexivity.
Qed.

End FormatFacts.

(** X6. A count below 1024 is shown as it is, in bytes. *)
Theorem fmtBytes_bytes (n : Z) :
  n < 1024 -> Format.fmtBytes (Some n) = (Format.decimal n ++ " B")%string.
Proof.
  intros Hn. unfold Format.fmtBytes. rewrite FormatFacts.scale_units.
  apply Z.ltb_lt in Hn. rewrite Hn. cbn [Nat.eqb nth Format.units].
  now rewrite FormatFacts.toFixed_whole.
Qed.

Lemma fmtBytes_bytes_witness :
  Format.fmtBytes (Some 1023) = (Format.decimal 1023 ++ " B")%string.
Proof. apply (fmtBytes_bytes 1023). reflexivity. Defined.

(** X7. From 1024 bytes on, a count below 2^53 is shown in the largest unit [k]
    among KB, MB and GB that it reaches, as the closest number of tenths of
    that unit, a tie going up. That number is at least 1.0; it can reach
    1024.0, and in GB it is not bounded; it is off by at most a twentieth
    of the unit. *)
Theorem fmtBytes_units (n : Z) (k : nat) :
  (1 <= k <= 3)%nat -> 1024 ^ Z.of_nat k <= n -> n < 2 ^ 53 ->
  ((k < 3)%nat -> n < 1024 ^ Z.of_nat (S k)) ->
  let u := 1024 ^ Z.of_nat k in
  let m := (20 * n + u) / (2 * u) in
  Format.fmtBytes (Some n) =
    (Format.decimal (m / 10) ++ "." ++ Format.decimal (m mod 10) ++ " " ++
     nth k Format.units EmptyString)%string /\
  10 <= m /\ ((k < 3)%nat -> m <= 10240) /\
  2 * Z.abs (10 * n - m * u) <= u.
Proof.
  intros Hk Hlo _ Hhi u m.
  assert (Hu : 0 < u) by (subst u; apply Z.pow_pos_nonneg; lia).
  assert (Hm : 2 * u * m <= 20 * n + u < 2 * u * m + 2 * u).
  { subst m. pose proof (Z.div_mod (20 * n + u) (2 * u) ltac:(lia)) as D.
    pose proof (Z.mod_pos_bound (20 * n + u) (2 * u) ltac:(lia)) as R. lia. }
  split; [|split; [|split]].
  - unfold Format.fmtBytes. rewrite FormatFacts.scale_units.
    assert (K : k = 1%nat \/ k = 2%nat \/ k = 3%nat) by lia.
    destruct K as [-> | [-> | ->]]; subst u m.
    + change (1024 ^ Z.of_nat 1) with 1024 in *.
      specialize (Hhi ltac:(lia)). change (1024 ^ Z.of_nat 2) with (1024 ^ 2) in Hhi.
      destruct (n <? 1024) eqn:E1; [apply Z.ltb_lt in E1; lia|].
      apply Z.ltb_lt in Hhi. rewrite Hhi. cbn [Nat.eqb nth Format.units].
      rewrite FormatFacts.toFixed_tenths by (cbn; lia). cbv zeta.
      cbn [QArith_base.Qnum QArith_base.Qden QArith_base.inject_Z QArith_base.Qdiv
           QArith_base.Qmult QArith_base.Qinv].
      change (Z.pos (1 * 1024)) with 1024.
      replace (20 * (n * 1)) with (20 * n) by lia.
      now rewrite <- !append_assoc.
    + change (1024 ^ Z.of_nat 2) with (1024 ^ 2) in *.
      specialize (Hhi ltac:(lia)). change (1024 ^ Z.of_nat 3) with (1024 ^ 3) in Hhi.
      destruct (n <? 1024) eqn:E1; [apply Z.ltb_lt in E1; lia|].
      destruct (n <? 1024 ^ 2) eqn:E2; [apply Z.ltb_lt in E2; lia|].
      apply Z.ltb_lt in Hhi. rewrite Hhi. cbn [Nat.eqb nth Format.units].
      rewrite FormatFacts.toFixed_tenths by (cbn; lia). cbv zeta.
      cbn [QArith_base.Qnum QArith_base.Qden QArith_base.inject_Z QArith_base.Qdiv
           QArith_base.Qmult QArith_base.Qinv].
      change (Z.pos (1 * 1024 * 1024)) with (1024 ^ 2).
      replace (20 * (n * 1 * 1)) with (20 * n) by lia.
      now rewrite <- !append_assoc.
    + change (1024 ^ Z.of_nat 3) with (1024 ^ 3) in *.
      destruct (n <? 1024) eqn:E1; [apply Z.ltb_lt in E1; lia|].
      destruct (n <? 1024 ^ 2) eqn:E2; [apply Z.ltb_lt in E2; lia|].
      destruct (n <? 1024 ^ 3) eqn:E3; [apply Z.ltb_lt in E3; lia|].
      cbn [Nat.eqb nth Format.units].
      rewrite FormatFacts.toFixed_tenths by (cbn; lia). cbv zeta.
      cbn [QArith_base.Qnum QArith_base.Qden QArith_base.inject_Z QArith_base.Qdiv
           QArith_base.Qmult QArith_base.Qinv].
      change (Z.pos (1 * 1024 * 1024 * 1024)) with (1024 ^ 3).
      replace (20 * (n * 1 * 1 * 1)) with (20 * n) by lia.
      now rewrite <- !append_assoc.
  - nia.
  - intros Hk3. specialize (Hhi Hk3).
    replace (1024 ^ Z.of_nat (S k)) with (1024 * u) in Hhi
      by (subst u; rewrite Nat2Z.inj_succ, Z.pow_succ_r by lia; reflexivity).
    nia.
  - lia.
Qed.

(** ** The rendition of the album page *)

Lemma Math_max_num (a b : Z) :
  0 < a < 2 ^ 53 -> 0 < b < 2 ^ 53 -> Math_max (num a) (num b) = num (Z.max a b).
Proof.
  intros Ha Hb. unfold Math_max.
  rewrite !Whole.num_not_nan, !Whole.num_ltb by assumption. cbn [orb].
  destruct (a <? b) eqn:E1; [apply Z.ltb_lt in E1; f_equal; lia|apply Z.ltb_ge in E1].
  destruct (b <? a) eqn:E2; [apply Z.ltb_lt in E2; f_equal; lia|apply Z.ltb_ge in E2].
  assert (a = b) by lia. subst b. rewrite Z.max_id. now destruct (PrimFloat.get_sign _).
Qed.

Lemma no_scale_up : forall m, 1 <= m <= 640 ->
  Math_min 1%float (PrimFloat.div 640%float (num m)) = 1%float.
Proof.
  apply (checked (fun m => Math_min 1%float (PrimFloat.div 640%float (num m)))
                 (fun _ => 1%float)).
  vm_compute. reflexivity.
Qed.

Lemma side_kept : forall w, 1 <= w <= 640 ->
  Math_max 1%float (Math_round (PrimFloat.mul (num w) 1%float)) = num w.
Proof.
  apply (checked (fun w => Math_max 1%float (Math_round (PrimFloat.mul (num w) 1%float))) num).
  vm_compute. reflexivity.
Qed.

Lemma long_side : forall m, 641 <= m <= 65535 ->
  Math_max 1%float
    (Math_round (PrimFloat.mul (num m) (Math_min 1%float (PrimFloat.div 640%float (num m)))))
  = 640%float.
Proof.
  apply (checked (fun m => Math_max 1%float
           (Math_round (PrimFloat.mul (num m)
              (Math_min 1%float (PrimFloat.div 640%float (num m))))))
         (fun _ => 640%float)).
  vm_compute. reflexivity.
Qed.

(** X8. A bitmap with both sides within 640 pixels is drawn in its own size. *)
Theorem previewSize_small (w h : Z) :
  1 <= w <= 640 -> 1 <= h <= 640 ->
  previewSize 640%float (num w) (num h) = (num w, num h).
Proof.
  intros Hw Hh. unfold previewSize.
  rewrite Math_max_num by lia. rewrite no_scale_up by lia.
  rewrite !side_kept by lia. reflexivity.
Qed.

(** X9. The longer side of a larger bitmap, up to 65535 pixels, is drawn with
    exactly 640 pixels, whatever the rounding of the scale factor. *)
Theorem previewSize_long (w h : Z) :
  640 < Z.max w h <= 65535 -> 1 <= w -> 1 <= h ->
  (h <= w -> fst (previewSize 640%float (num w) (num h)) = 640%float) /\
  (w <= h -> snd (previewSize 640%float (num w) (num h)) = 640%float).
Proof.
  intros Hm Hw Hh. unfold previewSize. cbn [fst snd].
  rewrite Math_max_num by lia.
  split; intros Hle.
  - rewrite Z.max_l by lia. apply long_side. lia.
  - rewrite Z.max_r by lia. apply long_side. lia.
Qed.

(** ** Where the progress bars end *)

Lemma scanPct_full (t : Z) : 0 < t < 2 ^ 53 -> scanPct t t = 100%float.
Proof.
  intros Ht. unfold scanPct. destruct (t =? 0) eqn:E; [apply Z.eqb_eq in E; lia|].
  rewrite Whole.num_div_self by exact Ht. reflexivity.
Qed.

Lemma last_map_cons {A B : Type} (f : A -> B) (a : A) (l : list A) (d : B) (d' : A) :
  last (map f (a :: l)) d = f (last (a :: l) d').
Proof.
  revert a d d'. induction l as [|b l IH]; intros a d d'; [reflexivity|].
  change (map f (a :: b :: l)) with (f a :: map f (b :: l)).
  rewrite (last_cons (f a) d), (last_cons a d' (b :: l)). apply IH.
Qed.

(** X10. A scan that renders every photo of a batch that is not empty leaves the
    progress bar at 100 percent. *)
Theorem scan_ends_at_100 (B : Browser) (A : string) (s : App)
  (photos : list (File * string)) :
  picked B = Some photos -> sumSizes photos <= quotaBytes s ->
  firstThrow (canvas B) photos = None ->
  0 < sumSizes photos < 2 ^ 53 ->
  scanProgress (scanLocalFolderPhotosOnly B A s) = 100%float.
Proof.
  intros Hp Hq Hnone Hsize.
  rewrite (scan_within_quota B A s photos Hp Hq). cbv zeta.
  destruct (scanPhotos B (Z.of_nat (List.length photos)) (sumSizes photos) photos
              (mkLocals 0 0 0 0 []) (gated A s photos)) as [r s2] eqn:Hrun.
  pose proof (scanPhotos_current _ _ _ _ _ _ _ _ Hrun) as Hcur.
  pose proof (scanPhotos_result _ _ _ _ _ _ _ _ Hrun) as Hres.
  destruct r as [v|e]; [|congruence].
  change (scanProgress (setScanRunning false (setAlbums _ s2))) with (scanProgress s2).
  change (statsOf (Z.of_nat (List.length photos)) (sumSizes photos) (mkLocals 0 0 0 0 []))
    with (startStats photos) in Hcur.
  pose proof (rendered_prefix (canvas B) photos) as Hpre. rewrite Hnone in Hpre.
  pose proof (loopStats_last (startStats photos) (rendered (canvas B) photos)) as HL.
  cbv zeta in HL. destruct HL as (_ & L2 & _ & L4 & _).
  destruct (rendered (canvas B) photos) as [|fb ok] eqn:Hok.
  - destruct photos as [|ph photos]; [cbn in Hsize; lia|discriminate].
  - cbn [loopStats] in Hcur.
    rewrite (last_map_cons shown _ _ _ (startStats photos)) in Hcur.
    apply (f_equal fst) in Hcur. cbn [fst shown] in Hcur. rewrite Hcur.
    cbn [loopStats] in L2, L4. rewrite L2, L4, Hpre.
    cbn [startStats totalBytes doneBytes]. rewrite <- sumSizes_sizesOf, Z.add_0_l.
    apply scanPct_full, Hsize.
Qed.

Module UploadBar.
Import Upload UploadRun UploadFacts.

Lemma pct_zero (tF dF total : Z) : 0 <= total < 2 ^ 63 -> pct (mkProg tF dF total 0) = 0%float.
Proof.
  intros Ht. unfold pct. cbn [totalBytes doneBytes].
  destruct (total =? 0) eqn:E; [reflexivity|]. apply Z.eqb_neq in E.
  change (num 0) with 0%float. rewrite Doubles.zero_div_num by lia. reflexivity.
Qed.

Lemma pct_full (tF dF total : Z) : 0 < total < 2 ^ 53 -> pct (mkProg tF dF total total) = 100%float.
Proof.
  intros Ht. unfold pct. cbn [totalBytes doneBytes].
  destruct (total =? 0) eqn:E; [apply Z.eqb_eq in E; lia|].
  rewrite Whole.num_div_self by exact Ht. reflexivity.
Qed.

End UploadBar.

(** X11. The progress bar of the album page starts a run at 0 percent, and a run
    in which no file fails leaves it at 100 percent. *)
Theorem upload_bar_ends (W : Upload.World) (files : list File) (s : Upload.Page) :
  Upload.myRole s = Upload.write ->
  0 < sizesOf (UploadRun.imagesOf files) < 2 ^ 53 ->
  let s' := Upload.onPickFolder W files s in
  (exists rest, UploadRun.newProgs W files s = UploadRun.startProg (UploadRun.imagesOf files) :: rest) /\
  pct (UploadRun.startProg (UploadRun.imagesOf files)) = 0%float /\
  (UploadRun.firstError W (Upload.albumId s) 0 (UploadRun.imagesOf files) = None ->
   pct (Upload.prog s') = 100%float).
Proof.
  intros Hrole Hsize. cbv zeta.
  assert (Hne : UploadRun.imagesOf files <> []).
  { intros H. rewrite H in Hsize. cbn in Hsize. lia. }
  destruct (UploadFacts.onPickFolder_run W files s Hrole Hne) as (_ & Hl & _).
  destruct (UploadFacts.upload_counters W files s) as (_ & Hc).
  specialize (Hc Hrole Hne). cbv zeta in Hc.
  destruct Hc as (_ & H1 & H2 & H3 & H4 & Hall & _).
  split; [|split].
  - unfold UploadRun.newProgs. rewrite Hl, skipn_length_app. eexists. reflexivity.
  - unfold UploadRun.startProg. apply UploadBar.pct_zero.
    rewrite UploadFacts.sumSizes_images. lia.
  - intros Hnone. destruct (Hall Hnone) as (_ & Hb).
    destruct (Upload.prog (Upload.onPickFolder W files s)) as [tF dF tB dB].
    cbn [Upload.totalBytes Upload.doneBytes] in *. rewrite Hb, H2.
    apply UploadBar.pct_full, Hsize.
Qed.

(** ** Scanning the same album again *)

Lemma scan_revoked (B : Browser) (A : string) (s : App) :
  revoked (scanLocalFolderPhotosOnly B A s) =
  revoked s ++ flat_map (fun a => if String.eqb (id a) A then map url (previewUrls a) else [])
                        (albums s).
Proof.
  destruct (scan_cases B A s) as [Hidle|(photos & Hp & Hq)].
  - apply idle_end_facts in Hidle. now destruct Hidle as (_ & _ & _ & _ & -> & _).
  - now destruct (scan_in_quota B A s photos Hp Hq) as (_ & _ & _ & -> & _).
Qed.

Lemma previewsOf_urls (B : Browser) (ok : list (File * Blob)) : forall k,
  map url (previewsOf B k ok) = map (objectURL B) (seq k (List.length ok)).
Proof.
  induction ok as [|[f b] ok IH]; intros k; [reflexivity|].
  cbn [previewsOf map url List.length seq]. now rewrite IH.
Qed.

Lemma flat_map_none {X Y : Type} (f : X -> list Y) (l : list X) :
  (forall a, In a l -> f a = []) -> flat_map f l = [].
Proof.
  induction l as [|x l IH]; intros H; [reflexivity|].
  cbn [flat_map]. rewrite (H x (or_introl eq_refl)). apply IH.
  intros a Ha. apply H. now right.
Qed.

(** In a list whose keys are distinct, what is collected from the one
    element with a given key. *)
Lemma flat_map_one {X Y : Type} (key : X -> string) (f : X -> list Y) (A : string)
  (L : list Y) (l : list X) :
  NoDup (map key l) -> In A (map key l) ->
  (forall a, In a l -> key a = A -> f a = L) ->
  (forall a, In a l -> key a <> A -> f a = []) ->
  flat_map f l = L.
Proof.
  induction l as [|x l IH]; intros Hnd Hin Hyes Hno; [contradiction|].
  cbn [map] in Hnd, Hin. inversion Hnd as [|? ? Hx Hnd']; subst.
  cbn [flat_map]. destruct (string_dec (key x) A) as [E|E].
  - rewrite (Hyes x (or_introl eq_refl) E), flat_map_none; [apply app_nil_r|].
    intros a Ha. apply Hno; [now right|].
    intros Ea. apply Hx. rewrite E, <- Ea. now apply in_map.
  - rewrite (Hno x (or_introl eq_refl) E). cbn [app].
    apply IH; [exact Hnd'| |intros a Ha; apply Hyes; now right
               |intros a Ha; apply Hno; now right].
    destruct Hin as [Hin|Hin]; [contradiction|exact Hin].
Qed.

(** X12. When every preview of a scan of album [A] rendered and [A] is one album
    of the list, the next scan of [A] revokes the object URLs that this
    scan created, each once and in the order of their creation, and no
    other URL. *)
Theorem rescan_revokes_previews (B1 B2 : Browser) (A : string) (s : App)
  (photos : list (File * string)) :
  NoDup (map id (albums s)) -> In A (map id (albums s)) ->
  picked B1 = Some photos -> sumSizes photos <= quotaBytes s ->
  firstThrow (canvas B1) photos = None ->
  let s1 := scanLocalFolderPhotosOnly B1 A s in
  let s2 := scanLocalFolderPhotosOnly B2 A s1 in
  revoked s2 = revoked s1 ++ skipn (List.length (created s)) (created s1).
Proof.
  intros Hnd Hin Hp Hq Hnone. cbv zeta.
  rewrite (scan_revoked B2 A). f_equal.
  pose proof (scan_in_quota B1 A s photos Hp Hq) as H. cbv zeta in H.
  destruct H as (_ & _ & Hcr & _ & _ & _ & H). rewrite Hnone in H.
  destruct H as (Ha & _ & _).
  rewrite Hcr, skipn_length_app, Ha.
  change (albums (scanProlog A s)) with
    (map (fun a => if negb (String.eqb (id a) A) then a
                   else mkAlbum (id a) (title a) (createdAt a) (a_originalBytes a)
                                (a_previewBytes a) (itemsScanned a) []) (albums s)).
  rewrite map_map, flat_map_concat_map, map_map, <- flat_map_concat_map.
  rewrite <- previewsOf_urls.
  apply (flat_map_one id _ A); [exact Hnd|exact Hin| |].
  - intros a _ Ea. apply String.eqb_eq in Ea. unfold stored. rewrite Ea. cbn [negb id].
    rewrite Ea. cbn [id previewUrls]. now rewrite Ea.
  - intros a _ Ea. apply String.eqb_neq in Ea. unfold stored. rewrite Ea. cbn [negb].
    now rewrite Ea, Ea.
Qed.

(** ** Creating a local album *)

(** A scan rewrites the album list element by element: ids and titles stay,
    and so do the albums that are not scanned. *)
Lemma scan_albums_map (B : Browser) (A : string) (s : App) :
  exists g : LocalAlbum -> LocalAlbum,
    albums (scanLocalFolderPhotosOnly B A s) = map g (albums s) /\
    forall a, id (g a) = id a /\ title (g a) = title a /\ createdAt (g a) = createdAt a /\
              (id a <> A -> g a = a).
Proof.
  set (reset := fun a => if negb (String.eqb (id a) A) then a
                 else mkAlbum (id a) (title a) (createdAt a) (a_originalBytes a)
                              (a_previewBytes a) (itemsScanned a) []).
  assert (Hreset : forall a, id (reset a) = id a /\ title (reset a) = title a /\
                             createdAt (reset a) = createdAt a /\ (id a <> A -> reset a = a)).
  { intros a. unfold reset. destruct (String.eqb (id a) A) eqn:E; cbn [negb].
    - repeat split. intros H. apply String.eqb_eq in E. contradiction.
    - repeat split. }
  destruct (scan_albums B A s) as [H|(photos & H)].
  - exists reset. split; [exact H|exact Hreset].
  - exists (fun a => stored B A s photos (reset a)). split.
    + rewrite H. change (albums (scanProlog A s)) with (map reset (albums s)).
      now rewrite map_map.
    + intros a. destruct (Hreset a) as (R1 & R2 & R3 & R4). unfold stored.
      rewrite R1. destruct (String.eqb (id a) A) eqn:E.
      * repeat split; try assumption. intros Hne. apply String.eqb_eq in E. contradiction.
      * repeat split; try assumption.
Qed.

(** X13. With a name that is not blank once trimmed, "Create & Pick Folder"
    puts the new album first in the list under the trimmed name and a
    fresh id, selects it, empties the name field and scans into it; the
    scan keeps the albums that were there, in their order, behind it. *)
Theorem createAlbum_scans (R : Runtime) (B : Browser) (t : UploadTab) :
  trim R (albumTitle t) <> EmptyString ->
  trim R (trim R (albumTitle t)) = trim R (albumTitle t) ->
  randomUUID R <> EmptyString ->
  let t' := createAlbumThenPickFolder R B t in
  scanState t' = scanLocalFolderPhotosOnly B (randomUUID R)
             (setAlbums (fun prev => mkAlbum (randomUUID R) (trim R (albumTitle t))
                                             (toISOString R) 0 0 0 [] :: prev) (scanState t)) /\
  selectedAlbumId t' = randomUUID R /\ albumTitle t' = EmptyString /\
  (exists a, selectedAlbum t' = Some a /\ nth_error (albums (scanState t')) 0 = Some a /\
             id a = randomUUID R /\ title a = trim R (albumTitle t)) /\
  List.length (albums (scanState t')) = S (List.length (albums (scanState t))) /\
  (forall i b, nth_error (albums (scanState t)) i = Some b -> id b <> randomUUID R ->
               nth_error (albums (scanState t')) (S i) = Some b).
Proof.
  intros Hname Hidem Hid. cbv zeta.
  unfold createAlbumThenPickFolder, createLocalAlbum.
  apply String.eqb_neq in Hname. rewrite Hname, Hidem, Hname.
  cbn [selectedAlbumId scanState albumTitle].
  apply String.eqb_neq in Hid. rewrite Hid.
  cbn [selectedAlbumId scanState albumTitle].
  split; [reflexivity|]. split; [reflexivity|]. split; [reflexivity|].
  destruct (scan_albums_map B (randomUUID R)
              (setAlbums (fun prev => mkAlbum (randomUUID R) (trim R (albumTitle t))
                                              (toISOString R) 0 0 0 [] :: prev) (scanState t)))
    as (g & Hg & Hprop).
  change (albums (setAlbums _ (scanState t)))
    with (mkAlbum (randomUUID R) (trim R (albumTitle t)) (toISOString R) 0 0 0 []
            :: albums (scanState t)) in Hg.
  cbn [map] in Hg.
  split; [|split].
  - eexists. unfold selectedAlbum. cbn [selectedAlbumId scanState]. rewrite Hg.
    destruct (Hprop (mkAlbum (randomUUID R) (trim R (albumTitle t)) (toISOString R) 0 0 0 []))
      as (G1 & G2 & _).
    cbn [find nth_error]. rewrite G1. cbn [id]. rewrite String.eqb_refl.
    repeat split; assumption.
  - rewrite Hg. cbn [List.length]. now rewrite length_map.
  - intros i b Hi Hne. rewrite Hg. cbn [nth_error]. rewrite nth_error_map, Hi.
    cbn [option_map]. f_equal. now apply Hprop.
Qed.

(** ** Sharing an album *)

Module ShareFacts.
Import Share.

Ltac panel :=
  cbn [albumId isOwner members shareEmail shareRole msg calls
       setMsg setMembers setShareEmail send] in *.

Lemma sent_app (s s' : Panel) (l : list Call) : calls s' = calls s ++ l -> sent s s' = l.
Proof. intros H. unfold sent. rewrite H. apply skipn_length_app. Qed.

Lemma filter_drops_one (uid : string) (l : list AlbumMember) :
  NoDup (map user_id l) -> In uid (map user_id l) ->
  S (List.length (filter (fun m => negb (String.eqb (user_id m) uid)) l)) = List.length l.
Proof.
  induction l as [|m l IH]; intros Hnd Hin; [contradiction|].
  cbn [map] in Hnd, Hin. inversion Hnd as [|? ? Hm Hnd']; subst.
  cbn [filter List.length]. destruct (String.eqb (user_id m) uid) eqn:E; cbn [negb].
  - apply String.eqb_eq in E. f_equal.
    assert (Hall : forall x, In x l -> negb (String.eqb (user_id x) uid) = true).
    { intros x Hx. apply negb_true_iff, String.eqb_neq. intros Ex. apply Hm.
      rewrite E, <- Ex. now apply in_map. }
    clear -Hall. induction l as [|x l IH]; [reflexivity|].
    cbn [filter]. rewrite (Hall x (or_introl eq_refl)). cbn [List.length]. f_equal.
    apply IH. intros y Hy. apply Hall. now right.
  - apply String.eqb_neq in E. cbn [List.length]. f_equal. apply IH; [exact Hnd'|].
    destruct Hin as [Hin|Hin]; [contradiction|exact Hin].
Qed.

End ShareFacts.

(** X14. [shareAdd] asks the backend to add a member only when the page belongs
    to the owner, fewer than three members are listed, and the profile of
    the typed email (trimmed, in lower case) was found; the member added is
    that profile, with the chosen role, in this album. In every other case
    the list of members on the page stays as it is. *)
Theorem shareAdd_guards (R : Runtime) (W : Share.Backend) (s : Share.Panel) :
  let s' := Share.shareAdd R W s in
  let email := toLowerCase R (trim R (Share.shareEmail s)) in
  (forall a u r, In (Share.InsertMember a u r) (Share.sent s s') ->
     Share.isOwner s = true /\ (List.length (Share.members s) < 3)%nat /\
     email <> EmptyString /\ Share.profile_id W email = Some u /\
     a = Share.albumId s /\ r = Share.shareRole s) /\
  (Share.members s' <> Share.members s ->
     exists u, In (Share.InsertMember (Share.albumId s) u (Share.shareRole s)) (Share.sent s s') /\
               Share.insert_member W (Share.albumId s) u (Share.shareRole s) = None) /\
  (Share.isOwner s = true -> (3 <= List.length (Share.members s))%nat ->
     email <> EmptyString ->
     Share.sent s s' = [] /\ Share.msg s' = Some Share.MaxSharedUsers).
Proof.
  cbv zeta. unfold Share.shareAdd. ShareFacts.panel.
  destruct (String.eqb (toLowerCase R (trim R (Share.shareEmail s))) EmptyString) eqn:E.
  { rewrite (ShareFacts.sent_app _ _ []) by (ShareFacts.panel; now rewrite app_nil_r).
    apply String.eqb_eq in E.
    split; [intros ? ? ? []|]. split; [intros H; now contradiction H|].
    intros _ _ H. contradiction. }
  apply String.eqb_neq in E.
  destruct (Share.isOwner s) eqn:Ho; cbn [negb].
  2:{ rewrite (ShareFacts.sent_app _ _ []) by (ShareFacts.panel; now rewrite app_nil_r).
      split; [intros ? ? ? []|]. split; [intros H; now contradiction H|].
      intros H; discriminate. }
  destruct (Nat.leb 3 (List.length (Share.members s))) eqn:Hn.
  { rewrite (ShareFacts.sent_app _ _ []) by (ShareFacts.panel; now rewrite app_nil_r).
    split; [intros ? ? ? []|]. split; [intros H; now contradiction H|].
    intros _ _ _. split; reflexivity. }
  apply Nat.leb_gt in Hn.
  destruct (Share.profile_id W _) as [uid|] eqn:Hp; ShareFacts.panel.
  2:{ rewrite (ShareFacts.sent_app _ _ [Share.LookupProfile _]) by reflexivity.
      split; [intros ? ? ? [H|[]]; discriminate|].
      split; [intros H; now contradiction H|]. intros _ H; lia. }
  destruct (Share.insert_member W _ uid _) as [e|] eqn:Hi; ShareFacts.panel.
  - rewrite (ShareFacts.sent_app _ _ [Share.LookupProfile _; Share.InsertMember _ uid _])
      by (ShareFacts.panel; now rewrite <- app_assoc).
    split.
    + intros a u r [H|[H|[]]]; [discriminate|]. injection H as <- <- <-. repeat split; auto.
    + split; [intros H; now contradiction H|]. intros _ H; lia.
  - rewrite (ShareFacts.sent_app _ _ [Share.LookupProfile _; Share.InsertMember _ uid _;
                                      Share.SelectMembers _])
      by (ShareFacts.panel; now rewrite <- !app_assoc).
    split.
    + intros a u r [H|[H|[H|[]]]]; try discriminate. injection H as <- <- <-.
      repeat split; auto.
    + split; [|intros _ H; lia].
      intros _. exists uid. split; [right; now left|exact Hi].
Qed.

(** X15. The page of the owner of an album with three members, each listed
    once, refuses to add a fourth without asking the backend. Once one of
    them is revoked, two are left on the page, and the next [shareAdd]
    goes on to look up the profile. *)
Theorem revoke_frees_a_place (R : Runtime) (W W' : Share.Backend) (uid email : string)
  (s : Share.Panel) :
  Share.isOwner s = true ->
  List.length (Share.members s) = 3%nat ->
  NoDup (map Share.user_id (Share.members s)) ->
  In uid (map Share.user_id (Share.members s)) ->
  Share.delete_member W (Share.albumId s) uid = None ->
  toLowerCase R (trim R email) <> EmptyString ->
  let typed := Share.setShareEmail email in
  let refused := Share.shareAdd R W' (typed s) in
  let s1 := Share.revoke W uid s in
  let s2 := Share.shareAdd R W' (typed s1) in
  Share.sent (typed s) refused = [] /\
  Share.msg refused = Some Share.MaxSharedUsers /\
  Share.members refused = Share.members s /\
  List.length (Share.members s1) = 2%nat /\
  (forall m, In m (Share.members s1) <-> In m (Share.members s) /\ Share.user_id m <> uid) /\
  exists rest,
    Share.sent (typed s1) s2 = Share.LookupProfile (toLowerCase R (trim R email)) :: rest.
Proof.
  intros Ho Hlen Hnd Hin Hdel Hmail. cbv zeta.
  apply String.eqb_neq in Hmail.
  assert (Hrev : Share.members (Share.revoke W uid s) =
                 filter (fun m => negb (String.eqb (Share.user_id m) uid)) (Share.members s)).
  { unfold Share.revoke. ShareFacts.panel. rewrite Ho. cbn [negb]. ShareFacts.panel.
    rewrite Hdel. reflexivity. }
  assert (Hown : Share.isOwner (Share.revoke W uid s) = true).
  { unfold Share.revoke. ShareFacts.panel. rewrite Ho. cbn [negb]. ShareFacts.panel.
    rewrite Hdel. exact Ho. }
  pose proof (ShareFacts.filter_drops_one uid (Share.members s) Hnd Hin) as Hone.
  split; [|split; [|split; [|split; [|split]]]].
  - unfold Share.shareAdd. ShareFacts.panel. rewrite Hmail, Ho, Hlen. cbn [negb Nat.leb].
    apply ShareFacts.sent_app. ShareFacts.panel. now rewrite app_nil_r.
  - unfold Share.shareAdd. ShareFacts.panel. rewrite Hmail, Ho, Hlen. reflexivity.
  - unfold Share.shareAdd. ShareFacts.panel. rewrite Hmail, Ho, Hlen. reflexivity.
  - rewrite Hrev. lia.
  - intros m. rewrite Hrev, filter_In, negb_true_iff, String.eqb_neq. reflexivity.
  - unfold Share.shareAdd. ShareFacts.panel. rewrite Hmail, Hown, Hrev. cbn [negb].
    replace (List.length (filter _ (Share.members s))) with 2%nat by lia.
    cbn [Nat.leb]. ShareFacts.panel.
    destruct (Share.profile_id W' _) as [u|]; ShareFacts.panel.
    + destruct (Share.insert_member W' _ u _) as [e|]; ShareFacts.panel;
        eexists; apply ShareFacts.sent_app; ShareFacts.panel;
        rewrite <- ?app_assoc; reflexivity.
    + eexists. apply ShareFacts.sent_app. reflexivity.
Qed.

(** ** What the upload loop inserts *)

Module UploadRows.
Import Upload UploadRun UploadFacts.

Lemma itemCalls_insert W aid i file j row :
  In (InsertItem j row) (itemCalls W aid i file) ->
  j = i /\
  exists buf w h b uid,
    arrayBuffer W i file = Ok buf /\
    itemExists W i aid (sha256Hex W buf) = false /\
    imageDims W i file = Ok (w, h) /\
    makePreviewBlob W i file 640 0.8%float = Ok b /\
    rpc_reserve_quota W i (blob_size b) = None /\
    storage_upload W i (aid ++ "/" ++ sha256Hex W buf ++ ".jpg")%string b = None /\
    auth_getUser W i = Some uid /\
    row = mkRow aid uid (sha256Hex W buf) (name file) (size file) (lastModified file)
                (exifDate W i file) w h (aid ++ "/" ++ sha256Hex W buf ++ ".jpg")%string.
Proof.
  unfold itemCalls, uploadFile.
  split_item W i file aid; cbn [In]; intros H;
    repeat (destruct H as [H|H]; [try discriminate|]); try contradiction.
  all: injection H as <- <-; split; [reflexivity|]; exists buf, w, h, pb, uid; auto 10.
Qed.

Lemma itemCalls_known W aid i file buf :
  arrayBuffer W i file = Ok buf ->
  itemExists W i aid (sha256Hex W buf) = true ->
  itemCalls W aid i file = [SelectItem i aid (sha256Hex W buf)] /\
  itemError W aid i file = None.
Proof.
  intros Hb He. unfold itemCalls, itemError, uploadFile. page_fields.
  rewrite Hb. page_fields. rewrite He. page_fields. split; reflexivity.
Qed.

Lemma insertedItems_app W l k :
  insertedItems W (l ++ k) = insertedItems W l ++ insertedItems W k.
Proof. apply flat_map_app. Qed.

Lemma uploadFile_added W i file dB dF s r s' :
  uploadFile W i file (dB, dF) s = (r, s') ->
  items s' = rev (insertedItems W (itemCalls W (albumId s) i file)) ++ items s.
Proof.
  unfold itemCalls, uploadFile.
  split_item W i file (albumId s); intros H; injection H as <- <-; page_fields;
    cbn [insertedItems flat_map app rev]; rewrite ?Hins; reflexivity.
Qed.

Lemma uploadFiles_added W images : forall i dB dF s r s',
  uploadFiles W i images (dB, dF) s = (r, s') ->
  items s' = rev (insertedItems W (runCalls W (albumId s) i images)) ++ items s.
Proof.
  induction images as [|f rest IH]; intros i dB dF s r s' H; cbn [uploadFiles] in H.
  - injection H as <- <-. reflexivity.
  - destruct (uploadFile W i f (dB, dF) s) as [r1 s1] eqn:H1.
    pose proof (uploadFile_added _ _ _ _ _ _ _ _ H1) as Ha1.
    pose proof (uploadFile_spec _ _ _ _ _ _ _ _ H1) as (Haid & _ & _ & _ & _ & Hr1).
    cbn [runCalls]. rewrite insertedItems_app, rev_app_distr, <- app_assoc, <- Ha1.
    destruct r1 as [[dB1 dF1]|e].
    + destruct Hr1 as (Herr & _). rewrite Herr.
      apply IH in H. now rewrite Haid in H.
    + destruct Hr1 as (Herr & _). rewrite Herr. injection H as <- <-. reflexivity.
Qed.

(** The loop reaches the file at position [k] when no file before it
    fails. *)
Lemma settled_reaches W aid images : forall i k file,
  firstError W aid i (firstn k images) = None ->
  nth_error images k = Some file ->
  itemError W aid (i + k) file = None ->
  (S k <= List.length (settled W aid i images))%nat.
Proof.
  induction images as [|f rest IH]; intros i k file Hbefore Hk Herr;
    [destruct k; discriminate|].
  destruct k as [|k]; cbn [nth_error firstn firstError settled] in *.
  - injection Hk as ->. rewrite Nat.add_0_r in Herr. rewrite Herr. cbn [List.length]. lia.
  - destruct (itemError W aid i f); [discriminate|]. cbn [List.length].
    apply le_n_S. apply (IH (S i) k file); [exact Hbefore|exact Hk|].
    now replace (S i + k)%nat with (i + S k)%nat by lia.
Qed.

Lemma progSteps_length tF tB done : forall dB dF,
  List.length (progSteps tF tB dB dF done) = List.length done.
Proof.
  induction done as [|f l IH]; intros dB dF; [reflexivity|].
  cbn [progSteps List.length]. now rewrite IH.
Qed.

End UploadRows.

(** X16. A row is inserted only for an image of the batch that is not in the
    album yet, after its dimensions were read, its preview was made, the
    reservation of the preview's size and the upload of the preview came
    back without an error and the user is known. The row carries the name,
    size and modification time of the file, the dimensions, the digest, and
    the path [albumId/sha256.jpg] under which the preview was uploaded. *)
Theorem upload_rows (W : Upload.World) (files : list File) (s : Upload.Page)
  (i : nat) (row : Upload.Row) :
  In (Upload.InsertItem i row) (UploadRun.newCalls W files s) ->
  exists file buf w h b uid,
    let sha := Upload.sha256Hex W buf in
    let path := (Upload.albumId s ++ "/" ++ sha ++ ".jpg")%string in
    nth_error (UploadRun.imagesOf files) i = Some file /\
    Upload.myRole s = Upload.write /\
    Upload.arrayBuffer W i file = Ok buf /\
    Upload.itemExists W i (Upload.albumId s) sha = false /\
    Upload.imageDims W i file = Ok (w, h) /\
    Upload.makePreviewBlob W i file 640 0.8%float = Ok b /\
    Upload.rpc_reserve_quota W i (blob_size b) = None /\
    Upload.storage_upload W i path b = None /\
    Upload.auth_getUser W i = Some uid /\
    row = Upload.mkRow (Upload.albumId s) uid sha (name file) (size file) (lastModified file)
                       (Upload.exifDate W i file) w h path.
Proof.
  intros Hin.
  destruct (UploadFacts.newCalls_cases W files s) as [H|(Hrole & _ & H)]; rewrite H in Hin;
    [contradiction|].
  apply UploadFacts.runCalls_in in Hin. destruct Hin as (k & file & Hk & Hc & _).
  cbn [Nat.add] in Hc. apply UploadRows.itemCalls_insert in Hc.
  destruct Hc as (-> & buf & w & h & b & uid & H1 & H2 & H3 & H4 & H5 & H6 & H7 & H8).
  exists file, buf, w, h, b, uid. cbv zeta.
  repeat split; assumption.
Qed.

(** X17. For a file whose digest is already in the album, the loop sends the
    look-up and nothing else: no reservation, no upload, no row. When the
    loop reaches the file (the user may write and no file before it fails),
    the look-up is sent and the file counts as done: the progress set after
    it shows one more file and the file's bytes. *)
Theorem upload_skips_known (W : Upload.World) (files : list File) (s : Upload.Page)
  (i : nat) (file : File) (buf : list byte) :
  nth_error (UploadRun.imagesOf files) i = Some file ->
  Upload.arrayBuffer W i file = Ok buf ->
  Upload.itemExists W i (Upload.albumId s) (Upload.sha256Hex W buf) = true ->
  let images := UploadRun.imagesOf files in
  let lookup := Upload.SelectItem i (Upload.albumId s) (Upload.sha256Hex W buf) in
  UploadRun.itemError W (Upload.albumId s) i file = None /\
  (forall c, In c (UploadRun.newCalls W files s) -> UploadRun.callIndex c = i -> c = lookup) /\
  (Upload.myRole s = Upload.write ->
   UploadRun.firstError W (Upload.albumId s) 0 (firstn i images) = None ->
   In lookup (UploadRun.newCalls W files s) /\
   nth_error (UploadRun.newProgs W files s) i =
     Some (Upload.mkProg (Z.of_nat (List.length images)) (Z.of_nat i)
                         (sizesOf images) (sizesOf (firstn i images))) /\
   nth_error (UploadRun.newProgs W files s) (S i) =
     Some (Upload.mkProg (Z.of_nat (List.length images)) (Z.of_nat i + 1)
                         (sizesOf images) (sizesOf (firstn i images) + size file))).
Proof.
  intros Hn Hb He. cbv zeta.
  destruct (UploadRows.itemCalls_known W (Upload.albumId s) i file buf Hb He) as (Hc & Herr).
  split; [exact Herr|]. split.
  - intros c Hin Hi.
    destruct (UploadFacts.newCalls_cases W files s) as [H|(_ & _ & H)]; rewrite H in Hin;
      [contradiction|].
    apply UploadFacts.runCalls_in in Hin. destruct Hin as (k & f & Hk & Hin & _).
    cbn [Nat.add] in Hin. pose proof (UploadFacts.itemCalls_index _ _ _ _ _ Hin) as Hidx.
    rewrite Hi in Hidx. subst k.
    assert (f = file) by congruence. subst f.
    assert (Hin' : In c [Upload.SelectItem i (Upload.albumId s) (Upload.sha256Hex W buf)])
      by (rewrite <- Hc; exact Hin).
    destruct Hin' as [<-|[]]. reflexivity.
  - intros Hrole Hbefore.
    assert (Hne : UploadRun.imagesOf files <> []).
    { intros E. rewrite E in Hn. destruct i; discriminate. }
    pose proof (UploadRows.settled_reaches W (Upload.albumId s) (UploadRun.imagesOf files)
                  0 i file Hbefore Hn Herr) as Hreach.
    destruct (UploadFacts.onPickFolder_run W files s Hrole Hne) as (Hcalls & Hlog & _).
    split; [|].
    + unfold UploadRun.newCalls.
      assert (E : skipn (List.length (Upload.calls s))
                    (Upload.calls (Upload.onPickFolder W files s)) =
                  UploadRun.runCalls W (Upload.albumId s) 0 (UploadRun.imagesOf files)).
      { rewrite <- (skipn_length_app (Upload.calls s)
                      (UploadRun.runCalls W (Upload.albumId s) 0 (UploadRun.imagesOf files))).
        f_equal. exact Hcalls. }
      rewrite E.
      apply (UploadFacts.runCalls_item W (Upload.albumId s) _ 0 i file); [exact Hn|lia|].
      cbn [Nat.add]. rewrite Hc. now left.
    + assert (E : UploadRun.newProgs W files s =
                  UploadRun.startProg (UploadRun.imagesOf files) ::
                  UploadRun.progSteps (Z.of_nat (List.length (UploadRun.imagesOf files)))
                    (Upload.sumSizes (UploadRun.imagesOf files)) 0 0
                    (UploadRun.settled W (Upload.albumId s) 0 (UploadRun.imagesOf files))).
      { unfold UploadRun.newProgs.
        rewrite <- (skipn_length_app (Upload.progLog s) (_ :: _)).
        f_equal. exact Hlog. }
      rewrite E.
      set (done := UploadRun.settled W (Upload.albumId s) 0 (UploadRun.imagesOf files)) in *.
      pose proof (UploadFacts.settled_prefix W (Upload.albumId s)
                    (UploadRun.imagesOf files) 0%nat) as Hpre. fold done in Hpre.
      assert (Hfirst : forall k, (k <= List.length done)%nat ->
                firstn k done = firstn k (UploadRun.imagesOf files)).
      { intros k Hk. rewrite Hpre, firstn_firstn. f_equal. lia. }
      assert (Hstep : forall k, (S k <= List.length done)%nat ->
                nth_error (UploadRun.progSteps
                             (Z.of_nat (List.length (UploadRun.imagesOf files)))
                             (Upload.sumSizes (UploadRun.imagesOf files)) 0 0 done) k =
                Some (Upload.mkProg (Z.of_nat (List.length (UploadRun.imagesOf files)))
                        (Z.of_nat (S k)) (sizesOf (UploadRun.imagesOf files))
                        (sizesOf (firstn (S k) (UploadRun.imagesOf files))))).
      { intros k Hk.
        destruct (nth_error (UploadRun.progSteps _ _ 0 0 done) k) as [p|] eqn:Hp.
        - destruct (UploadFacts.progSteps_nth _ _ _ _ _ _ _ Hp) as (P1 & P2 & P3 & P4).
          rewrite (Hfirst _ Hk), UploadFacts.sumSizes_images in *.
          destruct p as [a b c d]. cbn in P1, P2, P3, P4. subst. repeat f_equal; lia.
        - apply nth_error_None in Hp.
          rewrite UploadRows.progSteps_length in Hp.
          lia. }
      assert (Hsize : sizesOf (firstn (S i) (UploadRun.imagesOf files)) =
                      sizesOf (firstn i (UploadRun.imagesOf files)) + size file).
      { clear - Hn. revert i Hn.
        induction (UploadRun.imagesOf files) as [|f l IH]; intros i Hn;
          [destruct i; discriminate|].
        destruct i as [|i]; cbn [nth_error] in Hn.
        - injection Hn as ->. cbn [firstn]. rewrite sizesOf_cons. cbn. lia.
        - change (firstn (S (S i)) (f :: l)) with (f :: firstn (S i) l).
          change (firstn (S i) (f :: l)) with (f :: firstn i l).
          rewrite !sizesOf_cons, (IH _ Hn). lia. }
      split.
      * destruct i as [|i]; cbn [nth_error].
        -- unfold UploadRun.startProg. rewrite UploadFacts.sumSizes_images. reflexivity.
        -- rewrite Hstep by lia. reflexivity.
      * cbn [nth_error]. rewrite Hstep by lia. rewrite Hsize. do 2 f_equal. lia.
Qed.

(** X18. The items of the page after a run are the rows that the backend
    returned for the inserts of this run, the latest first, on top of the
    items that were there. *)
Theorem upload_items (W : Upload.World) (files : list File) (s : Upload.Page) :
  Upload.items (Upload.onPickFolder W files s) =
  rev (insertedItems W (UploadRun.newCalls W files s)) ++ Upload.items s.
Proof.
  unfold UploadRun.newCalls. unfold Upload.onPickFolder.
  destruct files as [|f0 files]; [cbn; now rewrite skipn_all|].
  change (Upload.myRole (Upload.setMsg None s)) with (Upload.myRole s).
  destruct (Upload.myRole s) eqn:Hrole; [cbn; now rewrite skipn_all|].
  destruct (filter Upload.isImageFile (f0 :: files)) as [|im images] eqn:Him;
    [cbn; now rewrite skipn_all|].
  destruct (Upload.uploadFiles W 0 (im :: images) (0, 0) _) as [r s2] eqn:Hrun.
  pose proof (UploadRows.uploadFiles_added _ _ _ _ _ _ _ _ Hrun) as Ha.
  pose proof (UploadFacts.uploadFiles_spec _ _ _ _ _ _ _ _ Hrun) as (_ & _ & _ & _ & Hc & _).
  UploadRun.page_fields.
  destruct r; UploadRun.page_fields; rewrite Hc, skipn_length_app; exact Ha.
Qed.

Example upload_items_sample :
  map Upload.file_name
      (Upload.items (Upload.onPickFolder Sample2.knownFirst Sample.threeFiles Sample.page))
  = ["c.jpg"; "b.jpg"]%string.
Proof. reflexivity. Qed.

(** ** The order of the requests of the upload loop *)

Module UploadOrder.
Import Upload UploadRun UploadFacts.

Lemma itemCalls_steps W aid i file :
  exists k, (k <= 5)%nat /\ map step (itemCalls W aid i file) = seq 0 k.
Proof.
  unfold itemCalls, uploadFile.
  split_item W i file aid;
    first [exists 0%nat; split; [lia|reflexivity]
          |exists 1%nat; split; [lia|reflexivity]
          |exists 2%nat; split; [lia|reflexivity]
          |exists 3%nat; split; [lia|reflexivity]
          |exists 4%nat; split; [lia|reflexivity]
          |exists 5%nat; split; [lia|reflexivity]].
Qed.

Lemma callsFor_all (i : nat) (l : list Call) :
  (forall c, In c l -> callIndex c = i) -> callsFor i l = l.
Proof.
  intros H. induction l as [|c l IH]; [reflexivity|].
  unfold callsFor in *. cbn [filter]. rewrite (H c (or_introl eq_refl)), Nat.eqb_refl.
  f_equal. apply IH. intros x Hx. apply H. now right.
Qed.

Lemma callsFor_none (i : nat) (l : list Call) :
  (forall c, In c l -> callIndex c <> i) -> callsFor i l = [].
Proof.
  intros H. induction l as [|c l IH]; [reflexivity|].
  unfold callsFor in *. cbn [filter].
  destruct (Nat.eqb (callIndex c) i) eqn:E.
  - apply Nat.eqb_eq in E. now contradiction (H c (or_introl eq_refl)).
  - apply IH. intros x Hx. apply H. now right.
Qed.

Lemma callsFor_runCalls W aid images : forall j i,
  callsFor i (runCalls W aid j images) = [] \/
  exists file, callsFor i (runCalls W aid j images) = itemCalls W aid i file.
Proof.
  induction images as [|f rest IH]; intros j i; cbn [runCalls]; [now left|].
  unfold callsFor. rewrite filter_app. fold (callsFor i (itemCalls W aid j f)).
  destruct (Nat.eq_dec i j) as [->|Hne].
  - right. exists f. rewrite callsFor_all by (intros c Hc; eapply itemCalls_index, Hc).
    destruct (itemError W aid j f); [apply app_nil_r|].
    fold (callsFor j (runCalls W aid (S j) rest)).
    rewrite callsFor_none; [apply app_nil_r|].
    intros c Hc. apply runCalls_index in Hc. lia.
  - rewrite callsFor_none
      by (intros c Hc; apply itemCalls_index in Hc; lia).
    cbn [app]. destruct (itemError W aid j f); [now left|].
    apply IH.
Qed.

End UploadOrder.

(** X19. The requests that one run sends for one file come in a fixed order,
    each at most once: the duplicate look-up, the reservation, the upload
    of the preview, the question for the user and the insert; the turn of
    the file may end after any of them. *)
Theorem upload_order (W : Upload.World) (files : list File) (s : Upload.Page) (i : nat) :
  exists k, (k <= 5)%nat /\
            map step (callsFor i (UploadRun.newCalls W files s)) = seq 0 k.
Proof.
  destruct (UploadFacts.newCalls_cases W files s) as [->|(_ & _ & ->)].
  - exists 0%nat. split; [lia|reflexivity].
  - destruct (UploadOrder.callsFor_runCalls W (Upload.albumId s) (UploadRun.imagesOf files) 0 i)
      as [->|(file & ->)].
    + exists 0%nat. split; [lia|reflexivity].
    + apply UploadOrder.itemCalls_steps.
Qed.

(** ** Access to an album *)

(** X20. Loading the album page gives its owner write access. For anyone else
    the role is that of the membership row, and when there is none the role
    that the page had before stays. So on a page that starts with read
    access, a user who is neither the owner nor a member keeps it: picking
    a folder then sends nothing to the backend, adds no item and shows
    "You only have read access." *)
Theorem album_access (W : AlbumLoad.Backend) (v : AlbumLoad.View) (uid : string)
  (alb : Profile.Album) :
  AlbumLoad.auth_getUser W = Some uid -> uid <> EmptyString ->
  AlbumLoad.select_album W (Upload.albumId (AlbumLoad.page v)) = inr alb ->
  let v' := AlbumLoad.load W v in
  let aid := Upload.albumId (AlbumLoad.page v) in
  Upload.albumId (AlbumLoad.page v') = aid /\
  AlbumLoad.isOwner v' = String.eqb (Profile.owner_id alb) uid /\
  (Profile.owner_id alb = uid -> Upload.myRole (AlbumLoad.page v') = Upload.write) /\
  (Profile.owner_id alb <> uid ->
     Upload.myRole (AlbumLoad.page v') =
       match AlbumLoad.select_membership W aid uid with
       | Some r => r
       | None => Upload.myRole (AlbumLoad.page v)
       end) /\
  (Profile.owner_id alb <> uid -> AlbumLoad.select_membership W aid uid = None ->
   Upload.myRole (AlbumLoad.page v) = Upload.read ->
   forall (U : Upload.World) (files : list File), files <> [] ->
     let s' := Upload.onPickFolder U files (AlbumLoad.page v') in
     Upload.calls s' = Upload.calls (AlbumLoad.page v') /\
     Upload.items s' = Upload.items (AlbumLoad.page v') /\
     Upload.msg s' = Some "You only have read access."%string).
Proof.
  intros Hu Hne Ha. cbv zeta. unfold AlbumLoad.load.
  cbn [AlbumLoad.page AlbumLoad.onPage]. rewrite Hu.
  apply String.eqb_neq in Hne. rewrite Hne.
  change (Upload.albumId (Upload.setMsg None (AlbumLoad.page v)))
    with (Upload.albumId (AlbumLoad.page v)).
  rewrite Ha.
  destruct (String.eqb (Profile.owner_id alb) uid) eqn:Eo.
  - apply String.eqb_eq in Eo. cbn. repeat split; try reflexivity; intros; contradiction.
  - apply String.eqb_neq in Eo.
    destruct (AlbumLoad.select_membership W _ uid) as [r|] eqn:Em.
    + cbn. repeat split; try reflexivity; intros; try contradiction; discriminate.
    + cbn. split; [reflexivity|]. split; [reflexivity|].
      split; [intros; contradiction|]. split; [reflexivity|].
      intros _ _ Hr U files Hf. destruct files as [|f files]; [contradiction|].
      unfold Upload.onPickFolder. cbn. rewrite Hr. repeat split.
Qed.

(** ** The gallery *)

Module GalleryFacts.
Import Gallery.
Import Permutation.

Lemma insert_perm {A : Type} (cmp : A -> A -> Z) (x : A) (l : list A) :
  Permutation (insert cmp x l) (x :: l).
Proof.
  induction l as [|y l IH]; cbn [insert]; [apply Permutation_refl|].
  destruct (cmp y x <=? 0); [|apply Permutation_refl].
  eapply perm_trans; [apply perm_skip, IH|apply perm_swap].
Qed.

Lemma sort_perm {A : Type} (cmp : A -> A -> Z) (l : list A) : Permutation (sort cmp l) l.
Proof.
  unfold sort.
  assert (H : forall acc, Permutation (fold_left (fun acc x => insert cmp x acc) l acc)
                                      (acc ++ l)).
  { induction l as [|x l IH]; intros acc; cbn [fold_left].
    - rewrite app_nil_r. apply Permutation_refl.
    - eapply perm_trans; [apply IH|].
      eapply perm_trans; [apply Permutation_app_tail, insert_perm|].
      cbn [app]. apply Permutation_middle. }
  apply (H []).
Qed.

Lemma set_add_spec (x : string) (s : list string) :
  NoDup s -> NoDup (set_add x s) /\ forall y, In y (set_add x s) <-> y = x \/ In y s.
Proof.
  intros Hnd. unfold set_add. destruct (existsb (String.eqb x) s) eqn:E.
  - split; [exact Hnd|]. intros y. split; [now right|].
    intros [->|H]; [|exact H]. apply existsb_exists in E.
    destruct E as (z & Hz & Ez). apply String.eqb_eq in Ez. now subst.
  - split.
    + apply NoDup_app; [exact Hnd|repeat constructor; intros []|].
      intros y Hy [->|[]].
      assert (existsb (String.eqb y) s = true); [|congruence].
      apply existsb_exists. exists y. split; [exact Hy|apply String.eqb_refl].
    + intros y. rewrite in_app_iff. cbn [In]. intuition congruence.
Qed.

Lemma folder_set (all : list PhotoItem) : forall s,
  NoDup s ->
  let s' := fold_left (fun s it => set_add (safeStr (parent_folder it)) s) all s in
  NoDup s' /\
  forall f, In f s' <-> In f s \/ exists it, In it all /\ safeStr (parent_folder it) = f.
Proof.
  induction all as [|it all IH]; intros s Hnd; cbn [fold_left].
  - split; [exact Hnd|]. intros f. split; [now left|]. intros [H|(it & [] & _)]. exact H.
  - destruct (set_add_spec (safeStr (parent_folder it)) s Hnd) as (Hnd' & Hin).
    destruct (IH _ Hnd') as (Hnd'' & Hin''). split; [exact Hnd''|].
    intros f. rewrite Hin'', Hin. cbn [In]. split.
    + intros [[->|H]|(x & Hx & Ex)]; [right; exists it; auto|now left|right; exists x; auto].
    + intros [H|(x & [<-|Hx] & Ex)]; [left; now right|left; left; now symmetry|right; eauto].
Qed.

Lemma filtered_In (R : Runtime) (all : list PhotoItem) (q folder : string)
  (dup : DupFilter) (mode : SortMode) (x : PhotoItem) :
  In x (filtered R all q folder dup mode) <->
  In x all /\ shows R (toLowerCase R (trim R q)) folder dup x = true.
Proof.
  unfold filtered. cbv zeta. rewrite <- filter_In.
  pose proof (sort_perm (comparator R mode)
                (filter (shows R (toLowerCase R (trim R q)) folder dup) all)) as P.
  split; apply Permutation_in; [exact P|apply Permutation_sym, P].
Qed.

End GalleryFacts.

(** X21. The gallery shows the items that pass the folder filter, the duplicate
    filter and the search, each once for each time it is in the data,
    whatever the sort order; with no folder chosen, every duplicate setting
    allowed and a blank search it shows them all. *)
Theorem filtered_items (R : Runtime) (all : list Gallery.PhotoItem) (q folder : string)
  (dup : Gallery.DupFilter) (mode : Gallery.SortMode) :
  let qq := toLowerCase R (trim R q) in
  Permutation.Permutation (Gallery.filtered R all q folder dup mode)
                          (filter (Gallery.shows R qq folder dup) all) /\
  (forall x, In x (Gallery.filtered R all q folder dup mode) <->
             In x all /\ Gallery.shows R qq folder dup x = true) /\
  (forall x, In x (Gallery.filtered R all q folder dup mode) ->
     (folder = "(all)"%string \/ Gallery.safeStr (Gallery.parent_folder x) = folder) /\
     (dup = Gallery.f_dup -> Gallery.is_duplicate x = Some true) /\
     (dup = Gallery.f_nodup -> Gallery.is_duplicate x <> Some true)) /\
  (qq = EmptyString -> folder = "(all)"%string -> dup = Gallery.f_all ->
   Permutation.Permutation (Gallery.filtered R all q folder dup mode) all).
Proof.
  cbv zeta. unfold Gallery.filtered.
  pose proof (GalleryFacts.sort_perm (Gallery.comparator R mode)
                (filter (Gallery.shows R (toLowerCase R (trim R q)) folder dup) all)) as P.
  assert (Hin : forall x, In x (Gallery.sort (Gallery.comparator R mode)
                  (filter (Gallery.shows R (toLowerCase R (trim R q)) folder dup) all)) <->
                In x all /\ Gallery.shows R (toLowerCase R (trim R q)) folder dup x = true)
    by exact (GalleryFacts.filtered_In R all q folder dup mode).
  split; [exact P|]. split; [exact Hin|]. split.
  - intros x Hx. apply Hin in Hx. destruct Hx as (_ & Hs). unfold Gallery.shows in Hs.
    destruct (String.eqb folder "(all)") eqn:Ef; cbn [negb andb] in Hs.
    + apply String.eqb_eq in Ef. split; [now left|].
      destruct dup; cbn [andb] in Hs; (split; [intros D|intros D]); try discriminate.
      * destruct (Gallery.is_duplicate x) as [[|]|]; cbn in Hs; congruence.
      * destruct (Gallery.is_duplicate x) as [[|]|]; cbn in Hs; congruence.
    + destruct (String.eqb (Gallery.safeStr (Gallery.parent_folder x)) folder) eqn:Ep;
        cbn [negb] in Hs; [|discriminate].
      apply String.eqb_eq in Ep. split; [now right|].
      destruct dup; cbn [andb] in Hs; (split; [intros D|intros D]); try discriminate.
      * destruct (Gallery.is_duplicate x) as [[|]|]; cbn in Hs; congruence.
      * destruct (Gallery.is_duplicate x) as [[|]|]; cbn in Hs; congruence.
  - intros Hq -> ->. rewrite Hq in *. eapply Permutation.perm_trans; [exact P|].
    clear.
    induction all as [|x all IH]; [constructor|].
    cbn [filter]. unfold Gallery.shows at 1. cbn. now constructor.
Qed.

(** X22. The folder menu starts with ["(all)"], followed by the folders of the
    items, each once. Whichever entry is chosen, with every duplicate
    setting allowed and a blank search, the gallery is not empty unless
    there are no items at all. *)
Theorem folders_menu (R : Runtime) (all : list Gallery.PhotoItem) :
  exists names,
    Gallery.folders R all = "(all)"%string :: names /\
    NoDup names /\
    (forall f, In f names <->
               exists it, In it all /\ Gallery.safeStr (Gallery.parent_folder it) = f) /\
    (forall f q mode, In f (Gallery.folders R all) -> all <> [] ->
       toLowerCase R (trim R q) = EmptyString ->
       Gallery.filtered R all q f Gallery.f_all mode <> []).
Proof.
  unfold Gallery.folders.
  destruct (GalleryFacts.folder_set all [] (NoDup_nil _)) as (Hnd & Hin). cbv zeta in *.
  set (s := fold_left _ all []) in *.
  pose proof (GalleryFacts.sort_perm (localeCompare R) s) as P.
  assert (Hnames : forall f, In f (Gallery.sort (localeCompare R) s) <->
            exists it, In it all /\ Gallery.safeStr (Gallery.parent_folder it) = f).
  { intros f. split.
    - intros H. apply (Permutation.Permutation_in _ P) in H. apply Hin in H.
      destruct H as [[]|H]. exact H.
    - intros H. apply (Permutation.Permutation_in _ (Permutation.Permutation_sym P)).
      apply Hin. now right. }
  eexists. split; [reflexivity|]. split; [|split; [exact Hnames|]].
  - eapply Permutation.Permutation_NoDup; [apply Permutation.Permutation_sym, P|exact Hnd].
  - intros f q mode Hf Hall Hq Hempty.
    pose proof (GalleryFacts.filtered_In R all q f Gallery.f_all mode) as Hmem.
    assert (Hx : exists x, In x all /\
                 Gallery.shows R (toLowerCase R (trim R q)) f Gallery.f_all x = true).
    { rewrite Hq. destruct Hf as [<-|Hf].
      - destruct all as [|x all']; [now contradiction Hall|].
        exists x. split; [now left|reflexivity].
      - apply Hnames in Hf. destruct Hf as (it & Hit & Ef). exists it. split; [exact Hit|].
        unfold Gallery.shows. rewrite Ef, String.eqb_refl. cbn [negb andb].
        rewrite andb_false_r. reflexivity. }
    destruct Hx as (x & Hx). apply Hmem in Hx. rewrite Hempty in Hx. contradiction.
Qed.

(** ** The order of the gallery *)

Module SortFacts.
Import Gallery.

Section Consistent.
Context {A : Type} (cmp : A -> A -> Z) (Hc : consistent cmp).

Lemma cmp_swap a b : Z.sgn (cmp a b) = - Z.sgn (cmp b a).
Proof. apply Hc. Qed.

Lemma cmp_trans a b c : cmp a b <= 0 -> cmp b c <= 0 -> cmp a c <= 0.
Proof. apply Hc. Qed.

Lemma cmp_total a b : 0 < cmp a b -> cmp b a <= 0.
Proof. pose proof (cmp_swap a b). lia. Qed.

Lemma cmp_zero a b : cmp a b = 0 -> cmp b a = 0.
Proof. pose proof (cmp_swap a b). lia. Qed.

Lemma cmp_lt_le a b c : cmp a b < 0 -> cmp b c <= 0 -> cmp a c < 0.
Proof.
  intros H1 H2. pose proof (cmp_trans a b c ltac:(lia) H2) as H3.
  destruct (Z.eq_dec (cmp a c) 0) as [E|E]; [|lia].
  apply cmp_zero in E. pose proof (cmp_trans b c a H2 ltac:(lia)).
  pose proof (cmp_swap a b). lia.
Qed.

Lemma cmp_le_lt a b c : cmp a b <= 0 -> cmp b c < 0 -> cmp a c < 0.
Proof.
  intros H1 H2. pose proof (cmp_trans a b c H1 ltac:(lia)) as H3.
  destruct (Z.eq_dec (cmp a c) 0) as [E|E]; [|lia].
  apply cmp_zero in E. pose proof (cmp_trans c a b ltac:(lia) H1).
  pose proof (cmp_swap b c). lia.
Qed.

Lemma cmp_zero_trans a b c : cmp a b = 0 -> cmp b c = 0 -> cmp a c = 0.
Proof.
  intros H1 H2. pose proof (cmp_trans a b c ltac:(lia) ltac:(lia)).
  pose proof (cmp_zero _ _ H1). pose proof (cmp_zero _ _ H2).
  pose proof (cmp_trans c b a ltac:(lia) ltac:(lia)).
  pose proof (cmp_swap a c). lia.
Qed.

Lemma insert_Forall (P : A -> Prop) x l : P x -> Forall P l -> Forall P (insert cmp x l).
Proof.
  intros Hx Hl. induction Hl as [|y l Hy Hl IH]; cbn [insert]; [repeat constructor; exact Hx|].
  destruct (cmp y x <=? 0); repeat constructor; assumption.
Qed.

Lemma insert_ordered x l : ordered cmp l -> ordered cmp (insert cmp x l).
Proof.
  unfold ordered. intros Hl. induction Hl as [|y l Hl IH Hy]; cbn [insert].
  - repeat constructor.
  - destruct (cmp y x <=? 0) eqn:E.
    + apply Z.leb_le in E. constructor; [exact IH|].
      apply insert_Forall; [exact E|exact Hy].
    + apply Z.leb_gt in E. constructor; [now constructor|].
      constructor; [now apply cmp_total|].
      eapply Forall_impl; [|exact Hy]. intros z Hz.
      apply (cmp_trans x y z); [now apply cmp_total|exact Hz].
Qed.

Lemma sort_ordered l : ordered cmp (sort cmp l).
Proof.
  unfold sort.
  assert (H : forall acc, ordered cmp acc ->
            ordered cmp (fold_left (fun acc x => insert cmp x acc) l acc)).
  { induction l as [|x l IH]; intros acc Hacc; [exact Hacc|].
    cbn [fold_left]. apply IH, insert_ordered, Hacc. }
  apply H. constructor.
Qed.

End Consistent.

Lemma consistent_on {A B : Type} (cmp : B -> B -> Z) (key : A -> B) :
  consistent cmp -> consistent (fun a b => cmp (key a) (key b)).
Proof. intros [H1 H2]. split; intros; [apply H1|eapply H2; eassumption]. Qed.

Lemma consistent_flip {A : Type} (cmp : A -> A -> Z) :
  consistent cmp -> consistent (fun a b => cmp b a).
Proof. intros [H1 H2]. split; intros; [apply H1|eapply H2; eassumption]. Qed.

Lemma consistent_orElse {A : Type} (c1 c2 : A -> A -> Z) :
  consistent c1 -> consistent c2 -> consistent (fun a b => orElse (c1 a b) (c2 a b)).
Proof.
  intros H1 H2. split.
  - intros a b. unfold orElse.
    pose proof (cmp_swap c1 H1 a b). pose proof (cmp_swap c2 H2 a b).
    destruct (c1 a b =? 0) eqn:E1; destruct (c1 b a =? 0) eqn:E2;
      rewrite ?Z.eqb_eq, ?Z.eqb_neq in *; lia.
  - intros a b c. unfold orElse.
    destruct (c1 a b =? 0) eqn:E1; destruct (c1 b c =? 0) eqn:E2;
      destruct (c1 a c =? 0) eqn:E3; rewrite ?Z.eqb_eq, ?Z.eqb_neq in *; intros Hab Hbc.
    + eapply (cmp_trans c2 H2); eassumption.
    + pose proof (cmp_zero_trans c1 H1 a b c E1 E2). contradiction.
    + pose proof (cmp_le_lt c1 H1 a b c ltac:(lia) ltac:(lia)). lia.
    + pose proof (cmp_le_lt c1 H1 a b c ltac:(lia) ltac:(lia)). lia.
    + pose proof (cmp_lt_le c1 H1 a b c ltac:(lia) ltac:(lia)). lia.
    + pose proof (cmp_lt_le c1 H1 a b c ltac:(lia) ltac:(lia)). lia.
    + pose proof (cmp_lt_le c1 H1 a b c ltac:(lia) ltac:(lia)). lia.
    + pose proof (cmp_lt_le c1 H1 a b c ltac:(lia) ltac:(lia)). lia.
Qed.

Lemma comparator_consistent (R : Runtime) (mode : SortMode) :
  consistent (localeCompare R) -> consistent (comparator R mode).
Proof.
  intros H.
  pose proof (consistent_on (localeCompare R) (fun a => safeStr (captured_at a)) H) as Hd.
  pose proof (consistent_on (localeCompare R) (fun a => safeStr (file_name a)) H) as Hn.
  destruct mode.
  - exact (consistent_orElse _ _ (consistent_flip _ Hd) Hn).
  - exact (consistent_orElse _ _ Hd Hn).
  - exact Hn.
  - exact (consistent_flip _ Hn).
Qed.

End SortFacts.

(** X23. When [localeCompare] orders strings consistently, the gallery is in the
    chosen order: by name upwards or downwards, or by date of capture
    upwards or downwards and, among items of the same date, by name
    upwards. *)
Theorem filtered_ordered (R : Runtime) (all : list Gallery.PhotoItem) (q folder : string)
  (dup : Gallery.DupFilter) (mode : Gallery.SortMode) :
  consistent (localeCompare R) ->
  let name x := Gallery.safeStr (Gallery.file_name x) in
  let date x := Gallery.safeStr (Gallery.captured_at x) in
  let before :=
    match mode with
    | Gallery.name_asc => fun a b => localeCompare R (name a) (name b) <= 0
    | Gallery.name_desc => fun a b => localeCompare R (name b) (name a) <= 0
    | Gallery.date_asc => fun a b =>
        localeCompare R (date a) (date b) <= 0 /\
        (localeCompare R (date a) (date b) = 0 -> localeCompare R (name a) (name b) <= 0)
    | Gallery.date_desc => fun a b =>
        localeCompare R (date b) (date a) <= 0 /\
        (localeCompare R (date b) (date a) = 0 -> localeCompare R (name a) (name b) <= 0)
    end in
  Sorted.StronglySorted before (Gallery.filtered R all q folder dup mode).
Proof.
  intros Hc. cbv zeta. unfold Gallery.filtered.
  pose proof (SortFacts.sort_ordered (Gallery.comparator R mode)
                (SortFacts.comparator_consistent R mode Hc)
                (filter (Gallery.shows R (toLowerCase R (trim R q)) folder dup) all)) as H.
  unfold ordered in H. revert H. generalize (Gallery.sort (Gallery.comparator R mode)
                (filter (Gallery.shows R (toLowerCase R (trim R q)) folder dup) all)).
  intros l H. induction H as [|x l Hl IH Hx]; constructor; [exact IH|].
  eapply Forall_impl; [|exact Hx]. intros y Hy.
  destruct mode; cbn [Gallery.comparator] in Hy;
    unfold Gallery.orElse, Gallery.byCaptured, Gallery.byName in Hy.
  - destruct (localeCompare R _ _ =? 0) eqn:E; rewrite ?Z.eqb_eq, ?Z.eqb_neq in E; split; lia.
  - destruct (localeCompare R _ _ =? 0) eqn:E; rewrite ?Z.eqb_eq, ?Z.eqb_neq in E; split; lia.
  - exact Hy.
  - exact Hy.
Qed.

(** ** The further properties on sample inputs *)

Example fmtBytes_samples :
  map Format.fmtBytes [Some 0; Some 1023; Some 1024; Some 1280; Some 1048575;
                       Some 104857600; Some (2000 * 1024 ^ 3); None]
  = ["0 B"; "1023 B"; "1.0 KB"; "1.3 KB"; "1024.0 KB"; "100.0 MB"; "2000.0 GB";
     EmptyString]%string.
Proof. vm_compute. reflexivity. Qed.

Example hexOf_sample : hexOf [x00; x0a; xff; x10] = "000aff10"%string.
Proof. reflexivity. Qed.

Example previewSize_samples :
  previewSize 640%float 1920%float 1080%float = (640%float, 360%float) /\
  previewSize 640%float 3000%float 2001%float = (640%float, 427%float) /\
  previewSize 640%float 5%float 4000%float = (1%float, 640%float).
Proof. vm_compute. repeat split. Qed.

Example folders_sample : Gallery.folders Sample2.runtime Sample2.shots = ["(all)"; "goa"; "rome"]%string.
Proof. vm_compute. reflexivity. Qed.

Lemma fmtBytes_units_witness :
  let u := 1024 ^ Z.of_nat 1 in
  let m := (20 * 1048575 + u) / (2 * u) in
  Format.fmtBytes (Some 1048575) =
    (Format.decimal (m / 10) ++ "." ++ Format.decimal (m mod 10) ++ " " ++
     nth 1 Format.units EmptyString)%string /\
  10 <= m /\ ((1 < 3)%nat -> m <= 10240) /\
  2 * Z.abs (10 * 1048575 - m * u) <= u.
Proof.
  apply (fmtBytes_units 1048575 1); [lia|vm_compute; discriminate|reflexivity|].
  intros _. vm_compute. reflexivity.
Defined.

Lemma previewSize_small_witness :
  previewSize 640%float (num 300) (num 200) = (num 300, num 200).
Proof. apply (previewSize_small 300 200); lia. Defined.

Lemma previewSize_long_witness :
  (2001 <= 3000 -> fst (previewSize 640%float (num 3000) (num 2001)) = 640%float) /\
  (3000 <= 2001 -> snd (previewSize 640%float (num 3000) (num 2001)) = 640%float).
Proof. apply (previewSize_long 3000 2001); lia. Defined.

Lemma scan_ends_at_100_witness :
  scanProgress (scanLocalFolderPhotosOnly (Sample.browserWith (Ok Sample.twoPhotos)) "goa"
                                          (Sample.start 100)) = 100%float.
Proof.
  apply (scan_ends_at_100 (Sample.browserWith (Ok Sample.twoPhotos)) "goa" (Sample.start 100)
                          samplePhotos).
  - reflexivity.
  - vm_compute. discriminate.
  - reflexivity.
  - split; reflexivity.
Defined.

Lemma upload_bar_ends_witness :
  let W := Sample2.knownFirst in
  let s' := Upload.onPickFolder W Sample.threeFiles Sample.page in
  (exists rest, UploadRun.newProgs W Sample.threeFiles Sample.page =
                UploadRun.startProg (UploadRun.imagesOf Sample.threeFiles) :: rest) /\
  pct (UploadRun.startProg (UploadRun.imagesOf Sample.threeFiles)) = 0%float /\
  (UploadRun.firstError W (Upload.albumId Sample.page) 0 (UploadRun.imagesOf Sample.threeFiles)
     = None -> pct (Upload.prog s') = 100%float).
Proof.
  apply (upload_bar_ends Sample2.knownFirst Sample.threeFiles Sample.page).
  - reflexivity.
  - split; reflexivity.
Defined.

Lemma rescan_revokes_previews_witness :
  let B := Sample.browserWith (Ok Sample.twoPhotos) in
  let s := Sample.start 100 in
  let s1 := scanLocalFolderPhotosOnly B "goa" s in
  let s2 := scanLocalFolderPhotosOnly B "goa" s1 in
  revoked s2 = revoked s1 ++ skipn (List.length (created s)) (created s1).
Proof.
  apply (rescan_revokes_previews (Sample.browserWith (Ok Sample.twoPhotos))
           (Sample.browserWith (Ok Sample.twoPhotos)) "goa" (Sample.start 100) samplePhotos).
  - repeat constructor; cbn; intuition discriminate.
  - left. reflexivity.
  - reflexivity.
  - vm_compute. discriminate.
  - reflexivity.
Defined.

Lemma createAlbum_scans_witness :
  let R := Sample2.runtime in
  let B := Sample.browserWith (Ok Sample.twoPhotos) in
  let t := Sample2.tab in
  let t' := createAlbumThenPickFolder R B t in
  scanState t' = scanLocalFolderPhotosOnly B (randomUUID R)
             (setAlbums (fun prev => mkAlbum (randomUUID R) (trim R (albumTitle t))
                                             (toISOString R) 0 0 0 [] :: prev) (scanState t)) /\
  selectedAlbumId t' = randomUUID R /\ albumTitle t' = EmptyString /\
  (exists a, selectedAlbum t' = Some a /\ nth_error (albums (scanState t')) 0 = Some a /\
             id a = randomUUID R /\ title a = trim R (albumTitle t)) /\
  List.length (albums (scanState t')) = S (List.length (albums (scanState t))) /\
  (forall i b, nth_error (albums (scanState t)) i = Some b -> id b <> randomUUID R ->
               nth_error (albums (scanState t')) (S i) = Some b).
Proof.
  apply (createAlbum_scans Sample2.runtime (Sample.browserWith (Ok Sample.twoPhotos))
                           Sample2.tab).
  - vm_compute. discriminate.
  - reflexivity.
  - vm_compute. discriminate.
Defined.

Lemma revoke_frees_a_place_witness :
  let R := Sample2.runtime in
  let W := Sample2.backend in
  let s := Sample2.panel in
  let typed := Share.setShareEmail " Dee@Example.org" in
  let refused := Share.shareAdd R W (typed s) in
  let s1 := Share.revoke W "u3" s in
  let s2 := Share.shareAdd R W (typed s1) in
  Share.sent (typed s) refused = [] /\
  Share.msg refused = Some Share.MaxSharedUsers /\
  Share.members refused = Share.members s /\
  List.length (Share.members s1) = 2%nat /\
  (forall m, In m (Share.members s1) <-> In m (Share.members s) /\ Share.user_id m <> "u3"%string) /\
  exists rest,
    Share.sent (typed s1) s2 =
    Share.LookupProfile (toLowerCase R (trim R " Dee@Example.org")) :: rest.
Proof.
  apply (revoke_frees_a_place Sample2.runtime Sample2.backend Sample2.backend "u3"
                              " Dee@Example.org" Sample2.panel).
  - reflexivity.
  - reflexivity.
  - repeat constructor; cbn; intuition discriminate.
  - cbn. auto.
  - reflexivity.
  - vm_compute. discriminate.
Defined.

Lemma upload_rows_witness :
  exists file buf w h b uid,
    let W := Sample.world in
    let s := Sample.page in
    let sha := Upload.sha256Hex W buf in
    let path := (Upload.albumId s ++ "/" ++ sha ++ ".jpg")%string in
    nth_error (UploadRun.imagesOf Sample.threeFiles) 0 = Some file /\
    Upload.myRole s = Upload.write /\
    Upload.arrayBuffer W 0 file = Ok buf /\
    Upload.itemExists W 0 (Upload.albumId s) sha = false /\
    Upload.imageDims W 0 file = Ok (w, h) /\
    Upload.makePreviewBlob W 0 file 640 0.8%float = Ok b /\
    Upload.rpc_reserve_quota W 0 (blob_size b) = None /\
    Upload.storage_upload W 0 path b = None /\
    Upload.auth_getUser W 0 = Some uid /\
    Sample2.firstRow =
      Upload.mkRow (Upload.albumId s) uid sha (name file) (size file) (lastModified file)
                   (Upload.exifDate W 0 file) w h path.
Proof.
  apply (upload_rows Sample.world Sample.threeFiles Sample.page 0 Sample2.firstRow).
  vm_compute. auto 10.
Defined.

Lemma upload_skips_known_witness :
  let W := Sample2.knownFirst in
  let s := Sample.page in
  let file := Sample.photo "a.jpg" 30 in
  let images := UploadRun.imagesOf Sample.threeFiles in
  let lookup := Upload.SelectItem 0 (Upload.albumId s) (Upload.sha256Hex W (bytes file)) in
  UploadRun.itemError W (Upload.albumId s) 0 file = None /\
  (forall c, In c (UploadRun.newCalls W Sample.threeFiles s) -> UploadRun.callIndex c = 0%nat ->
             c = lookup) /\
  (Upload.myRole s = Upload.write ->
   UploadRun.firstError W (Upload.albumId s) 0 (firstn 0 images) = None ->
   In lookup (UploadRun.newCalls W Sample.threeFiles s) /\
   nth_error (UploadRun.newProgs W Sample.threeFiles s) 0 =
     Some (Upload.mkProg (Z.of_nat (List.length images)) (Z.of_nat 0)
                         (sizesOf images) (sizesOf (firstn 0 images))) /\
   nth_error (UploadRun.newProgs W Sample.threeFiles s) 1 =
     Some (Upload.mkProg (Z.of_nat (List.length images)) (Z.of_nat 0 + 1)
                         (sizesOf images) (sizesOf (firstn 0 images) + size file))).
Proof.
  apply (upload_skips_known Sample2.knownFirst Sample.threeFiles Sample.page 0
                            (Sample.photo "a.jpg" 30) (bytes (Sample.photo "a.jpg" 30)));
    reflexivity.
Defined.

Lemma filtered_ordered_witness :
  let R := Sample2.runtime in
  let date x := Gallery.safeStr (Gallery.captured_at x) in
  let name x := Gallery.safeStr (Gallery.file_name x) in
  Sorted.StronglySorted
    (fun a b =>
       localeCompare R (date b) (date a) <= 0 /\
       (localeCompare R (date b) (date a) = 0 -> localeCompare R (name a) (name b) <= 0))
    (Gallery.filtered R Sample2.shots " " "(all)" Gallery.f_all Gallery.date_desc).
Proof.
  apply (filtered_ordered Sample2.runtime Sample2.shots " " "(all)" Gallery.f_all
                          Gallery.date_desc).
  split; intros; cbn [localeCompare Sample2.runtime] in *; [|lia].
  destruct (Z.of_nat (String.length a) - Z.of_nat (String.length b)) eqn:E1;
    destruct (Z.of_nat (String.length b) - Z.of_nat (String.length a)) eqn:E2;
    cbn [Z.sgn Z.opp]; lia.
Defined.

Lemma album_access_witness :
  let W := Sample2.visitor in
  let v := Sample2.view in
  let uid := "user-9"%string in
  let alb := Sample2.goa in
  let v' := AlbumLoad.load W v in
  let aid := Upload.albumId (AlbumLoad.page v) in
  Upload.albumId (AlbumLoad.page v') = aid /\
  AlbumLoad.isOwner v' = String.eqb (Profile.owner_id alb) uid /\
  (Profile.owner_id alb = uid -> Upload.myRole (AlbumLoad.page v') = Upload.write) /\
  (Profile.owner_id alb <> uid ->
     Upload.myRole (AlbumLoad.page v') =
       match AlbumLoad.select_membership W aid uid with
       | Some r => r
       | None => Upload.myRole (AlbumLoad.page v)
       end) /\
  (Profile.owner_id alb <> uid -> AlbumLoad.select_membership W aid uid = None ->
   Upload.myRole (AlbumLoad.page v) = Upload.read ->
   forall (U : Upload.World) (files : list File), files <> [] ->
     let s' := Upload.onPickFolder U files (AlbumLoad.page v') in
     Upload.calls s' = Upload.calls (AlbumLoad.page v') /\
     Upload.items s' = Upload.items (AlbumLoad.page v') /\
     Upload.msg s' = Some "You only have read access."%string).
Proof.
  apply (album_access Sample2.visitor Sample2.view "user-9" Sample2.goa).
  - reflexivity.
  - discriminate.
  - reflexivity.
Defined.
